(** * SonicFlux Node.js server: a shallow embedding of app.js, route.js and timer.js

    The server keeps a registry of players ([all_players_list]), an occupancy
    count per room ([roomCount]), the round phase ([round_in_progress]) and a
    self-calibrating one-second timer.  The embedding follows the source
    function by function.  State that JavaScript mutates in place lives in a
    [world] record; every routine is a computation in a small state and
    exception monad, because several JavaScript expressions of the source can
    throw: [TypeError] on a property of [undefined], on [trim] of a value
    that is no string, and on an object that has no primitive value where
    one is needed ([parseInt], the comparator of the sorts, a string
    concatenation); [ReferenceError] on the implicit global [player].  An
    exception ends the handler or the timer callback that is running and
    leaves the state as it is at the throw.

    Not modelled: [console.log] output (the one argument of it that can
    throw while it is put together is), the HTTP route of the diagnostic
    client, and the framing of the socket transport (only the calls the
    code makes on it are recorded).  [stop] of timer.js, which app.js
    never calls, is no input of the transition system; it is embedded on
    its own.  The wall clock is an input: a routine that
    calls [Date.getTime()] takes the reading as an argument.
    [Array.prototype.sort] is a parameter of the routines that sort; what
    is assumed of it is stated where it is used ([sorts]).

    The first part of the file is the embedding and the vocabulary of the
    statements; the properties follow, the claims of the specification
    among them, each under the id of its claim. *)

From Stdlib Require Import ZArith String Ascii DecimalString Lia.
From Stdlib Require DecimalZ DecimalPos.
From stdpp Require Import gmap strings list fin_maps list_numbers sorting.

Open Scope Z_scope.

(** ** JavaScript values carried by requests

    Request payloads are JSON: undefined (an absent field), null, booleans,
    numbers, strings and objects; arrays are left out.  Numbers are
    restricted to integers: [JNum z] is the Number nearest to [z], which
    is [z] itself up to 2^53.  A string is kept as the bytes of its UTF-8
    encoding. *)

#[warnings="-register-all"]
Inductive jsval :=
| JUndefined
| JNull
| JBool (b : bool)
| JNum (z : Z)
| JStr (s : string)
| JObj (fields : list (string * jsval)).

(** [!v] is true for undefined, null, false, 0 and the empty string. *)
Definition truthy (v : jsval) : bool :=
  match v with
  | JUndefined | JNull => false
  | JBool b => b
  | JNum z => negb (z =? 0)
  | JStr s => negb (String.eqb s EmptyString)
  | JObj _ => true
  end.

(** [v == null], also written [typeof v == 'undefined' || v == null]. *)
Definition nullish (v : jsval) : bool :=
  match v with
  | JUndefined | JNull => true
  | _ => false
  end.

Fixpoint assoc_get {A} (k : string) (l : list (string * A)) : option A :=
  match l with
  | [] => None
  | (k', v) :: l' => if String.eqb k k' then Some v else assoc_get k l'
  end.

(** [v.k] on a value that is neither undefined nor null: primitives have no
    own property of the names the server reads. *)
Definition get_prop (v : jsval) (k : string) : jsval :=
  match v with
  | JObj fields => default JUndefined (assoc_get k fields)
  | _ => JUndefined
  end.

(** ** Numbers as strings (ECMAScript, Number::toString)

    An integer below 2^53 prints as its decimal.  Above, JavaScript prints
    the shortest decimal that denotes the same Number, in exponent form
    from 10^21 on. *)

Definition Z_to_string (z : Z) : string := NilZero.string_of_int (Z.to_int z).

(** The Number nearest to the integer [x >= 0]: 53 bits, ties to even. *)
Definition nearest_double (x : Z) : Z :=
  if x <? 2 ^ 53 then x
  else
    let e := Z.log2 x - 52 in
    let q := Z.shiftr x e in
    let r := x - Z.shiftl q e in
    let half := 2 ^ (e - 1) in
    (if (half <? r) || ((r =? half) && Z.odd q) then q + 1 else q) * 2 ^ e.

Definition digits (x : Z) : Z := Z.of_nat (String.length (Z_to_string x)).

(** The multiple of [10 ^ (digits m - k)] that denotes the Number [m], if
    there is one: the nearer of the two around [m], the even one on a
    tie. *)
Definition with_digits (m k : Z) : option Z :=
  let p := 10 ^ (digits m - k) in
  let lo := m / p * p in
  let hi := lo + p in
  match nearest_double lo =? m, nearest_double hi =? m with
  | true, true =>
      Some (if m - lo <? hi - m then lo
            else if hi - m <? m - lo then hi
            else if Z.even (lo / p) then lo else hi)
  | true, false => Some lo
  | false, true => Some hi
  | false, false => None
  end.

(** The decimal with the fewest significant digits that denotes [m]. *)
Definition shortest_decimal (m : Z) : Z :=
  default m
    (foldr (fun k found =>
              match (if k <=? digits m then with_digits m k else None) with
              | Some v => Some v
              | None => found
              end) None (seqZ 1 17)).

Fixpoint drop_zeros (fuel : nat) (v : Z) : Z :=
  match fuel with
  | O => v
  | S fuel' => if v mod 10 =? 0 then drop_zeros fuel' (v / 10) else v
  end.

(** [d.ddde+n] *)
Definition exponential (v : Z) : string :=
  match Z_to_string (drop_zeros 400 v) with
  | String d EmptyString => String d EmptyString
  | String d rest => String d ("." +:+ rest)
  | EmptyString => EmptyString
  end +:+ "e+" +:+ Z_to_string (digits v - 1).

Definition Number_toString (z : Z) : string :=
  let m := nearest_double (Z.abs z) in
  let v := if m <? 2 ^ 53 then m else shortest_decimal m in
  (if z <? 0 then "-"%string else EmptyString) +:+
  (if 2 ^ 1024 <=? m then "Infinity"%string
   else if v <? 10 ^ 21 then Z_to_string v
   else exponential v).

(** ** Objects as primitive values (ECMAScript, ToPrimitive)

    An object of a payload is a plain object whose properties are JSON
    values, none of them callable.  Turning it into a string or a number
    calls its [toString] (and [valueOf], which for a plain object gives the
    object back): with no own [toString] the result is
    ["[object Object]"], with one, which is not callable, the conversion
    throws a TypeError. *)
Definition uncoercible (v : jsval) : bool :=
  match v with
  | JObj fields =>
      match assoc_get "toString" fields with
      | Some _ => true
      | None => false
      end
  | _ => false
  end.

(** [ToString(v)]; [None] is the TypeError. *)
Definition ToString (v : jsval) : option string :=
  match v with
  | JUndefined => Some "undefined"
  | JNull => Some "null"
  | JBool true => Some "true"
  | JBool false => Some "false"
  | JNum z => Some (Number_toString z)
  | JStr s => Some s
  | JObj _ => if uncoercible v then None else Some "[object Object]"
  end%string.

(** ** [parseInt] and [trim] on strings

    White space is the WhiteSpace and LineTerminator of ECMAScript (2016
    and later), in UTF-8: U+0009 to U+000D and U+0020 in one byte; U+00A0
    in two; U+1680, U+2000 to U+200A, U+2028, U+2029, U+202F, U+205F,
    U+3000 and U+FEFF in three.  [parseInt] returns the exact integer the
    digits denote. *)

Definition ws1 (a : ascii) : bool :=
  let a := nat_of_ascii a in
  ((9 <=? a) && (a <=? 13) || (a =? 32))%nat.

Definition ws2 (a b : ascii) : bool :=
  let a := nat_of_ascii a in
  let b := nat_of_ascii b in
  ((a =? 194) && (b =? 160))%nat.

Definition ws3 (a b c : ascii) : bool :=
  let a := nat_of_ascii a in
  let b := nat_of_ascii b in
  let c := nat_of_ascii c in
  ((a =? 225) && (b =? 154) && (c =? 128)
   || (a =? 226) && (b =? 128)
      && ((128 <=? c) && (c <=? 138) || (c =? 168) || (c =? 169) || (c =? 175))
   || (a =? 226) && (b =? 129) && (c =? 159)
   || (a =? 227) && (b =? 128) && (c =? 128)
   || (a =? 239) && (b =? 187) && (c =? 191))%nat.

(** What follows the white space character [s] begins with, if it begins
    with one. *)
Definition ws_at (s : string) : option string :=
  match s with
  | String a r1 =>
      if ws1 a then Some r1
      else
        match r1 with
        | String b r2 =>
            if ws2 a b then Some r2
            else
              match r2 with
              | String c r3 => if ws3 a b c then Some r3 else None
              | EmptyString => None
              end
        | EmptyString => None
        end
  | EmptyString => None
  end.

Fixpoint skip_ws_fuel (fuel : nat) (s : string) : string :=
  match fuel with
  | O => s
  | S fuel' =>
      match ws_at s with
      | Some r => skip_ws_fuel fuel' r
      | None => s
      end
  end.

(** [s] without its leading white space. *)
Definition skip_ws (s : string) : string := skip_ws_fuel (String.length s) s.

(** [s] without its trailing white space: from the right, what is left is
    kept unless it is white space throughout. *)
Fixpoint trim_right (s : string) : string :=
  match s with
  | String c r =>
      let t := String c (trim_right r) in
      if String.eqb (skip_ws t) EmptyString then EmptyString else t
  | EmptyString => EmptyString
  end.

Definition trim (s : string) : string := trim_right (skip_ws s).

Definition digit_val (radix : Z) (c : ascii) : option Z :=
  let n := Z.of_nat (nat_of_ascii c) in
  let d :=
    if (48 <=? n) && (n <=? 57) then Some (n - 48)
    else if (97 <=? n) && (n <=? 122) then Some (n - 87)
    else if (65 <=? n) && (n <=? 90) then Some (n - 55)
    else None in
  match d with
  | Some v => if v <? radix then Some v else None
  | None => None
  end.

(** The longest prefix of digits, read left to right; [None] when the prefix
    is empty. *)
Fixpoint read_digits (radix : Z) (s : string) (acc : option Z) : option Z :=
  match s with
  | String c r =>
      match digit_val radix c with
      | Some d => read_digits radix r (Some (radix * default 0 acc + d))
      | None => acc
      end
  | EmptyString => acc
  end.

(** [parseInt(s)] with no radix argument; [None] is NaN. *)
Definition parseInt (s : string) : option Z :=
  let s1 := skip_ws s in
  let '(sign, s2) :=
    match s1 with
    | String "-" r => (-1, r)
    | String "+" r => (1, r)
    | _ => (1, s1)
    end in
  let '(radix, s3) :=
    match s2 with
    | String "0" (String "x" r) => (16, r)
    | String "0" (String "X" r) => (16, r)
    | _ => (10, s2)
    end in
  Z.mul sign <$> read_digits radix s3 None.

(** ** Constants of app.js and timer.js *)

Definition SECS_IN_LOBBY : Z := 30.
Definition SECS_IN_COMPLETE_CYCLE : Z := 180.
Definition MSECS_IN_COMPLETE_CYCLE : Z := SECS_IN_COMPLETE_CYCLE * 1000.
Definition MIN_ROOM_NUM : Z := 0.
Definition NUM_ROOMS : Z := 4.

Definition SECS_MAX_SKIP_FWD : Z := 9.
Definition SECS_PER_CALIBRATION : Z := 1.
Definition USE_LARGER_CLOCK_SKEW : bool := false.
Definition MSECS_MAX_CLK_ERR : Z := 10.
Definition MSECS_EXTRA_MAX_CLK_ERR : Z := 25.

Definition TIMER_NOT_SET : Z := 0.
Definition FASTER_TIMER_INTERVAL : Z := 960.
Definition FAST_TIMER_INTERVAL : Z := 976.
Definition NORMAL_TIMER_INTERVAL : Z := 990.
Definition SLOW_TIMER_INTERVAL : Z := 1004.
Definition SLOWER_TIMER_INTERVAL : Z := 1020.

Definition initMSecOffset : Z := -10.

(** The rooms visited by [for (room = MIN_ROOM_NUM; room < MIN_ROOM_NUM + NUM_ROOMS; room++)]. *)
Definition rooms : list Z := seqZ MIN_ROOM_NUM NUM_ROOMS.

(** ['' + room], the name under which a room is addressed on the transport. *)
Definition room_name (room : Z) : string := Z_to_string room.

(** ** Data model *)

Record player := mkPlayer {
  player_tag : string;
  points : jsval;
  diff_lvl : Z;
  incomplete_round : bool;
  ref_count : Z
}.

(** A scoreboard line [{player_tag, points}]. *)
Definition entry : Type := string * jsval.

Definition entry_of (p : player) : entry := (player_tag p, points p).

(** What a variable that holds a player object may contain. *)
Inductive sval :=
| SUndefined
| SNull
| SRef (r : nat).

(** The request object handed to a route by the transport:
    [request.io] is the socket of the endpoint, [request.session] the session
    object bound to it ([None] when the transport bound none),
    [request.sessionID] and [request.data]. *)
Record request := mkRequest {
  sock : nat;
  session : option nat;
  sessionID : string;
  data : jsval
}.

Inductive target :=
| ToSocket (s : nat)                       (* request.io.emit *)
| ToRoomExcept (room : string) (s : nat)   (* request.io.room(r).broadcast *)
| ToRoom (room : string)                   (* app.io.room(r).broadcast *)
| ToAll.                                   (* app.io.broadcast *)

Inductive payload :=
| PErr (error_str : string) (user_input : option jsval)
| PPlayer (p : player)
| PEntry (e : entry)
| PTag (tag : string)
| PLeaders (leaders : list entry)
| PSecs (n : Z)
| PResults (results : list entry)
| PPlayTick (time_remaining : Z) (leaders : list entry)
| PFinal (pts : jsval) (round_complete : bool).

Record msg := mkMsg { msg_to : target; msg_event : string; msg_payload : payload }.

Inductive timer_op :=
| SetTimeout (delay : Z)
| SetInterval (interval : Z)
| ClearInterval (old : option Z).

(** The routines of timer.js, recorded when they are entered. *)
Inductive routine :=
| RfirstTick | RtimerTick
| RfirstPlayTick | RfirstLobbyTick
| RplayTick | RlobbyTick
| RadjustLobbySecs | RcalibrateTimer
| RcreateRoundResults | RbroadcastRoundResults.

Inductive exn := ReferenceError | TypeError.

(** The whole server state.

    - [secsRemaining], [currentTimerInterval]: module variables of timer.js;
      [timeout_pending] is the one-shot created by [setTimeout] that has not
      fired yet (its delay), [interval_active] the recurring timer held in
      [context.timerIntervalObj] (its interval).
    - [roomCount], [all_players_list], [round_in_progress], [round_results]:
      the globals of app.js.  [roomCount] and [round_results] are JavaScript
      arrays, kept as maps from index to element.  An index without element
      in [roomCount] stands for [undefined] or [NaN], which the code cannot
      tell apart (both are falsy, neither is [> 0], both stay so under [++]
      and [--]).  [all_players_list] is an object enumerated by [for .. in],
      kept in the order in which its properties were created, which is the
      order [for .. in] visits them in as long as no session id is the
      decimal of an array index; the statements that depend on the order
      assume so ([plain_ids]).  Session ids are not names of
      [Object.prototype].  [None] is the value [null].
    - [num_guests] of route.js, and [player_global], the implicit global
      [player] that [client_ready] and [change_room] assign ([None] before
      its first assignment).
    - [heap]: the player objects, addressed by reference, because the
      registry, the session objects and [player_global] share them.
    - [sessions]: the [player] property of each session object;
      [joined]: the rooms each socket was joined to.
    - [outbox], [timer_log], [calls]: what was sent, what was asked of the
      timers, and which routines of timer.js ran, oldest first. *)
Record world := mkWorld {
  secsRemaining : Z;
  currentTimerInterval : Z;
  timeout_pending : option Z;
  interval_active : option Z;
  roomCount : gmap Z Z;
  all_players_list : list (string * option nat);
  round_in_progress : bool;
  round_results : gmap Z (list entry);
  num_guests : Z;
  player_global : option sval;
  heap : list player;
  sessions : gmap nat sval;
  joined : gset (nat * Z);
  outbox : list msg;
  timer_log : list timer_op;
  calls : list routine
}.

(** The state app.js builds before it starts the timer. *)
Definition init_world : world :=
  {| secsRemaining := 0;
     currentTimerInterval := TIMER_NOT_SET;
     timeout_pending := None;
     interval_active := None;
     roomCount := list_to_map ((fun i => (i, 0)) <$> rooms);
     all_players_list := [];
     round_in_progress := false;
     round_results := ∅;
     num_guests := 0;
     player_global := None;
     heap := [];
     sessions := ∅;
     joined := ∅;
     outbox := [];
     timer_log := [];
     calls := [] |}.

(** ** Field updates

    [set_f v w] is [w] with field [f] replaced by [v]. *)

Definition set_secsRemaining (v : Z) (w : world) : world :=
  mkWorld v (currentTimerInterval w) (timeout_pending w) (interval_active w)
    (roomCount w) (all_players_list w) (round_in_progress w) (round_results w)
    (num_guests w) (player_global w) (heap w) (sessions w) (joined w)
    (outbox w) (timer_log w) (calls w).

Definition set_currentTimerInterval (v : Z) (w : world) : world :=
  mkWorld (secsRemaining w) v (timeout_pending w) (interval_active w)
    (roomCount w) (all_players_list w) (round_in_progress w) (round_results w)
    (num_guests w) (player_global w) (heap w) (sessions w) (joined w)
    (outbox w) (timer_log w) (calls w).

Definition set_timeout_pending (v : option Z) (w : world) : world :=
  mkWorld (secsRemaining w) (currentTimerInterval w) v (interval_active w)
    (roomCount w) (all_players_list w) (round_in_progress w) (round_results w)
    (num_guests w) (player_global w) (heap w) (sessions w) (joined w)
    (outbox w) (timer_log w) (calls w).

Definition set_interval_active (v : option Z) (w : world) : world :=
  mkWorld (secsRemaining w) (currentTimerInterval w) (timeout_pending w) v
    (roomCount w) (all_players_list w) (round_in_progress w) (round_results w)
    (num_guests w) (player_global w) (heap w) (sessions w) (joined w)
    (outbox w) (timer_log w) (calls w).

Definition set_roomCount (v : gmap Z Z) (w : world) : world :=
  mkWorld (secsRemaining w) (currentTimerInterval w) (timeout_pending w)
    (interval_active w) v (all_players_list w) (round_in_progress w)
    (round_results w) (num_guests w) (player_global w) (heap w) (sessions w)
    (joined w) (outbox w) (timer_log w) (calls w).

Definition set_all_players_list (v : list (string * option nat)) (w : world) : world :=
  mkWorld (secsRemaining w) (currentTimerInterval w) (timeout_pending w)
    (interval_active w) (roomCount w) v (round_in_progress w)
    (round_results w) (num_guests w) (player_global w) (heap w) (sessions w)
    (joined w) (outbox w) (timer_log w) (calls w).

Definition set_round_in_progress (v : bool) (w : world) : world :=
  mkWorld (secsRemaining w) (currentTimerInterval w) (timeout_pending w)
    (interval_active w) (roomCount w) (all_players_list w) v (round_results w)
    (num_guests w) (player_global w) (heap w) (sessions w) (joined w)
    (outbox w) (timer_log w) (calls w).

Definition set_round_results (v : gmap Z (list entry)) (w : world) : world :=
  mkWorld (secsRemaining w) (currentTimerInterval w) (timeout_pending w)
    (interval_active w) (roomCount w) (all_players_list w)
    (round_in_progress w) v (num_guests w) (player_global w) (heap w)
    (sessions w) (joined w) (outbox w) (timer_log w) (calls w).

Definition set_num_guests (v : Z) (w : world) : world :=
  mkWorld (secsRemaining w) (currentTimerInterval w) (timeout_pending w)
    (interval_active w) (roomCount w) (all_players_list w)
    (round_in_progress w) (round_results w) v (player_global w) (heap w)
    (sessions w) (joined w) (outbox w) (timer_log w) (calls w).

Definition set_player_global (v : option sval) (w : world) : world :=
  mkWorld (secsRemaining w) (currentTimerInterval w) (timeout_pending w)
    (interval_active w) (roomCount w) (all_players_list w)
    (round_in_progress w) (round_results w) (num_guests w) v (heap w)
    (sessions w) (joined w) (outbox w) (timer_log w) (calls w).

Definition set_heap (v : list player) (w : world) : world :=
  mkWorld (secsRemaining w) (currentTimerInterval w) (timeout_pending w)
    (interval_active w) (roomCount w) (all_players_list w)
    (round_in_progress w) (round_results w) (num_guests w) (player_global w) v
    (sessions w) (joined w) (outbox w) (timer_log w) (calls w).

Definition set_sessions (v : gmap nat sval) (w : world) : world :=
  mkWorld (secsRemaining w) (currentTimerInterval w) (timeout_pending w)
    (interval_active w) (roomCount w) (all_players_list w)
    (round_in_progress w) (round_results w) (num_guests w) (player_global w)
    (heap w) v (joined w) (outbox w) (timer_log w) (calls w).

Definition set_joined (v : gset (nat * Z)) (w : world) : world :=
  mkWorld (secsRemaining w) (currentTimerInterval w) (timeout_pending w)
    (interval_active w) (roomCount w) (all_players_list w)
    (round_in_progress w) (round_results w) (num_guests w) (player_global w)
    (heap w) (sessions w) v (outbox w) (timer_log w) (calls w).

Definition set_outbox (v : list msg) (w : world) : world :=
  mkWorld (secsRemaining w) (currentTimerInterval w) (timeout_pending w)
    (interval_active w) (roomCount w) (all_players_list w)
    (round_in_progress w) (round_results w) (num_guests w) (player_global w)
    (heap w) (sessions w) (joined w) v (timer_log w) (calls w).

Definition set_timer_log (v : list timer_op) (w : world) : world :=
  mkWorld (secsRemaining w) (currentTimerInterval w) (timeout_pending w)
    (interval_active w) (roomCount w) (all_players_list w)
    (round_in_progress w) (round_results w) (num_guests w) (player_global w)
    (heap w) (sessions w) (joined w) (outbox w) v (calls w).

Definition set_calls (v : list routine) (w : world) : world :=
  mkWorld (secsRemaining w) (currentTimerInterval w) (timeout_pending w)
    (interval_active w) (roomCount w) (all_players_list w)
    (round_in_progress w) (round_results w) (num_guests w) (player_global w)
    (heap w) (sessions w) (joined w) (outbox w) (timer_log w) v.

Definition set_points (v : jsval) (p : player) : player :=
  mkPlayer (player_tag p) v (diff_lvl p) (incomplete_round p) (ref_count p).

Definition set_diff_lvl (v : Z) (p : player) : player :=
  mkPlayer (player_tag p) (points p) v (incomplete_round p) (ref_count p).

Definition set_incomplete_round (v : bool) (p : player) : player :=
  mkPlayer (player_tag p) (points p) (diff_lvl p) v (ref_count p).

Definition set_ref_count (v : Z) (p : player) : player :=
  mkPlayer (player_tag p) (points p) (diff_lvl p) (incomplete_round p) v.

(** ** The state and exception monad *)

Inductive res (A : Type) :=
| Ret (a : A) (w : world)
| Throw (e : exn) (w : world).

Arguments Ret {A} a w.
Arguments Throw {A} e w.

(** The state a computation leaves behind, whether it returned or threw. *)
Definition world_of {A} (r : res A) : world :=
  match r with
  | Ret _ w => w
  | Throw _ w => w
  end.

Definition M (A : Type) : Type := world -> res A.

Definition ret {A} (a : A) : M A := fun w => Ret a w.

Definition bind {A B} (m : M A) (f : A -> M B) : M B :=
  fun w =>
    match m w with
    | Ret a w' => f a w'
    | Throw e w' => Throw e w'
    end.

Definition throw {A} (e : exn) : M A := fun w => Throw e w.

Definition gets {A} (f : world -> A) : M A := fun w => Ret (f w) w.

Definition modify (f : world -> world) : M unit := fun w => Ret tt (f w).

Declare Scope m_scope.
Delimit Scope m_scope with M.
Bind Scope m_scope with M.

Notation "x ← y ; z" := (bind y (fun x => z))
  (at level 20, y at level 100, z at level 200, only parsing) : m_scope.
Notation "y ;; z" := (bind y (fun _ => z))
  (at level 100, z at level 200, only parsing, right associativity) : m_scope.

Open Scope m_scope.

(** A loop over a list, left to right. *)
Fixpoint forM {A} (l : list A) (body : A -> M unit) : M unit :=
  match l with
  | [] => ret tt
  | x :: l' => body x ;; forM l' body
  end.

(** ** Primitive effects *)

Definition send (to : target) (event : string) (p : payload) : M unit :=
  modify (fun w => set_outbox (outbox w ++ [mkMsg to event p]) w).

Definition enter (r : routine) : M unit :=
  modify (fun w => set_calls (calls w ++ [r]) w).

Definition timer_call (op : timer_op) : M unit :=
  modify (fun w => set_timer_log (timer_log w ++ [op]) w).

(** Reading through a reference.  References are created by [alloc] only and
    the heap never shrinks; the embedding throws on a dangling one. *)
Definition deref (r : nat) : M player :=
  fun w =>
    match heap w !! r with
    | Some p => Ret p w
    | None => Throw TypeError w
    end.

Definition update (r : nat) (f : player -> player) : M unit :=
  p ← deref r;
  modify (fun w => set_heap (<[r := f p]> (heap w)) w).

Definition alloc (p : player) : M nat :=
  fun w => Ret (length (heap w)) (set_heap (heap w ++ [p]) w).

(** [request.session], then its [player] property: reading a property of an
    absent session object is a TypeError. *)
Definition session_obj (request : request) : M nat :=
  match session request with
  | Some k => ret k
  | None => throw TypeError
  end.

Definition get_session_player (request : request) : M sval :=
  k ← session_obj request;
  gets (fun w => default SUndefined (sessions w !! k)).

Definition set_session_player (request : request) (v : sval) : M unit :=
  k ← session_obj request;
  modify (fun w => set_sessions (<[k := v]> (sessions w)) w).

(** [v.f] for a variable [v] that should hold a player object. *)
Definition sval_ref (v : sval) : M nat :=
  match v with
  | SRef r => ret r
  | _ => throw TypeError
  end.

Fixpoint assoc_set {A} (k : string) (v : A) (l : list (string * A))
  : list (string * A) :=
  match l with
  | [] => [(k, v)]
  | (k', v') :: l' =>
      if String.eqb k k' then (k', v) :: l' else (k', v') :: assoc_set k v l'
  end.

(** [all_players_list[sid]] when it is neither undefined nor null. *)
Definition registry_get (sid : string) (w : world) : option nat :=
  match assoc_get sid (all_players_list w) with
  | Some (Some r) => Some r
  | _ => None
  end.

(** The objects visited by
    [for (var index in all_players_list) if (all_players_list[index]) ...]. *)
Definition registered (w : world) : list nat := omap snd (all_players_list w).

(** [roomCount[room]] as a condition and as an operand of [> 0]. *)
Definition room_count (room : Z) (w : world) : Z :=
  default 0 (roomCount w !! room).

(** ** route.js: worker functions *)

(** [parseInt(v)] turns [v] into a string first, which throws a TypeError
    on an object with a property [toString]. *)
Definition determineDifficultyLevel (request : request) : M Z :=
  if negb (truthy (data request)) then
    send (ToSocket (sock request)) "error_client_ready"
      (PErr "No request data was provided" (Some (JStr EmptyString))) ;;
    ret (-1)
  else if negb (truthy (get_prop (data request) "profile")) then
    send (ToSocket (sock request)) "error_client_ready"
      (PErr "No user profile was provided" (Some (JStr EmptyString))) ;;
    ret (-1)
  else
    let difficulty_level :=
      get_prop (get_prop (data request) "profile") "difficulty_level" in
    if nullish difficulty_level then
      send (ToSocket (sock request)) "error_client_ready"
        (PErr "No difficulty level was provided" (Some (JStr EmptyString))) ;;
      ret (-1)
    else
      match ToString difficulty_level with
      | None => throw TypeError
      | Some s =>
          match parseInt s with
          | None =>
              send (ToSocket (sock request)) "error_client_ready"
                (PErr "Invalid difficulty level" (Some difficulty_level)) ;;
              ret (-1)
          | Some diff_lvl =>
              if (diff_lvl <? MIN_ROOM_NUM)
                 || (diff_lvl >=? MIN_ROOM_NUM + NUM_ROOMS)
              then
                send (ToSocket (sock request)) "error_client_ready"
                  (PErr "Difficulty level is out of range"
                     (Some difficulty_level)) ;;
                ret (-1)
              else ret diff_lvl
          end
      end.

Definition checkClientAlreadyConnected (request : request) : M bool :=
  found ← gets (registry_get (sessionID request));
  match found with
  | Some r =>
      set_session_player request (SRef r) ;;
      update r (fun p => set_ref_count (ref_count p + 1) p) ;;
      ret true
  | None => ret false
  end.

(** ['Guest ' + num_guests], then [num_guests++]. *)
Definition guest_tag : M string :=
  n ← gets num_guests;
  modify (fun w => set_num_guests (n + 1) w) ;;
  ret ("Guest " +:+ Z_to_string n).

(** [tag.trim()] on a tag that is neither a string, undefined nor null is a
    TypeError: such values have no [trim] method. *)
Definition determineTag (request : request) : M string :=
  match get_prop (get_prop (data request) "profile") "player_tag" with
  | JUndefined | JNull => tag ← guest_tag; ret (trim tag)
  | JStr s =>
      if String.eqb (trim s) EmptyString then tag ← guest_tag; ret (trim tag)
      else ret (trim s)
  | _ => throw TypeError
  end.

Definition attachPlayerToRoom (request : request) (r : nat) : M unit :=
  p ← deref r;
  modify (fun w => set_roomCount (alter Z.succ (diff_lvl p) (roomCount w)) w) ;;
  modify (fun w => set_joined ({[ (sock request, diff_lvl p) ]} ∪ joined w) w) ;;
  send (ToRoomExcept (room_name (diff_lvl p)) (sock request))
    "gamer_entered_room" (PEntry (entry_of p)).

(** The [gamers] array built by the loop of [emitPlayersAlreadyInRoom]. *)
Fixpoint gamers_in (lvl : Z) (refs : list nat) (gamers : list entry)
  : M (list entry) :=
  match refs with
  | [] => ret gamers
  | q :: refs' =>
      pq ← deref q;
      if diff_lvl pq =? lvl then gamers_in lvl refs' (gamers ++ [entry_of pq])
      else gamers_in lvl refs' gamers
  end.

Definition emitPlayersAlreadyInRoom (request : request) (r : nat) : M unit :=
  p ← deref r;
  refs ← gets registered;
  gamers ← gamers_in (diff_lvl p) refs [];
  send (ToSocket (sock request)) "gamers_already_in_room" (PLeaders gamers).

(** [round_results[room].length] is read only after [round_ended] was sent;
    it is a TypeError while [round_results[room]] is undefined. *)
Definition emitRoundEventAndResults (io : nat) (in_progress : bool) (room : Z)
  : M unit :=
  if in_progress then
    send (ToSocket io) "round_started"
      (PSecs (SECS_IN_COMPLETE_CYCLE - SECS_IN_LOBBY))
  else
    send (ToSocket io) "round_ended" (PSecs SECS_IN_LOBBY) ;;
    results ← gets (fun w => round_results w !! room);
    match results with
    | None => throw TypeError
    | Some l =>
        if negb (length l =? 0)%nat then
          send (ToSocket io) "room_round_results" (PResults l)
        else ret tt
    end.

Definition detachPlayerFromRoom (request : request) : M unit :=
  v ← get_session_player request;
  r ← sval_ref v;
  p ← deref r;
  modify (fun w => set_roomCount (alter Z.pred (diff_lvl p) (roomCount w)) w) ;;
  modify (fun w => set_joined (joined w ∖ {[ (sock request, diff_lvl p) ]}) w) ;;
  n ← gets (room_count (diff_lvl p));
  if 0 <? n then
    send (ToRoomExcept (room_name (diff_lvl p)) (sock request))
      "gamer_exited_room" (PTag (player_tag p))
  else ret tt.

(** ** route.js: routing functions

    The routes assign [new_level] and [prev_level] without declaring them;
    each is written before it is read, so they are kept as local values. *)

Definition client_ready (request : request) : M unit :=
  diff_lvl ← determineDifficultyLevel request;
  if diff_lvl =? -1 then ret tt
  else
    connected ← checkClientAlreadyConnected request;
    if connected : bool then ret tt
    else
      tag ← determineTag request;
      in_progress ← gets round_in_progress;
      r ← alloc (mkPlayer tag (JNum 0) diff_lvl in_progress 1);
      modify (set_player_global (Some (SRef r))) ;;
      modify (fun w =>
        set_all_players_list
          (assoc_set (sessionID request) (Some r) (all_players_list w)) w) ;;
      set_session_player request (SRef r) ;;
      p ← deref r;
      send (ToSocket (sock request)) "client_confirmed" (PPlayer p) ;;
      attachPlayerToRoom request r ;;
      emitPlayersAlreadyInRoom request r ;;
      in_progress ← gets round_in_progress;
      emitRoundEventAndResults (sock request) in_progress diff_lvl.

(** [prev_level = player.diff_lvl] reads the global [player] before
    [player = request.session.player] rebinds it. *)
Definition change_room (request : request) : M unit :=
  new_level ← determineDifficultyLevel request;
  if new_level =? -1 then ret tt
  else
    g ← gets player_global;
    match g with
    | None => throw ReferenceError
    | Some v =>
        gr ← sval_ref v;
        gp ← deref gr;
        let prev_level := diff_lvl gp in
        sp ← get_session_player request;
        modify (set_player_global (Some sp)) ;;
        if new_level =? prev_level then ret tt
        else
          detachPlayerFromRoom request ;;
          r ← sval_ref sp;
          update r (set_diff_lvl new_level) ;;
          attachPlayerToRoom request r ;;
          emitPlayersAlreadyInRoom request r ;;
          in_progress ← gets round_in_progress;
          emitRoundEventAndResults (sock request) in_progress prev_level
    end.

Definition disconnect (request : request) : M unit :=
  v ← get_session_player request;
  match v with
  | SUndefined => ret tt
  | _ =>
      r ← sval_ref v;
      update r (fun p => set_ref_count (ref_count p - 1) p) ;;
      p ← deref r;
      if negb (ref_count p =? 0) then ret tt
      else
        detachPlayerFromRoom request ;;
        modify (fun w =>
          set_all_players_list
            (assoc_set (sessionID request) None (all_players_list w)) w) ;;
        set_session_player request SNull
  end.

Definition player_scored (request : request) : M unit :=
  match session request with
  | None =>
      send (ToSocket (sock request)) "error_unrecognized_player"
        (PErr "session is not set" None)
  | Some _ =>
      v ← get_session_player request;
      match v with
      | SRef r =>
          if negb (truthy (data request)) then
            send (ToSocket (sock request)) "error_player_scored"
              (PErr "request.data is not set" None)
          else if nullish (get_prop (data request) "points") then
            send (ToSocket (sock request)) "error_player_scored"
              (PErr "request.data.points is not set" None)
          else
            in_progress ← gets round_in_progress;
            if in_progress : bool then
              update r (set_points (get_prop (data request) "points")) ;;
              found ← gets (registry_get (sessionID request));
              match found with
              | Some q => update q (set_points (get_prop (data request) "points"))
              | None => throw TypeError
              end
            else
              p ← deref r;
              if nullish (points p) then update r (set_points (JNum 0))
              else ret tt
      | _ =>
          send (ToSocket (sock request)) "error_unrecognized_player"
            (PErr "session.player is not set" None)
      end
  end.

(** After the answer is sent the route logs
    ["... points:" + gamer.points + ...], a concatenation that throws a
    TypeError on points with no primitive value. *)
Definition request_final_score (request : request) : M unit :=
  match session request with
  | None =>
      send (ToSocket (sock request)) "error_unrecognized_player"
        (PErr "session is not set" None)
  | Some _ =>
      v ← get_session_player request;
      match v with
      | SRef r =>
          in_progress ← gets round_in_progress;
          (if in_progress : bool then update r (set_incomplete_round true)
           else ret tt) ;;
          gamer ← deref r;
          send (ToSocket (sock request)) "final_round_score"
            (PFinal (points gamer) (negb (incomplete_round gamer))) ;;
          if uncoercible (points gamer) then throw TypeError else ret tt
      | _ =>
          send (ToSocket (sock request)) "error_unrecognized_player"
            (PErr "session.player is not set" None)
      end
  end.

(** ** timer.js

    [Date.getTime()] is an input: every routine that reads the clock takes
    the reading as an argument.  The quotients of the source are taken on
    positive numbers below 2^53, where [parseInt(x / 1000)] drops the
    fraction ([Z.quot]) and [%] is [Z.rem]. *)

Definition msecUntilNextGame (now : Z) : Z :=
  let timePrevGameOver :=
    now / MSECS_IN_COMPLETE_CYCLE * MSECS_IN_COMPLETE_CYCLE in
  (timePrevGameOver + MSECS_IN_COMPLETE_CYCLE) - now.

Definition adjustLobbySecs (now : Z) : M unit :=
  enter RadjustLobbySecs ;;
  let actualSecRemaining := Z.quot (msecUntilNextGame now + 500) 1000 in
  secs ← gets secsRemaining;
  if negb (actualSecRemaining =? secs) then
    let newSecsRemaining :=
      Z.max (secs - SECS_MAX_SKIP_FWD) (Z.min SECS_IN_LOBBY actualSecRemaining) in
    modify (set_secsRemaining newSecsRemaining)
  else ret tt.

(** The interval [calibrateTimer] settles on, for a clock error in msec. *)
Definition newTimerInterval (larger_skew : bool) (msecClkErr : Z) : Z :=
  let fine :=
    if MSECS_MAX_CLK_ERR <? msecClkErr then FAST_TIMER_INTERVAL
    else if msecClkErr <? - MSECS_MAX_CLK_ERR then SLOW_TIMER_INTERVAL
    else NORMAL_TIMER_INTERVAL in
  if larger_skew then
    if MSECS_EXTRA_MAX_CLK_ERR <? msecClkErr then FASTER_TIMER_INTERVAL
    else if msecClkErr <? - MSECS_EXTRA_MAX_CLK_ERR then SLOWER_TIMER_INTERVAL
    else fine
  else fine.

Definition msecClkErr (now : Z) : Z := Z.rem (now + 500) 1000 - 500.

Definition calibrateTimer (now : Z) : M unit :=
  enter RcalibrateTimer ;;
  let new := newTimerInterval USE_LARGER_CLOCK_SKEW (msecClkErr now) in
  current ← gets currentTimerInterval;
  if negb (current =? new) then
    old ← gets interval_active;
    timer_call (ClearInterval old) ;;
    timer_call (SetInterval new) ;;
    modify (set_interval_active (Some new)) ;;
    modify (set_currentTimerInterval new)
  else ret tt.

(** [leaders[player.diff_lvl].push(...)] and
    [round_results[player.diff_lvl].push(...)]: a TypeError when the array
    has no element for that level. *)
Fixpoint push_entries (refs : list nat) (board : gmap Z (list entry))
  : M (gmap Z (list entry)) :=
  match refs with
  | [] => ret board
  | q :: refs' =>
      p ← deref q;
      match board !! diff_lvl p with
      | Some l => push_entries refs' (<[diff_lvl p := l ++ [entry_of p]]> board)
      | None => throw TypeError
      end
  end.

(** The array that holds an empty list for every room. *)
Definition empty_board (board : gmap Z (list entry)) : gmap Z (list entry) :=
  foldl (fun b room => <[room := []]> b) board rooms.

Definition lobbyTick : M unit :=
  enter RlobbyTick ;;
  forM rooms (fun room =>
    n ← gets (room_count room);
    if negb (n =? 0) then
      secs ← gets secsRemaining;
      send (ToRoom (room_name room)) "lobby_timer_update" (PSecs secs)
    else ret tt).

Definition createRoundResults : M unit :=
  enter RcreateRoundResults ;;
  modify (fun w => set_round_results (empty_board (round_results w)) w) ;;
  refs ← gets registered;
  board ← gets round_results;
  board' ← push_entries refs board;
  modify (set_round_results board').

(** [Array.prototype.sort] with the comparator
    [function(a,b) { return b.points - a.points; }].  On an array of two
    elements or more the runtime calls the comparator, on every element at
    least once, and the subtraction throws a TypeError on points with no
    primitive value; an array of one element or none is left alone. *)
Definition sort_throws (l : list entry) : bool :=
  (2 <=? length l)%nat && existsb (fun e => uncoercible e.2) l.

Section Timer.

(** The order the sort leaves is the runtime's business (equal or
    non-numeric points), so it is a parameter of the routines that sort.
    The runtime sorts a copy and writes it back when it is done: a sort
    that throws leaves the array as it was. *)
Variable array_sort : list entry -> list entry.

Definition sort_by_points (l : list entry) : M (list entry) :=
  if sort_throws l then throw TypeError else ret (array_sort l).

Definition playTick : M unit :=
  enter RplayTick ;;
  refs ← gets registered;
  leaders ← push_entries refs (empty_board ∅);
  forM rooms (fun room =>
    n ← gets (room_count room);
    if negb (n =? 0) then
      sorted ← sort_by_points (default [] (leaders !! room));
      secs ← gets secsRemaining;
      send (ToRoom (room_name room)) "play_timer_update"
        (PPlayTick (secs - SECS_IN_LOBBY) sorted)
    else ret tt).

Definition broadcastRoundResults : M unit :=
  enter RbroadcastRoundResults ;;
  forM rooms (fun room =>
    n ← gets (room_count room);
    results ← gets (fun w => round_results w !! room);
    if negb (n =? 0) then
      match results with
      | None => throw TypeError
      | Some l =>
          if negb (length l =? 0)%nat then
            sorted ← sort_by_points l;
            modify (fun w =>
              set_round_results (<[room := sorted]> (round_results w)) w) ;;
            send (ToRoom (room_name room)) "room_round_results"
              (PResults sorted)
          else ret tt
      end
    else ret tt).

Definition firstPlayTick : M unit :=
  enter RfirstPlayTick ;;
  refs ← gets registered;
  forM refs (fun q =>
    update q (set_points (JNum 0)) ;;
    update q (set_incomplete_round false)) ;;
  modify (set_round_in_progress true) ;;
  send ToAll "round_started" (PSecs (SECS_IN_COMPLETE_CYCLE - SECS_IN_LOBBY)) ;;
  playTick.

Definition firstLobbyTick : M unit :=
  enter RfirstLobbyTick ;;
  modify (set_round_in_progress false) ;;
  send ToAll "round_ended" (PSecs SECS_IN_LOBBY) ;;
  createRoundResults ;;
  broadcastRoundResults ;;
  lobbyTick.

Definition firstTick : M unit :=
  enter RfirstTick ;;
  secs ← gets secsRemaining;
  (if secs =? 0 then modify (set_secsRemaining SECS_IN_COMPLETE_CYCLE)
   else ret tt) ;;
  secs ← gets secsRemaining;
  (if secs <=? SECS_IN_LOBBY then firstLobbyTick else firstPlayTick) ;;
  modify (fun w => set_secsRemaining (secsRemaining w - 1) w).

(** One firing of the recurring timer.  [now_adjust] is the clock as
    [adjustLobbySecs] reads it, [now_calibrate] as [calibrateTimer] does. *)
Definition timerTick (now_adjust now_calibrate : Z) : M unit :=
  enter RtimerTick ;;
  secs ← gets secsRemaining;
  (if secs >=? SECS_IN_LOBBY then
     playTick ;;
     secs ← gets secsRemaining;
     if secs =? SECS_IN_LOBBY then firstLobbyTick else ret tt
   else if secs =? SECS_IN_LOBBY - 1 then
     adjustLobbySecs now_adjust ;;
     lobbyTick
   else
     lobbyTick ;;
     secs ← gets secsRemaining;
     if secs =? 0 then
       modify (set_secsRemaining SECS_IN_COMPLETE_CYCLE) ;;
       firstPlayTick
     else ret tt) ;;
  secs ← gets secsRemaining;
  (if Z.rem secs SECS_PER_CALIBRATION =? 0 then calibrateTimer now_calibrate
   else ret tt) ;;
  modify (fun w => set_secsRemaining (secsRemaining w - 1) w).

(** The routine the one-shot timer runs: the first tick, then the
    recurring timer. *)
Definition oneShot : M unit :=
  modify (set_timeout_pending None) ;;
  firstTick ;;
  timer_call (SetInterval NORMAL_TIMER_INTERVAL) ;;
  modify (set_interval_active (Some NORMAL_TIMER_INTERVAL)).

Definition delayStart (delay : Z) : M unit :=
  timer_call (SetTimeout delay) ;;
  modify (set_timeout_pending (Some delay)).

Definition start (now : Z) : M unit :=
  let msecsRemaining := msecUntilNextGame now in
  modify (set_secsRemaining (Z.quot msecsRemaining 1000)) ;;
  let msecsRemaining := Z.rem msecsRemaining 1000 in
  delayStart (msecsRemaining + initMSecOffset) ;;
  modify (set_currentTimerInterval NORMAL_TIMER_INTERVAL).

(** ** The server as a transition system *)

Inductive input :=
| ClientReady (request : request)
| ChangeRoom (request : request)
| Disconnect (request : request)
| PlayerScored (request : request)
| RequestFinalScore (request : request)
| OneShotFires
| IntervalFires (now_adjust now_calibrate : Z).

(** A timer fires only while it is set. *)
Definition handle (i : input) : M unit :=
  match i with
  | ClientReady request => client_ready request
  | ChangeRoom request => change_room request
  | Disconnect request => disconnect request
  | PlayerScored request => player_scored request
  | RequestFinalScore request => request_final_score request
  | OneShotFires =>
      pending ← gets timeout_pending;
      if pending is Some _ then oneShot else ret tt
  | IntervalFires now_adjust now_calibrate =>
      active ← gets interval_active;
      if active is Some _ then timerTick now_adjust now_calibrate else ret tt
  end.

Definition step (i : input) (w : world) : world := world_of (handle i w).

(** The states the server can be in when every input satisfies [ok]:
    app.js starts the timer on the initial state, then inputs arrive one at
    a time. *)
Inductive reachable_by (ok : input -> Prop) : world -> Prop :=
| reachable_start now : reachable_by ok (world_of (start now init_world))
| reachable_step i w :
    ok i -> reachable_by ok w -> reachable_by ok (step i w).

Definition reachable : world -> Prop := reachable_by (fun _ => True).

Definition run (inputs : list input) (w : world) : world :=
  foldl (fun w i => step i w) w inputs.

End Timer.

(** A sort for worked examples: it finds its input already in order. *)
Definition keep_order (l : list entry) : list entry := l.

(** ** The start of the clock, as the specification words it

    [spec_next_cycle] rounds [now] up to a multiple of the cycle,
    [spec_delay] and [spec_secs_remaining] are the delay of the one-shot and
    the initial count the specification derives from it. *)

Definition spec_next_cycle (now : Z) : Z :=
  - ((- now) / (SECS_IN_COMPLETE_CYCLE * 1000)) * (SECS_IN_COMPLETE_CYCLE * 1000).

Definition spec_delay (now : Z) : Z :=
  spec_next_cycle now - now + initMSecOffset.

Definition spec_secs_remaining (now : Z) : Z :=
  (spec_next_cycle now - now) / 1000.

(** The end of the running cycle as timer.js computes it: the multiple of
    the cycle strictly after [now]. *)
Definition next_cycle (now : Z) : Z :=
  (now / (SECS_IN_COMPLETE_CYCLE * 1000) + 1) * (SECS_IN_COMPLETE_CYCLE * 1000).

(** ** Assertions about computations

    [wp m Q E w]: run from [w], [m] either returns a value and a state that
    satisfy [Q] or throws in a state that satisfies [E]. *)

Definition wp {A} (m : M A) (Q : A -> world -> Prop) (E : world -> Prop)
  (w : world) : Prop :=
  match m w with
  | Ret a w' => Q a w'
  | Throw _ w' => E w'
  end.

(** A room id the validation lets through. *)
Definition level_ok (l : Z) : Prop :=
  MIN_ROOM_NUM <= l < MIN_ROOM_NUM + NUM_ROOMS.

(** Every reference held by the registry points into the heap. *)
Definition refs_ok (w : world) : Prop :=
  Forall (fun r => (r < length (heap w))%nat) (registered w).

(** [P] holds of every player object, and the registry is sound. *)
Definition inv (P : player -> Prop) (w : world) : Prop :=
  Forall P (heap w) /\ refs_ok w.

(** The part of the state that belongs to the clock. *)
Definition clock_view (w : world)
  : Z * Z * option Z * list timer_op * list routine :=
  (secsRemaining w, currentTimerInterval w, interval_active w, timer_log w,
   calls w).

(** [round_results] has an element for every room. *)
Definition results_ready (w : world) : Prop :=
  forall l, level_ok l -> is_Some (round_results w !! l).

(** ** What one firing of a timer does to the clock

    [secs_after_adjust] is the count [adjustLobbySecs] leaves, [tick_secs]
    the count [timerTick] leaves, [tick_trace] the routines [timerTick]
    enters, and [tick_interval] the interval [calibrateTimer] settles on,
    each as a function of the state at entry and of the clock readings. *)

Definition secs_after_adjust (now secs : Z) : Z :=
  let actual := Z.quot (msecUntilNextGame now + 500) 1000 in
  if negb (actual =? secs)
  then Z.max (secs - SECS_MAX_SKIP_FWD) (Z.min SECS_IN_LOBBY actual)
  else secs.

Definition tick_secs (now_adjust secs : Z) : Z :=
  (if secs >=? SECS_IN_LOBBY then secs
   else if secs =? SECS_IN_LOBBY - 1 then secs_after_adjust now_adjust secs
   else if secs =? 0 then SECS_IN_COMPLETE_CYCLE
   else secs) - 1.

Definition tick_trace (secs : Z) : list routine :=
  RtimerTick ::
  (if secs >=? SECS_IN_LOBBY then
     RplayTick ::
     (if secs =? SECS_IN_LOBBY
      then [RfirstLobbyTick; RcreateRoundResults; RbroadcastRoundResults; RlobbyTick]
      else [])
   else if secs =? SECS_IN_LOBBY - 1 then [RadjustLobbySecs; RlobbyTick]
   else RlobbyTick :: (if secs =? 0 then [RfirstPlayTick; RplayTick] else []))
  ++ [RcalibrateTimer].

Definition tick_interval (now : Z) : Z :=
  newTimerInterval USE_LARGER_CLOCK_SKEW (msecClkErr now).

(** The timer calls [calibrateTimer] makes when the interval in force is
    [current] and the recurring timer in place is [active]. *)
Definition calibrate_ops (now current : Z) (active : option Z) : list timer_op :=
  if current =? tick_interval now then []
  else [ClearInterval active; SetInterval (tick_interval now)].

(** The routines the one-shot's [firstTick] enters, and the count it leaves. *)
Definition first_tick_secs (secs : Z) : Z :=
  (if secs =? 0 then SECS_IN_COMPLETE_CYCLE else secs) - 1.

Definition first_tick_trace (secs : Z) : list routine :=
  RfirstTick ::
  (if (if secs =? 0 then SECS_IN_COMPLETE_CYCLE else secs) <=? SECS_IN_LOBBY
   then [RfirstLobbyTick; RcreateRoundResults; RbroadcastRoundResults; RlobbyTick]
   else [RfirstPlayTick; RplayTick]).

(** The state the routes of route.js never write: the clock, the pending
    one-shot, the round phase and the last results. *)
Definition timer_state (w : world) :=
  (clock_view w, timeout_pending w, round_in_progress w, round_results w).

(** A player object as the validation and the score updates leave it: its
    points are neither undefined nor null and its level is a room id. *)
Definition wf_player (p : player) : Prop :=
  nullish (points p) = false /\ level_ok (diff_lvl p).

Definition nonneg_int (v : jsval) : Prop := exists z, v = JNum z /\ 0 <= z.

(** Inputs whose [player_scored] requests, when they carry points at all,
    carry a non-negative integer. *)
Definition scores_nonneg (i : input) : Prop :=
  match i with
  | PlayerScored request =>
      nullish (get_prop (data request) "points") = false ->
      nonneg_int (get_prop (data request) "points")
  | _ => True
  end.

(** Inputs whose [player_scored] requests, when they carry points at all,
    carry a value of [S]. *)
Definition scores_in (S : jsval -> Prop) (i : input) : Prop :=
  match i with
  | PlayerScored request =>
      nullish (get_prop (data request) "points") = false ->
      S (get_prop (data request) "points")
  | _ => True
  end.

(** Inputs whose [player_scored] requests carry points that have a
    primitive value. *)
Definition scores_coercible : input -> Prop :=
  scores_in (fun v => uncoercible v = false).

(** The routines one firing of the recurring timer enters, read off the
    record of calls. *)
Definition calls_of_tick (array_sort : list entry -> list entry)
  (now_adjust now_calibrate : Z) (w : world) : list routine :=
  drop (length (calls w))
    (calls (world_of (timerTick array_sort now_adjust now_calibrate w))).

Definition is_timer (i : input) : Prop :=
  match i with
  | OneShotFires | IntervalFires _ _ => True
  | _ => False
  end.

(** The seconds an input takes off [secsRemaining] beyond the one second a
    tick counts down. *)
Definition dropped_by (array_sort : list entry -> list entry) (i : input)
  (w : world) : Z :=
  Z.max 0 (secsRemaining w - 1 - secsRemaining (step array_sort i w)).

Fixpoint dropped (array_sort : list entry -> list entry) (inputs : list input)
  (w : world) : Z :=
  match inputs with
  | [] => 0
  | i :: inputs' =>
      dropped_by array_sort i w + dropped array_sort inputs' (step array_sort i w)
  end.

(** The inputs stay within one cycle: no timer fires with [secsRemaining]
    at 0, which is where the next cycle begins. *)
Fixpoint same_cycle (array_sort : list entry -> list entry) (inputs : list input)
  (w : world) : Prop :=
  match inputs with
  | [] => True
  | i :: inputs' =>
      (is_timer i -> secsRemaining w <> 0)
      /\ same_cycle array_sort inputs' (step array_sort i w)
  end.

Definition routine_eq_dec (a b : routine) : {a = b} + {a <> b}.
Proof. decide equality. Defined.

(** How many times [adjustLobbySecs] was entered so far. *)
Definition adjust_runs (w : world) : nat :=
  count_occ routine_eq_dec (calls w) RadjustLobbySecs.

(** The player object registered for a session, if any. *)
Definition player_of (sid : string) (w : world) : option player :=
  match registry_get sid w with
  | Some r => heap w !! r
  | None => None
  end.

(** ** Requests for worked examples *)

(** [{profile: {player_tag: tag, difficulty_level: lvl}}] *)
Definition profile_data (tag lvl : jsval) : jsval :=
  JObj [("profile"%string,
         JObj [("player_tag"%string, tag); ("difficulty_level"%string, lvl)])].

(** [{points: v}] *)
Definition points_data (v : jsval) : jsval := JObj [("points"%string, v)].

(** A request of session [sid] that arrives on socket [s], whose session
    object is the one of that socket. *)
Definition on_socket (s : nat) (sid : string) (d : jsval) : request :=
  mkRequest s (Some s) sid d.

(** A server started 30.5 s before the end of a cycle: the first tick
    enters Lobby.  Alice then joins room 2. *)
Definition lobby_world : world :=
  run keep_order
    [OneShotFires;
     ClientReady (on_socket 1 "A" (profile_data (JStr "Alice") (JStr "2")))]
    (world_of (start 149500 init_world)).

(** A server started on a cycle boundary: the first tick enters Play.
    Alice joins room 2 and reports [v] points. *)
Definition play_world (v : jsval) : world :=
  run keep_order
    [OneShotFires;
     ClientReady (on_socket 1 "A" (profile_data (JStr "Alice") (JStr "2")));
     PlayerScored (on_socket 1 "A" (points_data v))]
    (world_of (start 0 init_world)).


(** [error_client_ready] as [determineDifficultyLevel] sends it. *)
Definition error_client_ready (request : request) (error_str : string)
  (user_input : jsval) : msg :=
  mkMsg (ToSocket (sock request)) "error_client_ready"
    (PErr error_str (Some user_input)).

(** The state after [m] was sent: nothing but the outbox differs. *)
Definition sent (m : msg) (w : world) : world := set_outbox (outbox w ++ [m]) w.

(** [w'] differs from [w] in the outbox at most. *)
Definition outbox_only (w w' : world) : Prop := exists out, w' = set_outbox out w.

(** The tags [determineTag] can work on: a string, or none. *)
Definition tag_ok (request : request) : Prop :=
  match get_prop (get_prop (data request) "profile") "player_tag" with
  | JUndefined | JNull | JStr _ => True
  | _ => False
  end.

(** Alice in room 0 on socket 1 and Bob in room 1 on socket 2, during Play;
    Bob joined last, so the global [player] is Bob's object. *)
Definition two_rooms_world : world :=
  run keep_order
    [OneShotFires;
     ClientReady (on_socket 1 "A" (profile_data (JStr "Alice") (JStr "0")));
     ClientReady (on_socket 2 "B" (profile_data (JStr "Bob") (JStr "1")))]
    (world_of (start 0 init_world)).

(** The state in which [client_ready] has created and attached a player:
    [tag] and [l] are the tag and level it determined, [k] the session
    object of the request and [n] the guest counter after [determineTag]. *)
Definition registering (request : request) (tag : string) (l : Z) (k : nat)
  (n : Z) (w : world) : world :=
  let r := length (heap w) in
  set_joined ({[ (sock request, l) ]} ∪ joined w)
    (set_roomCount (alter Z.succ l (roomCount w))
       (set_sessions (<[k := SRef r]> (sessions w))
          (set_all_players_list
             (assoc_set (sessionID request) (Some r) (all_players_list w))
             (set_player_global (Some (SRef r))
                (set_heap
                   (heap w ++ [mkPlayer tag (JNum 0) l (round_in_progress w) 1])
                   (set_num_guests n w)))))).

Definition created (request : request) (w w1 : world) : Prop :=
  exists tag l k n,
    determineDifficultyLevel request w = Ret l w
    /\ level_ok l
    /\ session request = Some k
    /\ outbox_only (registering request tag l k n w) w1.

(** The reference count of the player object at [p], if there is one. *)
Definition ref_count_at (p : nat) (w : world) : option Z :=
  ref_count <$> heap w !! p.

(** The session object of the request holds the player object at [p]. *)
Definition bound (request : request) (p : nat) (w : world) : Prop :=
  exists k, session request = Some k /\ sessions w !! k = Some (SRef p).

(** [session_run sid p last w w']: from [w], requests of session [sid],
    whose player object is at [p], lead to [w']: further [client_ready]s
    and [disconnect]s that return, up to the [disconnect], arriving on
    socket [last], that leaves the reference count of [p] at zero. *)
Inductive session_run (sid : string) (p : nat) (last : nat)
  : world -> world -> Prop :=
| run_last request w w' :
    sessionID request = sid -> bound request p w -> sock request = last ->
    disconnect request w = Ret tt w' ->
    ref_count_at p w' = Some 0 ->
    session_run sid p last w w'
| run_detach request w w1 w' :
    sessionID request = sid -> bound request p w ->
    disconnect request w = Ret tt w1 ->
    ref_count_at p w1 <> Some 0 ->
    session_run sid p last w1 w' ->
    session_run sid p last w w'
| run_attach request w w1 w' :
    sessionID request = sid ->
    client_ready request w = Ret tt w1 ->
    session_run sid p last w1 w' ->
    session_run sid p last w w'.

(** A server whose first tick entered Lobby, with nobody connected. *)
Definition empty_lobby_world : world :=
  step keep_order OneShotFires (world_of (start 149500 init_world)).

(** Between the attach and the last detach: the player object at [p] is in
    room [l], and registry, counts and membership are those of the state
    [w] before the attach with the session registered, the count of [l]
    raised and socket [sock0] joined to [l]. *)
Definition attached (sid : string) (sock0 : nat) (l : Z) (p : nat)
  (w W : world) : Prop :=
  (exists pl, heap W !! p = Some pl /\ diff_lvl pl = l)
  /\ all_players_list W = assoc_set sid (Some p) (all_players_list w)
  /\ roomCount W = alter Z.succ l (roomCount w)
  /\ joined W = {[ (sock0, l) ]} ∪ joined w.

(** After the last detach, which arrived on socket [last]. *)
Definition detached (sid : string) (sock0 : nat) (l : Z) (last : nat)
  (w W : world) : Prop :=
  all_players_list W = assoc_set sid None (all_players_list w)
  /\ roomCount W = roomCount w
  /\ joined W = ({[ (sock0, l) ]} ∪ joined w) ∖ {[ (last, l) ]}.

(** ** The registry and the rooms, as the loops of the server read them *)

(** The player objects of the registry, in the order [for .. in] visits
    them. *)
Definition players (w : world) : list player :=
  omap (fun r => heap w !! r) (registered w).

(** The scoreboard lines of the registered players of one room, in that
    order. *)
Definition room_entries (room : Z) (w : world) : list entry :=
  entry_of <$> filter (fun p => diff_lvl p = room) (players w).

(** The rooms for which [roomCount[room]] is truthy, in increasing order. *)
Definition occupied (w : world) : list Z :=
  filter (fun room => room_count room w <> 0) rooms.

(** A board after the players [ps] were pushed, each to the list of its
    level. *)
Definition fill_board (board : gmap Z (list entry)) (ps : list player)
  : gmap Z (list entry) :=
  foldl (fun b p => alter (fun l => l ++ [entry_of p]) (diff_lvl p) b) board ps.

(** [round_results[room]], with no element read as the empty list. *)
Definition results_of (room : Z) (w : world) : list entry :=
  default [] (round_results w !! room).

(** The rooms [broadcastRoundResults] sends results to: occupied, and with
    results to send. *)
Definition with_results (w : world) : list Z :=
  filter (fun room => results_of room w <> []) (occupied w).

(** [round_results] after the lists of the rooms [l] were sorted, in
    place. *)
Definition sorted_over (array_sort : list entry -> list entry) (w : world)
  (l : list Z) : gmap Z (list entry) :=
  foldl (fun rr room => <[room := array_sort (results_of room w)]> rr)
    (round_results w) l.

(** [round_results] after [broadcastRoundResults] sorted the lists it
    sent. *)
Definition sorted_results (array_sort : list entry -> list entry) (w : world)
  : gmap Z (list entry) :=
  sorted_over array_sort w (with_results w).

(** The state in which the round is over and its results are recorded. *)
Definition round_over (w : world) : world :=
  set_round_results (fill_board (empty_board (round_results w)) (players w))
    (set_round_in_progress false w).

(** The player object as [firstPlayTick] leaves it. *)
Definition fresh_round (p : player) : player :=
  set_incomplete_round false (set_points (JNum 0) p).

(** The heap after [firstPlayTick] went through the objects at [refs]. *)
Definition reset_scores (refs : list nat) (h : list player) : list player :=
  foldl (fun h q => alter fresh_round q h) h refs.

(** The state in which a round has begun: scores are reset. *)
Definition round_begun (w : world) : world :=
  set_round_in_progress true
    (set_heap (reset_scores (registered w) (heap w)) w).

(** ** The messages of the timer *)

Definition lobby_timer_update (secs room : Z) : msg :=
  mkMsg (ToRoom (room_name room)) "lobby_timer_update" (PSecs secs).

Definition play_timer_update (array_sort : list entry -> list entry)
  (w : world) (room : Z) : msg :=
  mkMsg (ToRoom (room_name room)) "play_timer_update"
    (PPlayTick (secsRemaining w - SECS_IN_LOBBY)
       (array_sort (room_entries room w))).

Definition room_round_results (array_sort : list entry -> list entry)
  (w : world) (room : Z) : msg :=
  mkMsg (ToRoom (room_name room)) "room_round_results"
    (PResults (array_sort (results_of room w))).

Definition round_started : payload := PSecs (SECS_IN_COMPLETE_CYCLE - SECS_IN_LOBBY).

Definition round_ended : payload := PSecs SECS_IN_LOBBY.

(** A reference is usable: it points to a player object whose level is a
    room id. *)
Definition usable (w : world) (r : nat) : Prop :=
  exists p, heap w !! r = Some p /\ level_ok (diff_lvl p).

(** ** One firing of the recurring timer, in full

    What [timerTick] leaves in the heap, in [round_in_progress] and in
    [round_results], and what it sends, each as a function of the state
    at entry. *)

Definition tick_heap (w : world) : list player :=
  if secsRemaining w =? 0 then reset_scores (registered w) (heap w) else heap w.

Definition tick_phase (w : world) : bool :=
  if secsRemaining w =? SECS_IN_LOBBY then false
  else if secsRemaining w =? 0 then true
  else round_in_progress w.

Definition tick_results (array_sort : list entry -> list entry) (w : world)
  : gmap Z (list entry) :=
  if secsRemaining w =? SECS_IN_LOBBY then sorted_results array_sort (round_over w)
  else round_results w.

Definition tick_messages (array_sort : list entry -> list entry)
  (now_adjust : Z) (w : world) : list msg :=
  let secs := secsRemaining w in
  if secs >=? SECS_IN_LOBBY then
    (play_timer_update array_sort w <$> occupied w) ++
    (if secs =? SECS_IN_LOBBY then
       mkMsg ToAll "round_ended" round_ended ::
       (room_round_results array_sort (round_over w) <$> with_results (round_over w))
       ++ (lobby_timer_update secs <$> occupied w)
     else [])
  else if secs =? SECS_IN_LOBBY - 1 then
    lobby_timer_update (secs_after_adjust now_adjust secs) <$> occupied w
  else
    (lobby_timer_update secs <$> occupied w) ++
    (if secs =? 0 then
       mkMsg ToAll "round_started" round_started ::
       (play_timer_update array_sort
          (set_secsRemaining SECS_IN_COMPLETE_CYCLE (round_begun w))
          <$> occupied w)
     else []).

(** The state one firing of the recurring timer leaves. *)
Definition ticked (array_sort : list entry -> list entry)
  (now_adjust now_calibrate : Z) (w : world) : world :=
  {| secsRemaining := tick_secs now_adjust (secsRemaining w);
     currentTimerInterval := tick_interval now_calibrate;
     timeout_pending := timeout_pending w;
     interval_active :=
       (if currentTimerInterval w =? tick_interval now_calibrate
        then interval_active w else Some (tick_interval now_calibrate));
     roomCount := roomCount w;
     all_players_list := all_players_list w;
     round_in_progress := tick_phase w;
     round_results := tick_results array_sort w;
     num_guests := num_guests w;
     player_global := player_global w;
     heap := tick_heap w;
     sessions := sessions w;
     joined := joined w;
     outbox := outbox w ++ tick_messages array_sort now_adjust w;
     timer_log :=
       timer_log w ++
       calibrate_ops now_calibrate (currentTimerInterval w) (interval_active w);
     calls := calls w ++ tick_trace (secsRemaining w) |}.

(** ** The one-shot, in full *)

(** The count the first tick works with: a count of 0 stands for a full
    cycle. *)
Definition first_secs (w : world) : Z :=
  if secsRemaining w =? 0 then SECS_IN_COMPLETE_CYCLE else secsRemaining w.

(** The first tick enters Lobby. *)
Definition first_in_lobby (w : world) : bool := first_secs w <=? SECS_IN_LOBBY.

Definition first_messages (array_sort : list entry -> list entry) (w : world)
  : list msg :=
  if first_in_lobby w then
    mkMsg ToAll "round_ended" round_ended ::
    (room_round_results array_sort (round_over w) <$> with_results (round_over w))
    ++ (lobby_timer_update (first_secs w) <$> occupied w)
  else
    mkMsg ToAll "round_started" round_started ::
    (play_timer_update array_sort
       (set_secsRemaining (first_secs w) (round_begun w)) <$> occupied w).

(** The state the one-shot leaves when it fires. *)
Definition one_shot_fired (array_sort : list entry -> list entry) (w : world)
  : world :=
  {| secsRemaining := first_tick_secs (secsRemaining w);
     currentTimerInterval := currentTimerInterval w;
     timeout_pending := None;
     interval_active := Some NORMAL_TIMER_INTERVAL;
     roomCount := roomCount w;
     all_players_list := all_players_list w;
     round_in_progress := negb (first_in_lobby w);
     round_results :=
       (if first_in_lobby w then sorted_results array_sort (round_over w)
        else round_results w);
     num_guests := num_guests w;
     player_global := player_global w;
     heap :=
       (if first_in_lobby w then heap w
        else reset_scores (registered w) (heap w));
     sessions := sessions w;
     joined := joined w;
     outbox := outbox w ++ first_messages array_sort w;
     timer_log := timer_log w ++ [SetInterval NORMAL_TIMER_INTERVAL];
     calls := calls w ++ first_tick_trace (secsRemaining w) |}.

(** ** The clock between two inputs

    While the one-shot is pending no recurring timer is set, the round has
    not begun, no results exist and every player has 0 points.  Once it
    has fired the recurring timer runs at the interval recorded in
    [currentTimerInterval], which is one of the three intervals of the
    fine calibration; the round is in progress exactly while at least
    [SECS_IN_LOBBY] seconds remain, and out of a round the results of
    every room exist. *)
Definition clock_ok (w : world) : Prop :=
  match timeout_pending w with
  | Some delay =>
      interval_active w = None
      /\ currentTimerInterval w = NORMAL_TIMER_INTERVAL
      /\ 0 <= secsRemaining w <= SECS_IN_COMPLETE_CYCLE
      /\ round_in_progress w = false
      /\ round_results w = ∅
      /\ initMSecOffset <= delay < 1000 + initMSecOffset
      /\ Forall (fun p => points p = JNum 0) (heap w)
  | None =>
      interval_active w = Some (currentTimerInterval w)
      /\ currentTimerInterval w ∈
           [FAST_TIMER_INTERVAL; NORMAL_TIMER_INTERVAL; SLOW_TIMER_INTERVAL]
      /\ 0 <= secsRemaining w < SECS_IN_COMPLETE_CYCLE
      /\ round_in_progress w = (SECS_IN_LOBBY <=? secsRemaining w)
      /\ (round_in_progress w = false -> results_ready w)
  end.

(** ** Occupancy of the rooms *)

(** The player object at [r] is in room [l]. *)
Definition in_room (l : Z) (w : world) (r : nat) : Prop :=
  diff_lvl <$> heap w !! r = Some l.

#[global] Instance in_room_dec l w r : Decision (in_room l w r) :=
  decide (diff_lvl <$> heap w !! r = Some l).

(** How many registered players are in room [l]. *)
Definition head_count (l : Z) (w : world) : Z :=
  Z.of_nat (length (filter (in_room l w) (registered w))).

(** [roomCount] holds, for every room, the number of registered players in
    it. *)
Definition occupancy_ok (w : world) : Prop :=
  forall l, level_ok l -> roomCount w !! l = Some (head_count l w).

(** The session object of the request holds no player object but the one
    registered under the session id of the request. *)
Definition session_sound (request : request) (w : world) : Prop :=
  forall k r,
    session request = Some k -> sessions w !! k = Some (SRef r) ->
    registry_get (sessionID request) w = Some r.

(** What the transport guarantees of an input: a [client_ready] comes with
    a session object, and a [change_room] or a [disconnect] with a session
    object that is sound. *)
Definition sound (i : input) (w : world) : Prop :=
  match i with
  | ClientReady request => is_Some (session request)
  | ChangeRoom request | Disconnect request => session_sound request w
  | _ => True
  end.

Fixpoint sound_run (array_sort : list entry -> list entry) (inputs : list input)
  (w : world) : Prop :=
  match inputs with
  | [] => True
  | i :: inputs' =>
      sound i w /\ sound_run array_sort inputs' (step array_sort i w)
  end.

(** No player object is registered twice, and the registry holds no
    dangling reference. *)
Definition registry_ok (w : world) : Prop :=
  NoDup (registered w) /\ refs_ok w.

(** ** What the workers of route.js leave *)

(** The state [attachPlayerToRoom] leaves for the player object [p]. *)
Definition entered_room (request : request) (p : player) (w : world) : world :=
  sent (mkMsg (ToRoomExcept (room_name (diff_lvl p)) (sock request))
          "gamer_entered_room" (PEntry (entry_of p)))
    (set_joined ({[ (sock request, diff_lvl p) ]} ∪ joined w)
       (set_roomCount (alter Z.succ (diff_lvl p) (roomCount w)) w)).

(** The state [detachPlayerFromRoom] leaves when the session holds the
    player object [p]: the room hears of the exit when its count stays
    above 0. *)
Definition left_room (request : request) (p : player) (w : world) : world :=
  let W :=
    set_joined (joined w ∖ {[ (sock request, diff_lvl p) ]})
      (set_roomCount (alter Z.pred (diff_lvl p) (roomCount w)) w) in
  if 0 <? room_count (diff_lvl p) W then
    sent (mkMsg (ToRoomExcept (room_name (diff_lvl p)) (sock request))
            "gamer_exited_room" (PTag (player_tag p))) W
  else W.

(** The state a [disconnect] leaves when it takes the last reference to the
    player object [p], held at [r] by the session object [k]. *)
Definition disconnected (request : request) (k r : nat) (p : player) (w : world)
  : world :=
  let p' := set_ref_count (ref_count p - 1) p in
  let W := left_room request p' (set_heap (<[r := p']> (heap w)) w) in
  set_sessions (<[k := SNull]> (sessions W))
    (set_all_players_list
       (assoc_set (sessionID request) None (all_players_list W)) W).

(** The state a [change_room] to level [l] leaves before it sends the
    list of players and the round event: the player object [p], held at
    [r] by the session of the request, has left its room and entered [l]. *)
Definition room_changed (request : request) (r : nat) (p : player) (l : Z)
  (w : world) : world :=
  let W := left_room request p (set_player_global (Some (SRef r)) w) in
  entered_room request (set_diff_lvl l p)
    (set_heap (<[r := set_diff_lvl l p]> (heap W)) W).

(** [gamers_already_in_room] as [emitPlayersAlreadyInRoom] sends it for
    level [l]. *)
Definition gamers_already_in_room (request : request) (l : Z) (w : world) : msg :=
  mkMsg (ToSocket (sock request)) "gamers_already_in_room"
    (PLeaders (room_entries l w)).

(** ** What the routes leave *)

(** The player object [client_ready] creates. *)
Definition new_player (tag : string) (l : Z) (w : world) : player :=
  mkPlayer tag (JNum 0) l (round_in_progress w) 1.

(** The state in which [client_ready] has registered and attached a new
    player and has sent the first three messages: the confirmation to the
    client, the arrival to the others in the room, and the list of the
    players of the room to the client. *)
Definition welcomed (request : request) (tag : string) (l : Z) (k : nat)
  (n : Z) (w : world) : world :=
  let W := registering request tag l k n w in
  set_outbox
    (outbox w ++
     [mkMsg (ToSocket (sock request)) "client_confirmed"
        (PPlayer (new_player tag l w));
      mkMsg (ToRoomExcept (room_name l) (sock request)) "gamer_entered_room"
        (PEntry (tag, JNum 0));
      gamers_already_in_room request l W]) W.

(** The state a [client_ready] leaves for a session that is registered
    already with the player object [p] at [r]. *)
Definition counted_again (k r : nat) (p : player) (w : world) : world :=
  set_heap (<[r := set_ref_count (ref_count p + 1) p]> (heap w))
    (set_sessions (<[k := SRef r]> (sessions w)) w).

(** The tag [determineTag] makes up for a guest. *)
Definition guest_name (n : Z) : string := "Guest " +:+ Z_to_string n.

(** How many of the inputs are firings of the recurring timer. *)
Fixpoint ticks (inputs : list input) : Z :=
  match inputs with
  | [] => 0
  | IntervalFires _ _ :: inputs' => 1 + ticks inputs'
  | _ :: inputs' => ticks inputs'
  end.

(** The messages [emitRoundEventAndResults] sends to the socket [io]: the
    round event, and out of a round the last results of the room when
    there are some. *)
Definition round_event (io : nat) (in_progress : bool) (room : Z) (w : world)
  : list msg :=
  if in_progress then [mkMsg (ToSocket io) "round_started" round_started]
  else
    mkMsg (ToSocket io) "round_ended" round_ended ::
    (if decide (results_of room w = []) then []
     else [mkMsg (ToSocket io) "room_round_results"
             (PResults (results_of room w))]).

(** Alice and Bob join rooms 0 and 1 during Play, Bob moves to room 2 and
    Alice leaves. *)
Definition busy_inputs : list input :=
  [OneShotFires;
   ClientReady (on_socket 1 "A" (profile_data (JStr "Alice") (JStr "0")));
   ClientReady (on_socket 2 "B" (profile_data (JStr "Bob") (JStr "1")));
   ChangeRoom (on_socket 2 "B" (profile_data (JStr "Bob") (JStr "2")));
   Disconnect (on_socket 1 "A" JUndefined)].

(** ** [stop] of timer.js

    [stop] hands the variables [timerTimeoutObj] and [timerIntervalObj] of
    the module to [clearTimeout] and [clearInterval].  No routine assigns
    them: [delayStart], [oneShot] and [calibrateTimer] keep the handles of
    the timers they set in properties of [context], the object [start] was
    called on.  Both variables hold [undefined] for the life of the
    module. *)
Inductive timer_handle := TimeoutObj | IntervalObj.

Definition timerTimeoutObj : option timer_handle := None.
Definition timerIntervalObj : option timer_handle := None.

(** [clearTimeout(h)] and [clearInterval(h)] cancel the timer [h] is the
    handle of; for [undefined] they do nothing. *)
Definition clearTimeout (h : option timer_handle) : M unit :=
  match h with
  | Some TimeoutObj => modify (set_timeout_pending None)
  | _ => ret tt
  end.

Definition clearInterval (h : option timer_handle) : M unit :=
  match h with
  | Some IntervalObj => modify (set_interval_active None)
  | _ => ret tt
  end.

Definition stop : M unit :=
  clearTimeout timerTimeoutObj ;;
  clearInterval timerIntervalObj ;;
  modify (set_currentTimerInterval TIMER_NOT_SET).

(** ** Tags *)

(** The last byte of [s] is a decimal digit. *)
Fixpoint ends_in_digit (s : string) : bool :=
  match s with
  | EmptyString => false
  | String c EmptyString =>
      ((48 <=? nat_of_ascii c) && (nat_of_ascii c <=? 57))%nat
  | String _ r => ends_in_digit r
  end.

(** ** The sort

    What the routines rely on the runtime for: the sorted array holds the
    elements it held, and in descending order of points when all points
    are numbers. *)

(** The Number [JNum z] stands for, with 2^1024 for Infinity: that is what
    a number is from 2^1024 on, and two of them compare as equal. *)
Definition Number_of (v : jsval) : Z :=
  match v with
  | JNum z => Z.sgn z * Z.min (nearest_double (Z.abs z)) (2 ^ 1024)
  | _ => 0
  end.

Definition by_points (a b : entry) : Prop := Number_of b.2 <= Number_of a.2.

#[global] Instance by_points_dec a b : Decision (by_points a b) :=
  decide (Number_of b.2 <= Number_of a.2).

Definition numeric (l : list entry) : Prop :=
  Forall (fun e => exists z, e.2 = JNum z) l.

Definition sorts (array_sort : list entry -> list entry) : Prop :=
  forall l,
    array_sort l ≡ₚ l
    /\ (numeric l -> StronglySorted by_points (array_sort l)).

(** A sort for the worked examples. *)
Definition sort_desc : list entry -> list entry := merge_sort by_points.

(** ** The order of [for .. in]

    [for .. in] visits the properties whose name is an array index, the
    canonical decimal of a number, before the others and in increasing
    order; the others it visits in the order of their creation.  The
    registry is kept in the order of creation, which is the order the
    loops of the server visit it in as long as no session id is such a
    decimal. *)
Definition is_digit (c : ascii) : bool :=
  ((48 <=? nat_of_ascii c) && (nat_of_ascii c <=? 57))%nat.

Fixpoint all_digits (s : string) : bool :=
  match s with
  | EmptyString => true
  | String c r => is_digit c && all_digits r
  end.

Definition index_like (s : string) : bool :=
  match s with
  | EmptyString => false
  | String c r =>
      all_digits s && (negb (nat_of_ascii c =? 48)%nat || String.eqb r EmptyString)
  end.

Definition plain_ids (w : world) : Prop :=
  forallb (fun e => negb (index_like e.1)) (all_players_list w) = true.

(** ** A tick whose sort throws *)

(** The rooms of [l] a loop serves before the sort of one throws: all of
    [l] when none does. *)
Fixpoint served (entries : Z -> list entry) (l : list Z) : list Z :=
  match l with
  | [] => []
  | room :: l' =>
      if sort_throws (entries room) then [] else room :: served entries l'
  end.

Definition all_sort (entries : Z -> list entry) (l : list Z) : bool :=
  forallb (fun room => negb (sort_throws (entries room))) l.

(** [playTick] gets through the occupied rooms. *)
Definition play_ok (w : world) : bool :=
  all_sort (fun room => room_entries room w) (occupied w).

(** The state [playTick] leaves, whether it returns or throws. *)
Definition play_ticked (array_sort : list entry -> list entry) (w : world)
  : world :=
  set_outbox
    (outbox w ++
     (play_timer_update array_sort w
        <$> served (fun room => room_entries room w) (occupied w)))
    (set_calls (calls w ++ [RplayTick]) w).

(** [broadcastRoundResults] gets through the rooms with results. *)
Definition results_ok (w : world) : bool :=
  all_sort (fun room => results_of room w) (with_results w).

(** The state [broadcastRoundResults] leaves, whether it returns or
    throws. *)
Definition results_sent (array_sort : list entry -> list entry) (w : world)
  : world :=
  let l := served (fun room => results_of room w) (with_results w) in
  set_outbox (outbox w ++ (room_round_results array_sort w <$> l))
    (set_round_results (sorted_over array_sort w l)
       (set_calls (calls w ++ [RbroadcastRoundResults]) w)).

(** How a routine ends: it returns when [ok] and throws a TypeError when
    not. *)
Definition finish (ok : bool) (w : world) : res unit :=
  if ok then Ret tt w else Throw TypeError w.

(** A firing of the recurring timer throws: it is a Play-tick and the
    sort of an occupied room throws. *)
Definition tick_throws (w : world) : bool :=
  (SECS_IN_LOBBY <=? secsRemaining w) && negb (play_ok w).

(** The state such a firing leaves: the Play-tick served the rooms before
    the one whose sort threw; the count is not taken down and the timer
    not calibrated. *)
Definition tick_aborted (array_sort : list entry -> list entry) (w : world)
  : world :=
  play_ticked array_sort (set_calls (calls w ++ [RtimerTick]) w).

(** The one-shot throws: its first tick enters Lobby and the sort of the
    results of a room throws. *)
Definition first_throws (w : world) : bool :=
  first_in_lobby w && negb (results_ok (round_over w)).

(** The state [firstLobbyTick] leaves when the sort of the results of a
    room throws: the round is over, its results are recorded, and the
    rooms before that one have theirs. *)
Definition lobby_aborted (array_sort : list entry -> list entry) (w : world)
  : world :=
  let l := served (fun room => results_of room (round_over w))
             (with_results (round_over w)) in
  set_outbox
    (outbox w ++
     mkMsg ToAll "round_ended" round_ended ::
     (room_round_results array_sort (round_over w) <$> l))
    (set_round_results (sorted_over array_sort (round_over w) l)
       (set_round_in_progress false
          (set_calls
             (calls w ++ [RfirstLobbyTick; RcreateRoundResults;
                          RbroadcastRoundResults]) w))).

(** The state such a one-shot leaves: no timer is set. *)
Definition one_shot_aborted (array_sort : list entry -> list entry)
  (w : world) : world :=
  lobby_aborted array_sort
    (set_calls (calls w ++ [RfirstTick]) (set_timeout_pending None w)).

(** * Properties of the clock start *)

Lemma msecUntilNextGame_next_cycle (now : Z) :
  msecUntilNextGame now = next_cycle now - now.
Proof.
  unfold msecUntilNextGame, next_cycle, MSECS_IN_COMPLETE_CYCLE. lia.
Qed.

Lemma msecUntilNextGame_bounds (now : Z) :
  0 < msecUntilNextGame now <= MSECS_IN_COMPLETE_CYCLE.
Proof.
  unfold msecUntilNextGame, MSECS_IN_COMPLETE_CYCLE, SECS_IN_COMPLETE_CYCLE.
  pose proof (Z.mod_pos_bound now (180 * 1000) ltac:(lia)) as Hb.
  pose proof (Z.div_mod now (180 * 1000) ltac:(lia)) as Hd.
  lia.
Qed.

(** Off a cycle boundary the two readings of "next cycle" agree. *)
Lemma next_cycle_spec (now : Z) :
  now mod (SECS_IN_COMPLETE_CYCLE * 1000) <> 0 ->
  next_cycle now = spec_next_cycle now.
Proof.
  unfold next_cycle, spec_next_cycle, SECS_IN_COMPLETE_CYCLE. intros Hm.
  rewrite Z.div_opp_l_nz by lia. lia.
Qed.

(** C1 (as stated) fails: started 1000 ms into a cycle, the one-shot is set
    to fire after -10 ms, at the next whole second, not after the 178990 ms
    that lead to the cycle boundary. *)
Lemma start_delay_counterexample :
  let w := world_of (start 1000 init_world) in
  ~ (timeout_pending w = Some (spec_delay 1000)
     /\ secsRemaining w = spec_secs_remaining 1000).
Proof.
  intros w [Hd _]. vm_compute in Hd. discriminate Hd.
Qed.

(** C1 (amended): [start] always returns; with [next_cycle] the multiple of
    the cycle strictly after [now], it asks for a one-shot after
    [(next_cycle - now) mod 1000 + initMSecOffset] msec, so the first tick
    lands on the next whole second, offset by -10 ms, and it leaves
    [(next_cycle - now) / 1000] whole seconds in [secsRemaining], a count
    between 0 and the cycle length. *)
Theorem start_first_tick_delay (now : Z) (w : world) :
  let delay := (next_cycle now - now) mod 1000 + initMSecOffset in
  let w' := world_of (start now w) in
  start now w = Ret tt w'
  /\ timeout_pending w' = Some delay
  /\ timer_log w' = timer_log w ++ [SetTimeout delay]
  /\ secsRemaining w' = (next_cycle now - now) / 1000
  /\ 0 <= secsRemaining w' <= SECS_IN_COMPLETE_CYCLE
  /\ currentTimerInterval w' = NORMAL_TIMER_INTERVAL.
Proof.
  pose proof (msecUntilNextGame_bounds now) as Hb.
  pose proof (msecUntilNextGame_next_cycle now) as He.
  cbv zeta. unfold start, delayStart, timer_call, bind, modify. simpl.
  rewrite Z.rem_mod_nonneg by lia.
  rewrite Z.quot_div_nonneg by lia.
  rewrite He in *.
  repeat split; try reflexivity.
  - apply Z.div_pos; lia.
  - unfold MSECS_IN_COMPLETE_CYCLE, SECS_IN_COMPLETE_CYCLE in *.
    apply Z.div_le_upper_bound; lia.
Qed.

(** * Rules of the assertion logic *)

Lemma wp_bind {A B} (m : M A) (f : A -> M B) Q E w :
  wp (bind m f) Q E w <-> wp m (fun a w' => wp (f a) Q E w') E w.
Proof. unfold wp, bind. destruct (m w); reflexivity. Qed.

Lemma wp_mono {A} (m : M A) (Q Q' : A -> world -> Prop) (E E' : world -> Prop) w :
  wp m Q E w -> (forall a w', Q a w' -> Q' a w') -> (forall w', E w' -> E' w') ->
  wp m Q' E' w.
Proof. unfold wp. destruct (m w); auto. Qed.

Lemma wp_world_of {A} (m : M A) (Q : world -> Prop) w :
  wp m (fun _ => Q) Q w <-> Q (world_of (m w)).
Proof. unfold wp, world_of. destruct (m w); reflexivity. Qed.

Lemma wp_forM {A} (I : world -> Prop) (l : list A) (body : A -> M unit) E w :
  I w ->
  (forall x w', x ∈ l -> I w' -> wp (body x) (fun _ => I) E w') ->
  wp (forM l body) (fun _ => I) E w.
Proof.
  revert w. induction l as [|x l IH]; intros w Hw Hb.
  - exact Hw.
  - simpl. apply wp_bind. eapply wp_mono.
    + apply Hb; [set_solver | exact Hw].
    + intros ? w' Hw'. apply IH; [exact Hw' |]. intros y w'' Hy. apply Hb. set_solver.
    + auto.
Qed.

(** Symbolic execution of the primitive effects. *)

Lemma wp_ret {A} (a : A) Q E w : Q a w -> wp (ret a) Q E w.
Proof. exact id. Qed.

Lemma wp_gets {A} (f : world -> A) Q E w : Q (f w) w -> wp (gets f) Q E w.
Proof. exact id. Qed.

Lemma wp_modify f Q E w : Q tt (f w) -> wp (modify f) Q E w.
Proof. exact id. Qed.

Lemma wp_throw {A} e (Q : A -> world -> Prop) (E : world -> Prop) w :
  E w -> wp (throw e) Q E w.
Proof. exact id. Qed.

Lemma wp_alloc p Q E w :
  Q (length (heap w)) (set_heap (heap w ++ [p]) w) -> wp (alloc p) Q E w.
Proof. exact id. Qed.

Lemma wp_deref r Q E w :
  match heap w !! r with Some p => Q p w | None => E w end ->
  wp (deref r) Q E w.
Proof. unfold wp, deref. destruct (heap w !! r); exact id. Qed.

Ltac wp_prim :=
  lazymatch goal with
  | |- wp (bind _ _) _ _ _ => apply wp_bind
  | |- wp (ret _) _ _ _ => apply wp_ret
  | |- wp (gets _) _ _ _ => apply wp_gets
  | |- wp (modify _) _ _ _ => apply wp_modify
  | |- wp (throw _) _ _ _ => apply wp_throw
  | |- wp (alloc _) _ _ _ => apply wp_alloc
  | |- wp (send _ _ _) _ _ _ => unfold send
  | |- wp (enter _) _ _ _ => unfold enter
  | |- wp (timer_call _) _ _ _ => unfold timer_call
  | |- wp (update _ _) _ _ _ => unfold update
  | |- wp (deref ?r) _ _ ?w =>
      apply wp_deref; destruct (heap w !! r) eqn:?
  | |- wp (session_obj ?q) _ _ _ =>
      unfold session_obj; destruct (session q) eqn:?
  | |- wp (get_session_player _) _ _ _ => unfold get_session_player
  | |- wp (set_session_player _ _) _ _ _ => unfold set_session_player
  | |- wp (sval_ref ?v) _ _ _ => unfold sval_ref; destruct v eqn:?
  | |- wp (guest_tag) _ _ _ => unfold guest_tag
  | |- wp (sort_by_points _ _) _ _ _ => unfold sort_by_points
  | |- wp (if ?b then _ else _) _ _ _ => destruct b eqn:?
  | |- wp (match ?x with _ => _ end) _ _ _ => destruct x eqn:?
  end; cbv beta.

Ltac wp_run := repeat wp_prim.

(** * Invariants of the player objects and of the registry *)

Lemma inv_frame P w w' :
  heap w' = heap w -> all_players_list w' = all_players_list w ->
  inv P w -> inv P w'.
Proof.
  unfold inv, refs_ok, registered. intros -> ->. auto.
Qed.

Ltac inv_frame :=
  match goal with
  | H : inv ?P ?w |- inv ?P _ =>
      apply (inv_frame P w); [reflexivity | reflexivity | exact H]
  end.

Lemma inv_update P w r p q :
  inv P w -> heap w !! r = Some p -> P q ->
  inv P (set_heap (<[r := q]> (heap w)) w).
Proof.
  unfold inv, refs_ok, registered. intros [Hh Hr] Hl Hq. simpl. split.
  - apply Forall_insert; assumption.
  - rewrite length_insert. exact Hr.
Qed.

Lemma registered_assoc_set_Some (sid : string) (r : nat) (l : list (string * option nat)) (Q : nat -> Prop) :
  Forall Q (omap snd l) -> Q r -> Forall Q (omap snd (assoc_set sid (Some r) l)).
Proof.
  intros Hl Hr. induction l as [|[k v] l IH]; simpl.
  - repeat constructor. exact Hr.
  - destruct (String.eqb sid k); simpl.
    + destruct v; simpl in *.
      * inversion Hl; subst. constructor; assumption.
      * constructor; assumption.
    + destruct v; simpl in *.
      * inversion Hl; subst. constructor; auto.
      * auto.
Qed.

Lemma registered_assoc_set_None (sid : string) (l : list (string * option nat)) (Q : nat -> Prop) :
  Forall Q (omap snd l) -> Forall Q (omap snd (assoc_set sid None l)).
Proof.
  intros Hl. induction l as [|[k v] l IH]; simpl.
  - constructor.
  - destruct (String.eqb sid k); simpl.
    + destruct v; simpl in *.
      * inversion Hl; subst. assumption.
      * assumption.
    + destruct v; simpl in *.
      * inversion Hl; subst. constructor; auto.
      * auto.
Qed.

Lemma registry_get_registered sid w r :
  registry_get sid w = Some r -> r ∈ registered w.
Proof.
  unfold registry_get, registered.
  induction (all_players_list w) as [|[k v] l IH]; simpl; [discriminate |].
  destruct (String.eqb sid k).
  - destruct v; [| discriminate]. intros [= ->]. simpl. set_solver.
  - intros H. specialize (IH H). destruct v; simpl; set_solver.
Qed.

Lemma inv_registered P w r :
  inv P w -> r ∈ registered w -> exists p, heap w !! r = Some p /\ P p.
Proof.
  intros [Hh Hr] Hin.
  unfold refs_ok in Hr. rewrite Forall_forall in Hr. specialize (Hr r Hin).
  apply lookup_lt_is_Some in Hr. destruct Hr as [p Hp].
  exists p. split; [exact Hp |].
  rewrite Forall_forall in Hh. apply Hh. eapply list_elem_of_lookup_2. exact Hp.
Qed.

Lemma inv_lookup P w r p :
  inv P w -> heap w !! r = Some p -> P p.
Proof.
  intros [Hh _] Hp. rewrite Forall_forall in Hh. apply Hh.
  eapply list_elem_of_lookup_2. exact Hp.
Qed.

Lemma determineDifficultyLevel_wp (I : world -> Prop) request w :
  I w ->
  (forall m w', I w' -> I (set_outbox m w')) ->
  wp (determineDifficultyLevel request)
     (fun l w' => I w' /\ (l = -1 \/ level_ok l)) I w.
Proof.
  intros Hw Hout. unfold determineDifficultyLevel.
  wp_run; auto.
  all: split; [auto | unfold level_ok; lia].
Qed.

Section Invariant.

Variable P : player -> Prop.
Variable allowed : jsval -> Prop.

Hypothesis P_ref_count : forall p n, P p -> P (set_ref_count n p).
Hypothesis P_incomplete : forall p b, P p -> P (set_incomplete_round b p).
Hypothesis P_level : forall p l, level_ok l -> P p -> P (set_diff_lvl l p).
Hypothesis P_zero : forall p, P p -> P (set_points (JNum 0) p).
Hypothesis P_new : forall tag l b, level_ok l -> P (mkPlayer tag (JNum 0) l b 1).
Hypothesis P_points :
  forall p v, allowed v -> nullish v = false -> P p -> P (set_points v p).

Ltac inv_solve :=
  lazymatch goal with
  | |- inv _ (set_heap (<[_ := _]> (heap ?W)) ?W) =>
      eapply inv_update; [ inv_solve | eassumption | P_solve ]
  | |- inv _ (?f ?x ?W) =>
      first [ assumption
            | apply (inv_frame P W); [reflexivity | reflexivity | inv_solve] ]
  | |- inv _ _ => assumption
  end
with P_old :=
  match goal with
  | Hl : heap ?W !! ?r = Some ?p |- P ?p =>
      apply (inv_lookup P W r p); [inv_solve | exact Hl]
  end
with P_solve :=
  first [ apply P_ref_count; P_old
        | apply P_incomplete; P_old
        | apply P_zero; P_old
        | apply P_points; [eassumption | eassumption | P_old]
        | idtac ].

Lemma inv_determineDifficultyLevel request w :
  inv P w ->
  wp (determineDifficultyLevel request)
     (fun l w' => inv P w' /\ (l = -1 \/ level_ok l)) (inv P) w.
Proof.
  intros Hw. apply determineDifficultyLevel_wp; [exact Hw |].
  intros m w' Hw'. inv_frame.
Qed.

Lemma inv_update_wp r f w :
  inv P w -> (forall p, P p -> P (f p)) ->
  wp (update r f) (fun _ => inv P) (inv P) w.
Proof.
  intros Hw Hf. wp_run; [| exact Hw].
  eapply inv_update; [exact Hw | eassumption |].
  apply Hf. eapply inv_lookup; eassumption.
Qed.

Lemma inv_checkClientAlreadyConnected request w :
  inv P w ->
  wp (checkClientAlreadyConnected request) (fun _ => inv P) (inv P) w.
Proof.
  intros Hw. unfold checkClientAlreadyConnected.
  wp_run; inv_solve.
Qed.

Lemma inv_determineTag request w :
  inv P w -> wp (determineTag request) (fun _ => inv P) (inv P) w.
Proof.
  intros Hw. unfold determineTag. wp_run; inv_solve.
Qed.

Lemma inv_attachPlayerToRoom request r w :
  inv P w -> wp (attachPlayerToRoom request r) (fun _ => inv P) (inv P) w.
Proof.
  intros Hw. unfold attachPlayerToRoom. wp_run; inv_solve.
Qed.

Lemma inv_gamers_in lvl refs gamers w :
  inv P w -> wp (gamers_in lvl refs gamers) (fun _ => inv P) (inv P) w.
Proof.
  intros Hw. revert gamers. induction refs as [|q refs IH]; intros gamers; simpl.
  - exact Hw.
  - wp_run; auto.
Qed.

Lemma inv_emitPlayersAlreadyInRoom request r w :
  inv P w -> wp (emitPlayersAlreadyInRoom request r) (fun _ => inv P) (inv P) w.
Proof.
  intros Hw. unfold emitPlayersAlreadyInRoom. wp_run; [| exact Hw].
  eapply wp_mono; [apply inv_gamers_in; exact Hw | | auto]; cbv beta.
  intros gamers w' Hw'. wp_run. inv_frame.
Qed.

Lemma inv_emitRoundEventAndResults io b room w :
  inv P w -> wp (emitRoundEventAndResults io b room) (fun _ => inv P) (inv P) w.
Proof.
  intros Hw. unfold emitRoundEventAndResults. wp_run; inv_solve.
Qed.

Lemma inv_detachPlayerFromRoom request w :
  inv P w -> wp (detachPlayerFromRoom request) (fun _ => inv P) (inv P) w.
Proof.
  intros Hw. unfold detachPlayerFromRoom. wp_run; inv_solve.
Qed.

Lemma inv_register w W p sid :
  inv P w -> P p ->
  heap W = heap w ++ [p] ->
  all_players_list W = assoc_set sid (Some (length (heap w))) (all_players_list w) ->
  inv P W.
Proof.
  unfold inv, refs_ok, registered. intros [Hh Hr] Hp -> ->. split.
  - apply Forall_app. split; [exact Hh | repeat constructor; exact Hp].
  - rewrite length_app. simpl. apply registered_assoc_set_Some.
    + eapply Forall_impl; [exact Hr |]. simpl. intros; lia.
    + lia.
Qed.

Lemma inv_unregister w W sid :
  inv P w ->
  heap W = heap w ->
  all_players_list W = assoc_set sid None (all_players_list w) ->
  inv P W.
Proof.
  unfold inv, refs_ok, registered. intros [Hh Hr] -> ->. split.
  - exact Hh.
  - apply registered_assoc_set_None. exact Hr.
Qed.

Tactic Notation "wp_call" constr(L) "as" ident(a) ident(w) ident(H) :=
  eapply wp_mono;
  [ apply L; inv_solve
  | cbv beta; intros a w H
  | cbv beta; intros ? ?; try assumption ].

Lemma inv_client_ready request w :
  inv P w -> wp (client_ready request) (fun _ => inv P) (inv P) w.
Proof.
  intros Hw. unfold client_ready. wp_prim.
  wp_call inv_determineDifficultyLevel as l w1 H1.
  destruct H1 as [Hw1 Hl]. wp_prim; [exact Hw1 |].
  assert (level_ok l) as Hlvl by (destruct Hl; [lia | assumption]).
  wp_prim. wp_call inv_checkClientAlreadyConnected as c w2 Hw2.
  wp_prim; [assumption |].
  wp_prim. wp_call inv_determineTag as tag w3 Hw3.
  assert (forall W b, heap W = heap w3 ++ [mkPlayer tag (JNum 0) l b 1] ->
            all_players_list W =
              assoc_set (sessionID request) (Some (length (heap w3)))
                (all_players_list w3) -> inv P W) as Hreg.
  { intros W b HW1 HW2.
    eapply inv_register; [eassumption | apply P_new; exact Hlvl | exact HW1 | exact HW2]. }
  wp_run; try (eapply Hreg; reflexivity).
  eapply wp_mono;
    [ apply inv_attachPlayerToRoom; eapply Hreg; reflexivity
    | cbv beta; intros ? w4 Hw4 | auto ].
  wp_prim. wp_call inv_emitPlayersAlreadyInRoom as u w5 Hw5.
  wp_prim. wp_prim.
  apply inv_emitRoundEventAndResults. assumption.
Qed.

Lemma inv_change_room request w :
  inv P w -> wp (change_room request) (fun _ => inv P) (inv P) w.
Proof.
  intros Hw. unfold change_room. wp_prim.
  wp_call inv_determineDifficultyLevel as l w1 H1.
  destruct H1 as [Hw1 Hl]. wp_prim; [exact Hw1 |].
  assert (level_ok l) as Hlvl by (destruct Hl; [lia | assumption]).
  wp_run; try inv_solve.
  wp_call inv_detachPlayerFromRoom as u w2 Hw2.
  wp_run; try inv_solve.
  eapply wp_mono;
    [ apply inv_attachPlayerToRoom;
      eapply inv_update; [eassumption | eassumption |];
      apply P_level; [exact Hlvl | P_old]
    | cbv beta; intros ? w3 Hw3 | auto ].
  wp_prim. wp_call inv_emitPlayersAlreadyInRoom as u' w4 Hw4.
  wp_prim. wp_prim.
  apply inv_emitRoundEventAndResults. assumption.
Qed.

Lemma inv_disconnect request w :
  inv P w -> wp (disconnect request) (fun _ => inv P) (inv P) w.
Proof.
  intros Hw. unfold disconnect.
  wp_run; try inv_solve.
  all: wp_call inv_detachPlayerFromRoom as u w2 Hw2.
  all: wp_run; try assumption.
  all: eapply inv_unregister; [eassumption | reflexivity | reflexivity].
Qed.

Lemma inv_player_scored request w :
  allowed (get_prop (data request) "points") ->
  inv P w -> wp (player_scored request) (fun _ => inv P) (inv P) w.
Proof.
  intros Hal Hw. unfold player_scored.
  wp_run; inv_solve.
Qed.

Lemma inv_request_final_score request w :
  inv P w -> wp (request_final_score request) (fun _ => inv P) (inv P) w.
Proof.
  intros Hw. unfold request_final_score.
  wp_run; inv_solve.
Qed.

Variable array_sort : list entry -> list entry.

Tactic Notation "wp_loop" "as" ident(w) ident(H) :=
  eapply (wp_mono _ (fun _ => inv P) _ (inv P));
  [ apply (wp_forM (inv P)); [inv_solve | intros ? w ? H]
  | cbv beta; intros ? w H
  | cbv beta; intros ? ?; try assumption ].

Lemma inv_push_entries refs board w :
  inv P w -> wp (push_entries refs board) (fun _ => inv P) (inv P) w.
Proof.
  intros Hw. revert board. induction refs as [|q refs IH]; intros board; simpl.
  - exact Hw.
  - wp_run; auto.
Qed.

Lemma inv_lobbyTick w :
  inv P w -> wp lobbyTick (fun _ => inv P) (inv P) w.
Proof.
  intros Hw. unfold lobbyTick. wp_run.
  apply wp_forM; [inv_solve |].
  intros room w' _ Hw'. wp_run; inv_solve.
Qed.

Lemma inv_createRoundResults w :
  inv P w -> wp createRoundResults (fun _ => inv P) (inv P) w.
Proof.
  intros Hw. unfold createRoundResults. wp_run.
  wp_call inv_push_entries as board w1 Hw1.
  wp_run. inv_solve.
Qed.

Lemma inv_playTick w :
  inv P w -> wp (playTick array_sort) (fun _ => inv P) (inv P) w.
Proof.
  intros Hw. unfold playTick. wp_run.
  wp_call inv_push_entries as leaders w1 Hw1.
  apply wp_forM; [inv_solve |].
  intros room w' _ Hw'. wp_run; inv_solve.
Qed.

Lemma inv_broadcastRoundResults w :
  inv P w -> wp (broadcastRoundResults array_sort) (fun _ => inv P) (inv P) w.
Proof.
  intros Hw. unfold broadcastRoundResults. wp_run.
  apply wp_forM; [inv_solve |].
  intros room w' _ Hw'. wp_run; inv_solve.
Qed.

Lemma inv_firstPlayTick w :
  inv P w -> wp (firstPlayTick array_sort) (fun _ => inv P) (inv P) w.
Proof.
  intros Hw. unfold firstPlayTick. wp_run.
  wp_loop as w1 Hw1.
  - wp_run; inv_solve.
  - wp_run. apply inv_playTick. inv_solve.
Qed.

Lemma inv_firstLobbyTick w :
  inv P w -> wp (firstLobbyTick array_sort) (fun _ => inv P) (inv P) w.
Proof.
  intros Hw. unfold firstLobbyTick. wp_run.
  wp_call inv_createRoundResults as u1 w1 Hw1. wp_prim.
  wp_call inv_broadcastRoundResults as u2 w2 Hw2.
  apply inv_lobbyTick. exact Hw2.
Qed.

Lemma inv_firstTick w :
  inv P w -> wp (firstTick array_sort) (fun _ => inv P) (inv P) w.
Proof.
  intros Hw. unfold firstTick. wp_run.
  - wp_call inv_firstLobbyTick as u1 w1 Hw1. wp_run. inv_solve.
  - wp_call inv_firstPlayTick as u1 w1 Hw1. wp_run. inv_solve.
  - wp_call inv_firstLobbyTick as u1 w1 Hw1. wp_run. inv_solve.
  - wp_call inv_firstPlayTick as u1 w1 Hw1. wp_run. inv_solve.
Qed.

Lemma inv_adjustLobbySecs now w :
  inv P w -> wp (adjustLobbySecs now) (fun _ => inv P) (inv P) w.
Proof.
  intros Hw. unfold adjustLobbySecs. wp_run; inv_solve.
Qed.

Lemma inv_calibrateTimer now w :
  inv P w -> wp (calibrateTimer now) (fun _ => inv P) (inv P) w.
Proof.
  intros Hw. unfold calibrateTimer. wp_run; inv_solve.
Qed.

Lemma inv_timerTick now_adjust now_calibrate w :
  inv P w ->
  wp (timerTick array_sort now_adjust now_calibrate) (fun _ => inv P) (inv P) w.
Proof.
  intros Hw. unfold timerTick. do 6 wp_prim.
  assert (forall w1, inv P w1 ->
    wp (bind (gets secsRemaining) (fun secs =>
          bind (if Z.rem secs SECS_PER_CALIBRATION =? 0
                then calibrateTimer now_calibrate else ret tt)
            (fun _ => modify (fun w => set_secsRemaining (secsRemaining w - 1) w))))
       (fun _ => inv P) (inv P) w1) as Htail.
  { intros w1 Hw1. wp_run.
    - wp_call inv_calibrateTimer as u w2 Hw2. wp_run. inv_solve.
    - inv_solve. }
  eapply (wp_mono _ (fun _ => inv P) _ (inv P));
    [| intros ? w1 Hw1; apply Htail; exact Hw1 | auto].
  wp_run.
  - wp_call inv_playTick as u w1 Hw1. wp_run; [| exact Hw1].
    apply inv_firstLobbyTick. exact Hw1.
  - wp_call inv_adjustLobbySecs as u w1 Hw1. apply inv_lobbyTick. exact Hw1.
  - wp_call inv_lobbyTick as u w1 Hw1. wp_run; [| exact Hw1].
    apply inv_firstPlayTick. inv_solve.
Qed.

Lemma inv_start now w :
  inv P w -> wp (start now) (fun _ => inv P) (inv P) w.
Proof.
  intros Hw. unfold start, delayStart. wp_run. inv_solve.
Qed.

Lemma inv_handle i w :
  (forall request, i = PlayerScored request ->
     allowed (get_prop (data request) "points")) ->
  inv P w -> wp (handle array_sort i) (fun _ => inv P) (inv P) w.
Proof.
  intros Hal Hw. destruct i; simpl.
  - apply inv_client_ready, Hw.
  - apply inv_change_room, Hw.
  - apply inv_disconnect, Hw.
  - apply inv_player_scored; [apply Hal; reflexivity | exact Hw].
  - apply inv_request_final_score, Hw.
  - wp_run; [| exact Hw]. unfold oneShot. wp_run.
    wp_call inv_firstTick as u w1 Hw1. wp_run. inv_solve.
  - wp_run; [| exact Hw]. apply inv_timerTick, Hw.
Qed.

Lemma inv_init : inv P init_world.
Proof. split; constructor. Qed.

Theorem inv_reachable_by (ok : input -> Prop) w :
  (forall request, ok (PlayerScored request) ->
     allowed (get_prop (data request) "points")) ->
  reachable_by array_sort ok w -> inv P w.
Proof.
  intros Hok Hr. induction Hr as [now | i w Hi Hr IH].
  - apply (wp_world_of (start now) (inv P)). apply inv_start, inv_init.
  - unfold step. apply (wp_world_of (handle array_sort i) (inv P)).
    apply inv_handle; [| exact IH].
    intros request ->. apply Hok, Hi.
Qed.

End Invariant.

Lemma elem_of_rooms l : l ∈ rooms <-> l = 0 \/ l = 1 \/ l = 2 \/ l = 3.
Proof.
  unfold rooms, MIN_ROOM_NUM, NUM_ROOMS. change (seqZ 0 4) with [0; 1; 2; 3].
  rewrite !elem_of_cons, elem_of_nil. tauto.
Qed.

Lemma level_ok_rooms l : level_ok l <-> l ∈ rooms.
Proof.
  rewrite elem_of_rooms. unfold level_ok, MIN_ROOM_NUM, NUM_ROOMS. lia.
Qed.

Lemma empty_board_rooms (board : gmap Z (list entry)) l :
  level_ok l -> is_Some (empty_board board !! l).
Proof.
  intros H. apply level_ok_rooms, elem_of_rooms in H.
  unfold empty_board, rooms, MIN_ROOM_NUM, NUM_ROOMS.
  change (seqZ 0 4) with [0; 1; 2; 3]. simpl.
  rewrite !lookup_insert. repeat case_decide; eauto. lia.
Qed.

(** * The routes leave the clock and the round phase alone *)

Section RouteFrame.

Variable v : Z * Z * option Z * list timer_op * list routine * option Z * bool
             * gmap Z (list entry).

Abbreviation kept := (fun w : world => timer_state w = v).

Tactic Notation "frame_call" constr(L) "as" ident(a) ident(w) ident(H) :=
  eapply (wp_mono _ (fun _ => kept) _ kept);
  [ apply L; first [assumption | eassumption]
  | cbv beta; intros a w H
  | cbv beta; intros ? ?; assumption ].

Lemma frame_determineDifficultyLevel request w :
  kept w ->
  wp (determineDifficultyLevel request) (fun _ => kept) kept w.
Proof.
  intros Hw.
  eapply wp_mono;
    [ apply (determineDifficultyLevel_wp kept); [exact Hw | intros m w' H; exact H]
    | cbv beta; intros ? ? [H _]; exact H | auto ].
Qed.

Lemma frame_checkClientAlreadyConnected request w :
  kept w -> wp (checkClientAlreadyConnected request) (fun _ => kept) kept w.
Proof. intros Hw. unfold checkClientAlreadyConnected. wp_run; exact Hw. Qed.

Lemma frame_determineTag request w :
  kept w -> wp (determineTag request) (fun _ => kept) kept w.
Proof. intros Hw. unfold determineTag. wp_run; exact Hw. Qed.

Lemma frame_attachPlayerToRoom request r w :
  kept w -> wp (attachPlayerToRoom request r) (fun _ => kept) kept w.
Proof. intros Hw. unfold attachPlayerToRoom. wp_run; exact Hw. Qed.

Lemma frame_gamers_in lvl refs gamers w :
  kept w -> wp (gamers_in lvl refs gamers) (fun _ => kept) kept w.
Proof.
  intros Hw. revert gamers. induction refs as [|q refs IH]; intros gamers; simpl.
  - exact Hw.
  - wp_run; auto.
Qed.

Lemma frame_emitPlayersAlreadyInRoom request r w :
  kept w -> wp (emitPlayersAlreadyInRoom request r) (fun _ => kept) kept w.
Proof.
  intros Hw. unfold emitPlayersAlreadyInRoom. wp_run; [| exact Hw].
  frame_call frame_gamers_in as g w1 Hw1. wp_run. exact Hw1.
Qed.

Lemma frame_emitRoundEventAndResults io b room w :
  kept w -> wp (emitRoundEventAndResults io b room) (fun _ => kept) kept w.
Proof. intros Hw. unfold emitRoundEventAndResults. wp_run; exact Hw. Qed.

Lemma frame_detachPlayerFromRoom request w :
  kept w -> wp (detachPlayerFromRoom request) (fun _ => kept) kept w.
Proof. intros Hw. unfold detachPlayerFromRoom. wp_run; exact Hw. Qed.

Lemma frame_client_ready request w :
  kept w -> wp (client_ready request) (fun _ => kept) kept w.
Proof.
  intros Hw. unfold client_ready. wp_prim.
  frame_call frame_determineDifficultyLevel as l w1 Hw1.
  wp_prim; [exact Hw1 |]. wp_prim.
  frame_call frame_checkClientAlreadyConnected as c w2 Hw2.
  wp_prim; [exact Hw2 |]. wp_prim.
  frame_call frame_determineTag as tag w3 Hw3.
  wp_run; try exact Hw3.
  eapply (wp_mono _ (fun _ => kept) _ kept);
    [ apply frame_attachPlayerToRoom; exact Hw3 | cbv beta; intros ? w4 Hw4 | auto ].
  wp_prim.
  frame_call frame_emitPlayersAlreadyInRoom as u w5 Hw5.
  wp_prim. wp_prim. apply frame_emitRoundEventAndResults. exact Hw5.
Qed.

Lemma frame_change_room request w :
  kept w -> wp (change_room request) (fun _ => kept) kept w.
Proof.
  intros Hw. unfold change_room. wp_prim.
  frame_call frame_determineDifficultyLevel as l w1 Hw1.
  wp_run; try exact Hw1.
  eapply (wp_mono _ (fun _ => kept) _ kept);
    [ apply frame_detachPlayerFromRoom; exact Hw1 | cbv beta; intros ? w2 Hw2 | auto ].
  wp_run; try exact Hw2.
  eapply (wp_mono _ (fun _ => kept) _ kept);
    [ apply frame_attachPlayerToRoom; exact Hw2 | cbv beta; intros ? w3 Hw3 | auto ].
  wp_prim.
  frame_call frame_emitPlayersAlreadyInRoom as u w4 Hw4.
  wp_prim. wp_prim. apply frame_emitRoundEventAndResults. exact Hw4.
Qed.

Lemma frame_disconnect request w :
  kept w -> wp (disconnect request) (fun _ => kept) kept w.
Proof.
  intros Hw. unfold disconnect. wp_run; try exact Hw.
  all: eapply (wp_mono _ (fun _ => kept) _ kept);
    [ apply frame_detachPlayerFromRoom; exact Hw | cbv beta; intros ? w2 Hw2 | auto ].
  all: wp_run; exact Hw2.
Qed.

Lemma frame_player_scored request w :
  kept w -> wp (player_scored request) (fun _ => kept) kept w.
Proof. intros Hw. unfold player_scored. wp_run; exact Hw. Qed.

Lemma frame_request_final_score request w :
  kept w -> wp (request_final_score request) (fun _ => kept) kept w.
Proof. intros Hw. unfold request_final_score. wp_run; exact Hw. Qed.

End RouteFrame.

(** Every route leaves [timer_state] as it found it, whether it returns or
    throws. *)
Lemma routes_keep_timer_state array_sort i w :
  match i with OneShotFires | IntervalFires _ _ => False | _ => True end ->
  timer_state (step array_sort i w) = timer_state w.
Proof.
  intros Hi. unfold step.
  apply (wp_world_of (handle array_sort i) (fun w' => timer_state w' = timer_state w)).
  destruct i; simpl; try contradiction.
  - apply frame_client_ready. reflexivity.
  - apply frame_change_room. reflexivity.
  - apply frame_disconnect. reflexivity.
  - apply frame_player_scored. reflexivity.
  - apply frame_request_final_score. reflexivity.
Qed.

(** * Reachable states *)

Ltac wf_rules :=
  unfold wf_player, nonneg_int; simpl;
  first [ tauto
        | intros; simpl; intuition (eauto; lia)
        | idtac ].

(** In every reachable state the player objects are well formed and the
    registry holds no dangling reference. *)
Lemma reachable_wf array_sort w :
  reachable array_sort w -> inv wf_player w.
Proof.
  intros H.
  apply (inv_reachable_by wf_player (fun _ => True)) with array_sort (fun _ => True);
    try exact H; try (intros; exact I); wf_rules.
Qed.

(** * What the tick routines send and record *)

Lemma set_outbox_same w : set_outbox (outbox w) w = w.
Proof. destruct w; reflexivity. Qed.

(** C4: while the round is not in progress (Lobby), a [player_scored]
    request, whatever it carries, changes no player object of a reachable
    state: the handler leaves the whole state as it was, but for the error
    message it may send. *)
Theorem lobby_scores_frozen array_sort request w :
  reachable array_sort w ->
  round_in_progress w = false ->
  let w' := world_of (player_scored request w) in
  heap w' = heap w
  /\ (forall r, points <$> heap w' !! r = points <$> heap w !! r)
  /\ exists out, w' = set_outbox out w.
Proof.
  intros Hr Hlobby w'.
  assert (exists out, w' = set_outbox out w) as [out Hout].
  { subst w'.
    apply (wp_world_of (player_scored request)
             (fun w' => exists out, w' = set_outbox out w)).
    pose proof (reachable_wf array_sort w Hr) as Hwf.
    unfold player_scored. wp_run;
      try (eexists; reflexivity);
      try (exists (outbox w); symmetry; apply set_outbox_same);
      try congruence.
    exfalso. simplify_eq.
    match goal with
    | Hp : heap w !! _ = Some ?p, Hn : nullish (points ?p) = true |- _ =>
        pose proof (inv_lookup wf_player w _ p Hwf Hp) as [Hnn _]; congruence
    end. }
  rewrite Hout. simpl. repeat split; eauto.
Qed.

Lemma secs_after_adjust_range now :
  let s := secs_after_adjust now (SECS_IN_LOBBY - 1) in
  s = SECS_IN_LOBBY - 1 \/ s = SECS_IN_LOBBY
  \/ (SECS_IN_LOBBY - 1 - SECS_MAX_SKIP_FWD <= s < SECS_IN_LOBBY - 1).
Proof.
  unfold secs_after_adjust, SECS_IN_LOBBY, SECS_MAX_SKIP_FWD. cbv zeta.
  destruct (negb _) eqn:E; [| lia].
  apply negb_true_iff, Z.eqb_neq in E. lia.
Qed.

Lemma world_eq w1 w2 :
  secsRemaining w1 = secsRemaining w2 ->
  currentTimerInterval w1 = currentTimerInterval w2 ->
  timeout_pending w1 = timeout_pending w2 ->
  interval_active w1 = interval_active w2 ->
  roomCount w1 = roomCount w2 ->
  all_players_list w1 = all_players_list w2 ->
  round_in_progress w1 = round_in_progress w2 ->
  round_results w1 = round_results w2 ->
  num_guests w1 = num_guests w2 ->
  player_global w1 = player_global w2 ->
  heap w1 = heap w2 ->
  sessions w1 = sessions w2 ->
  joined w1 = joined w2 ->
  outbox w1 = outbox w2 ->
  timer_log w1 = timer_log w2 ->
  calls w1 = calls w2 ->
  w1 = w2.
Proof. destruct w1, w2; simpl; intros; subst; reflexivity. Qed.

Ltac fields :=
  cbn [secsRemaining currentTimerInterval timeout_pending interval_active
       roomCount all_players_list round_in_progress round_results num_guests
       player_global heap sessions joined outbox timer_log calls
       set_secsRemaining set_currentTimerInterval set_timeout_pending
       set_interval_active set_roomCount set_all_players_list
       set_round_in_progress set_round_results set_num_guests
       set_player_global set_heap set_sessions set_joined set_outbox
       set_timer_log set_calls sent round_over round_begun].

Ltac world_eq := apply world_eq; fields; try reflexivity.

Lemma set_outbox_twice o1 o2 w : set_outbox o2 (set_outbox o1 w) = set_outbox o2 w.
Proof. reflexivity. Qed.

Lemma lobby_loop (l : list Z) w :
  forM l (fun room =>
    n ← gets (room_count room);
    if negb (n =? 0) then
      secs ← gets secsRemaining;
      send (ToRoom (room_name room)) "lobby_timer_update" (PSecs secs)
    else ret tt) w
  = Ret tt (set_outbox
              (outbox w ++ (lobby_timer_update (secsRemaining w)
                              <$> filter (fun room => room_count room w <> 0) l)) w).
Proof.
  revert w. induction l as [|room l IH]; intros w.
  - simpl. rewrite app_nil_r, set_outbox_same. reflexivity.
  - cbn [forM]. unfold bind at 1. unfold bind at 1, gets at 1.
    rewrite filter_cons. destruct (decide (room_count room w <> 0)) as [Hn | Hn].
    + apply Z.eqb_neq in Hn. rewrite Hn. cbn [negb].
      unfold bind at 1, gets at 1, send, modify. rewrite IH.
      cbn. rewrite <- app_assoc. reflexivity.
    + assert (room_count room w = 0) as Hz by lia.
      rewrite Hz. cbn [negb Z.eqb]. unfold ret at 1. rewrite IH. reflexivity.
Qed.

Lemma lobbyTick_eq w :
  lobbyTick w =
  Ret tt (set_outbox
            (outbox w ++ (lobby_timer_update (secsRemaining w) <$> occupied w))
            (set_calls (calls w ++ [RlobbyTick]) w)).
Proof.
  unfold lobbyTick. unfold bind at 1, enter, modify. rewrite lobby_loop. reflexivity.
Qed.
Lemma insert_as_alter (f : list entry -> list entry) (k : Z) (l : list entry)
  (board : gmap Z (list entry)) :
  board !! k = Some l -> <[k := f l]> board = alter f k board.
Proof.
  intros H. apply map_eq. intros i. rewrite lookup_insert, lookup_alter.
  case_decide; [subst i; rewrite H |]; reflexivity.
Qed.

Lemma inv_usable w : inv wf_player w -> Forall (usable w) (registered w).
Proof.
  intros H. apply Forall_forall. intros r Hr.
  destruct (inv_registered wf_player w r H Hr) as (p & Hp & _ & Hl).
  exists p. split; assumption.
Qed.

Lemma push_entries_eq refs board w :
  Forall (usable w) refs ->
  (forall l, level_ok l -> is_Some (board !! l)) ->
  push_entries refs board w
  = Ret (fill_board board (omap (fun r => heap w !! r) refs)) w.
Proof.
  revert board. induction refs as [|q refs IH]; intros board Hrefs Hb.
  - reflexivity.
  - inversion Hrefs as [|? ? (p & Hp & Hl) Hrest]; subst.
    cbn [push_entries]. unfold bind at 1, deref. rewrite Hp.
    destruct (Hb _ Hl) as [l Hlk]. rewrite Hlk.
    cbn [omap list_omap]. rewrite Hp. cbn [fill_board foldl].
    rewrite (insert_as_alter (fun l => l ++ [entry_of p])) by exact Hlk.
    apply IH; [exact Hrest |].
    intros l' Hl'. rewrite lookup_alter. case_decide; [subst; rewrite Hlk; eauto | auto].
Qed.

Lemma fill_board_lookup board ps l :
  fill_board board ps !! l
  = (fun x => x ++ (entry_of <$> filter (fun p => diff_lvl p = l) ps)) <$> board !! l.
Proof.
  revert board. induction ps as [|p ps IH]; intros board.
  - cbn. destruct (board !! l); cbn; [rewrite app_nil_r |]; reflexivity.
  - cbn [fill_board foldl]. fold (fill_board (alter (fun l0 => l0 ++ [entry_of p]) (diff_lvl p) board) ps).
    rewrite IH, lookup_alter, filter_cons.
    destruct (decide (diff_lvl p = l)) as [-> | Hne].
    + destruct (board !! l); cbn; [rewrite <- app_assoc |]; reflexivity.
    + reflexivity.
Qed.

Lemma empty_board_lookup (board : gmap Z (list entry)) l :
  empty_board board !! l = if decide (level_ok l) then Some [] else board !! l.
Proof.
  unfold empty_board, rooms, MIN_ROOM_NUM, NUM_ROOMS.
  change (seqZ 0 4) with [0; 1; 2; 3]. cbn [foldl].
  rewrite !lookup_insert. unfold level_ok, MIN_ROOM_NUM, NUM_ROOMS.
  repeat case_decide; try reflexivity; lia.
Qed.

(** The board [createRoundResults] and [playTick] build holds, for every
    room, the lines of the registered players of that room. *)
Lemma board_lookup (board : gmap Z (list entry)) w l :
  level_ok l ->
  fill_board (empty_board board) (players w) !! l = Some (room_entries l w).
Proof.
  intros Hl. rewrite fill_board_lookup, empty_board_lookup.
  rewrite decide_True by exact Hl. reflexivity.
Qed.

Lemma board_lookup_other (board : gmap Z (list entry)) w l :
  ~ level_ok l ->
  fill_board (empty_board board) (players w) !! l = (fun x => x ++ room_entries l w) <$> board !! l.
Proof.
  intros Hl. rewrite fill_board_lookup, empty_board_lookup.
  rewrite decide_False by exact Hl. reflexivity.
Qed.

Lemma served_ext (E E' : Z -> list entry) (l : list Z) :
  (forall room, room ∈ l -> E room = E' room) ->
  served E l = served E' l /\ all_sort E l = all_sort E' l.
Proof.
  induction l as [|room l IH]; intros H; [split; reflexivity |].
  destruct IH as [IH1 IH2].
  { intros r Hr. apply H. apply elem_of_cons. right. exact Hr. }
  cbn [served all_sort forallb]. fold (all_sort E l). fold (all_sort E' l).
  rewrite <- (H room) by (apply elem_of_cons; left; reflexivity).
  rewrite IH1, IH2. split; reflexivity.
Qed.

Lemma served_elem (E : Z -> list entry) (l : list Z) room :
  room ∈ served E l -> room ∈ l.
Proof.
  induction l as [|r l IH]; cbn [served]; [exact id |].
  destruct (sort_throws (E r)); [intros H; inversion H |].
  rewrite !elem_of_cons. intros [-> | H]; [left; reflexivity | right; auto].
Qed.

Lemma served_all (E : Z -> list entry) (l : list Z) :
  all_sort E l = true -> served E l = l.
Proof.
  induction l as [|room l IH]; [reflexivity |].
  cbn [served all_sort forallb]. fold (all_sort E l).
  intros H. apply andb_true_iff in H as [H1 H2]. apply negb_true_iff in H1.
  rewrite H1, (IH H2). reflexivity.
Qed.

Lemma all_sort_filter (E : Z -> list entry) (P : Z -> Prop)
  `{!forall x, Decision (P x)} (l : list Z) :
  all_sort E l = true -> all_sort E (filter P l) = true.
Proof.
  unfold all_sort. rewrite !forallb_forall. intros Hall room Hin.
  apply Hall. apply list_elem_of_In in Hin. apply list_elem_of_In.
  apply list_elem_of_filter in Hin as [_ Hin]. exact Hin.
Qed.

Lemma all_sort_forall (E : Z -> list entry) (l : list Z) :
  all_sort E l = true <-> forall room, room ∈ l -> sort_throws (E room) = false.
Proof.
  unfold all_sort. rewrite forallb_forall. split.
  - intros H room Hin. apply negb_true_iff, H, list_elem_of_In, Hin.
  - intros H room Hin. apply negb_true_iff, H, list_elem_of_In, Hin.
Qed.

Lemma play_loop (array_sort : list entry -> list entry) (leaders : gmap Z (list entry))
  (l : list Z) w :
  forM l (fun room =>
    n ← gets (room_count room);
    if negb (n =? 0) then
      sorted ← sort_by_points array_sort (default [] (leaders !! room));
      secs ← gets secsRemaining;
      send (ToRoom (room_name room)) "play_timer_update"
        (PPlayTick (secs - SECS_IN_LOBBY) sorted)
    else ret tt) w
  = finish
      (all_sort (fun room => default [] (leaders !! room))
         (filter (fun room => room_count room w <> 0) l))
      (set_outbox
         (outbox w ++
          ((fun room => mkMsg (ToRoom (room_name room)) "play_timer_update"
              (PPlayTick (secsRemaining w - SECS_IN_LOBBY)
                 (array_sort (default [] (leaders !! room)))))
             <$> served (fun room => default [] (leaders !! room))
                   (filter (fun room => room_count room w <> 0) l))) w).
Proof.
  revert w. induction l as [|room l IH]; intros w.
  - cbn. rewrite app_nil_r, set_outbox_same. reflexivity.
  - cbn [forM]. unfold bind at 1. unfold bind at 1, gets at 1.
    rewrite filter_cons. destruct (decide (room_count room w <> 0)) as [Hn | Hn].
    + apply Z.eqb_neq in Hn. rewrite Hn. cbn [negb].
      cbn [served all_sort forallb].
      unfold bind at 1, sort_by_points at 1.
      destruct (sort_throws (default [] (leaders !! room))) eqn:Ht.
      * unfold throw. cbn [negb andb fmap list_fmap finish].
        rewrite app_nil_r, set_outbox_same. reflexivity.
      * unfold ret at 1. unfold bind at 1, gets at 1, send, modify. rewrite IH.
        cbn [negb andb]. unfold finish.
        change (filter (fun room0 => room_count room0
                  (set_outbox _ w) <> 0) l)
          with (filter (fun room0 => room_count room0 w <> 0) l).
        fold (all_sort (fun room0 => default [] (leaders !! room0))
                (filter (fun room0 => room_count room0 w <> 0) l)).
        destruct (all_sort _ _); cbn; rewrite <- app_assoc; reflexivity.
    + assert (room_count room w = 0) as Hz by lia.
      rewrite Hz. cbn [negb Z.eqb]. unfold ret at 1. rewrite IH. reflexivity.
Qed.

Lemma occupied_level_ok w room : room ∈ occupied w -> level_ok room.
Proof.
  unfold occupied. rewrite list_elem_of_filter. intros [_ H].
  apply level_ok_rooms. exact H.
Qed.

(** [playTick] serves the occupied rooms in order, up to the first whose
    sort throws. *)
Lemma playTick_eq array_sort w :
  inv wf_player w ->
  playTick array_sort w = finish (play_ok w) (play_ticked array_sort w).
Proof.
  intros Hw. unfold playTick. unfold bind at 1, enter, modify.
  unfold bind at 1, gets at 1. unfold bind at 1.
  rewrite push_entries_eq.
  - rewrite play_loop.
    set (E := fun room : Z =>
                default []
                  (fill_board (empty_board ∅)
                     (omap (fun r => heap (set_calls (calls w ++ [RplayTick]) w) !! r)
                        (registered (set_calls (calls w ++ [RplayTick]) w)))
                   !! room)).
    assert (forall room, room ∈ occupied w -> E room = room_entries room w) as Hb.
    { intros room Hroom. apply occupied_level_ok in Hroom. subst E. cbv beta.
      change (default [] (fill_board (empty_board ∅) (players w) !! room)
              = room_entries room w).
      rewrite board_lookup by exact Hroom. reflexivity. }
    unfold play_ok, play_ticked.
    change (filter (fun room => room_count room (set_calls (calls w ++ [RplayTick]) w) <> 0) rooms)
      with (occupied w).
    destruct (served_ext E (fun room => room_entries room w) (occupied w) Hb)
      as [-> ->].
    f_equal. f_equal. f_equal.
    apply list_fmap_ext. intros i room Hroom.
    unfold play_timer_update. fields. f_equal. f_equal. f_equal.
    apply Hb. eapply served_elem, list_elem_of_lookup_2, Hroom.
  - apply inv_usable in Hw. exact Hw.
  - intros l Hl. rewrite empty_board_lookup, decide_True by exact Hl. eauto.
Qed.

Lemma createRoundResults_eq w :
  inv wf_player w ->
  createRoundResults w =
  Ret tt (set_round_results
            (fill_board (empty_board (round_results w)) (players w))
            (set_calls (calls w ++ [RcreateRoundResults]) w)).
Proof.
  intros Hw. unfold createRoundResults. unfold bind at 1, enter, modify.
  unfold bind at 1. unfold bind at 1, gets at 1. unfold bind at 1, gets at 1.
  unfold bind at 1. rewrite push_entries_eq.
  - reflexivity.
  - apply inv_usable in Hw. exact Hw.
  - intros l Hl. cbn. rewrite empty_board_lookup, decide_True by exact Hl. eauto.
Qed.

Lemma bcast_loop (array_sort : list entry -> list entry) (l : list Z) w w0 :
  NoDup l ->
  (forall room, room ∈ l -> round_results w !! room = round_results w0 !! room) ->
  roomCount w = roomCount w0 ->
  (forall room, room ∈ l -> is_Some (round_results w0 !! room)) ->
  forM l (fun room =>
    n ← gets (room_count room);
    results ← gets (fun w => round_results w !! room);
    if negb (n =? 0) then
      match results with
      | None => throw TypeError
      | Some l =>
          if negb (length l =? 0)%nat then
            sorted ← sort_by_points array_sort l;
            modify (fun w =>
              set_round_results (<[room := sorted]> (round_results w)) w) ;;
            send (ToRoom (room_name room)) "room_round_results"
              (PResults sorted)
          else ret tt
      end
    else ret tt) w
  = finish
      (all_sort (fun room => results_of room w0)
         (filter (fun room => results_of room w0 <> [])
            (filter (fun room => room_count room w0 <> 0) l)))
      (set_outbox
         (outbox w ++
          (room_round_results array_sort w0 <$>
             served (fun room => results_of room w0)
               (filter (fun room => results_of room w0 <> [])
                  (filter (fun room => room_count room w0 <> 0) l))))
         (set_round_results
            (foldl (fun rr room => <[room := array_sort (results_of room w0)]> rr)
               (round_results w)
               (served (fun room => results_of room w0)
                  (filter (fun room => results_of room w0 <> [])
                     (filter (fun room => room_count room w0 <> 0) l))))
            w)).
Proof.
  revert w. induction l as [|room l IH]; intros w Hnd Hrr Hrc Hsome.
  - cbn. rewrite app_nil_r. f_equal. world_eq.
  - apply NoDup_cons in Hnd as [Hnotin Hnd].
    destruct (Hsome room ltac:(set_solver)) as [x Hx].
    assert (round_results w !! room = Some x) as Hx'.
    { rewrite Hrr by set_solver. exact Hx. }
    assert (room_count room w = room_count room w0) as Hn.
    { unfold room_count. rewrite Hrc. reflexivity. }
    assert (results_of room w0 = x) as Hres.
    { unfold results_of. rewrite Hx. reflexivity. }
    cbn [forM]. unfold bind at 1. unfold bind at 1, gets at 1.
    unfold bind at 1, gets at 1. rewrite Hx', Hn.
    rewrite (filter_cons (fun room => room_count room w0 <> 0)).
    destruct (decide (room_count room w0 <> 0)) as [Hc | Hc].
    + apply Z.eqb_neq in Hc. rewrite Hc. cbn [negb].
      rewrite filter_cons. rewrite Hres.
      destruct (decide (x <> [])) as [Hne | He].
      * destruct x as [|e x]; [contradiction |].
        cbn [length Nat.eqb negb]. cbn [served all_sort forallb].
        rewrite Hres.
        unfold bind at 1, sort_by_points at 1.
        destruct (sort_throws (e :: x)) eqn:Ht.
        { unfold throw. cbn [negb andb fmap list_fmap foldl finish].
          rewrite app_nil_r. f_equal. world_eq. }
        unfold ret at 1.
        unfold bind at 1, modify at 1. unfold send, modify.
        rewrite IH; try assumption.
        -- cbn [negb andb]. unfold finish.
           fold (all_sort (fun room0 => results_of room0 w0)
                   (filter (fun room0 => results_of room0 w0 <> [])
                      (filter (fun room0 => room_count room0 w0 <> 0) l))).
           destruct (all_sort _ _); f_equal; world_eq.
           ++ cbn. rewrite Hres. reflexivity.
           ++ rewrite <- app_assoc. cbn. unfold room_round_results at 2.
              rewrite Hres. reflexivity.
           ++ cbn. rewrite Hres. reflexivity.
           ++ rewrite <- app_assoc. cbn. unfold room_round_results at 2.
              rewrite Hres. reflexivity.
        -- intros room' Hin. fields. rewrite lookup_insert_ne by set_solver.
           apply Hrr. set_solver.
        -- intros room' Hin. apply Hsome. set_solver.
      * assert (x = []) as -> by (destruct x; [reflexivity | exfalso; apply He; discriminate]).
        cbn [length Nat.eqb negb]. unfold ret at 1.
        apply IH; try assumption.
        -- intros room' Hin. apply Hrr. set_solver.
        -- intros room' Hin. apply Hsome. set_solver.
    + assert (room_count room w0 = 0) as Hz by lia.
      rewrite Hz. cbn [negb Z.eqb]. unfold ret at 1.
      apply IH; try assumption.
      * intros room' Hin. apply Hrr. set_solver.
      * intros room' Hin. apply Hsome. set_solver.
Qed.

Lemma NoDup_rooms : NoDup rooms.
Proof. apply NoDup_seqZ. Qed.

(** [broadcastRoundResults] sorts and sends the results of the occupied
    rooms that have some, up to the first whose sort throws. *)
Lemma broadcastRoundResults_eq array_sort w :
  results_ready w ->
  broadcastRoundResults array_sort w
  = finish (results_ok w) (results_sent array_sort w).
Proof.
  intros Hr. unfold broadcastRoundResults. unfold bind at 1, enter, modify.
  rewrite (bcast_loop array_sort rooms _ w).
  - reflexivity.
  - apply NoDup_rooms.
  - reflexivity.
  - reflexivity.
  - intros room Hroom. apply Hr, level_ok_rooms, Hroom.
Qed.

Lemma results_ready_round_over w : results_ready (round_over w).
Proof.
  intros l Hl. unfold round_over. fields. rewrite board_lookup by exact Hl. eauto.
Qed.

Lemma firstLobbyTick_eq array_sort w :
  inv wf_player w ->
  firstLobbyTick array_sort w =
  if results_ok (round_over w) then
    Ret tt
      (set_outbox
         (outbox w ++
          mkMsg ToAll "round_ended" round_ended ::
          (room_round_results array_sort (round_over w) <$> with_results (round_over w))
          ++ (lobby_timer_update (secsRemaining w) <$> occupied w))
         (set_round_results (sorted_results array_sort (round_over w))
            (set_round_in_progress false
               (set_calls
                  (calls w ++ [RfirstLobbyTick; RcreateRoundResults;
                               RbroadcastRoundResults; RlobbyTick]) w))))
  else Throw TypeError (lobby_aborted array_sort w).
Proof.
  intros Hw. unfold firstLobbyTick.
  unfold bind at 1, enter, modify at 1. unfold bind at 1, modify at 1.
  unfold bind at 1, send, modify at 1. unfold bind at 1.
  rewrite createRoundResults_eq
    by (apply (inv_frame wf_player w); [reflexivity | reflexivity | exact Hw]).
  unfold bind at 1. rewrite broadcastRoundResults_eq.
  2: { intros l Hl. fields. rewrite board_lookup by exact Hl. eauto. }
  match goal with
  | |- context [finish (results_ok ?W) _] =>
      change (results_ok W) with (results_ok (round_over w))
  end.
  destruct (results_ok (round_over w)) eqn:Hok; unfold finish.
  - rewrite lobbyTick_eq. unfold results_sent. cbv zeta.
    match goal with
    | |- context [served ?E (with_results ?W)] =>
        change (served E (with_results W))
          with (served (fun room => results_of room (round_over w))
                  (with_results (round_over w)))
    end.
    rewrite (served_all _ _ Hok).
    f_equal. world_eq.
    + rewrite <- !app_assoc. reflexivity.
    + rewrite <- !app_assoc. reflexivity.
  - f_equal. unfold results_sent, lobby_aborted. cbv zeta. world_eq.
    + rewrite <- !app_assoc. reflexivity.
    + rewrite <- !app_assoc. reflexivity.
Qed.

Lemma fresh_round_twice (q : nat) (p : player) (h : list player) :
  h !! q = Some p ->
  <[q := set_incomplete_round false (set_points (JNum 0) p)]>
    (<[q := set_points (JNum 0) p]> h)
  = alter fresh_round q h.
Proof.
  intros Hp. apply list_eq. intros i.
  rewrite list_lookup_alter, !list_lookup_insert.
  rewrite !length_insert.
  destruct (decide (q = i)) as [-> | Hne].
  - rewrite Hp. rewrite decide_True; [reflexivity |].
    split; [reflexivity | eapply lookup_lt_Some; exact Hp].
  - rewrite !decide_False by (intros [? _]; congruence). reflexivity.
Qed.

Lemma reset_loop refs w :
  Forall (fun r => (r < length (heap w))%nat) refs ->
  forM refs (fun q =>
    update q (set_points (JNum 0)) ;;
    update q (set_incomplete_round false)) w
  = Ret tt (set_heap (reset_scores refs (heap w)) w).
Proof.
  revert w. induction refs as [|q refs IH]; intros w Hrefs.
  - cbn. f_equal. world_eq.
  - inversion Hrefs as [|? ? Hq Hrest]; subst.
    apply lookup_lt_is_Some in Hq. destruct Hq as [p Hp].
    cbn [forM]. unfold bind at 1. unfold bind at 1.
    unfold update at 1. unfold bind at 1, deref at 1. rewrite Hp.
    unfold modify at 1. unfold update. unfold bind at 1, deref. fields.
    rewrite list_lookup_insert_eq by (eapply lookup_lt_Some; exact Hp).
    unfold modify at 1. rewrite IH.
    + f_equal. world_eq. rewrite fresh_round_twice by exact Hp. reflexivity.
    + fields. rewrite !length_insert. exact Hrest.
Qed.

Lemma reset_scores_lookup refs (h : list player) r :
  reset_scores refs h !! r
  = (if decide (r ∈ refs) then fresh_round else id) <$> h !! r.
Proof.
  revert h. induction refs as [|q refs IH]; intros h.
  - cbn. rewrite decide_False by set_solver. destruct (h !! r); reflexivity.
  - cbn [reset_scores foldl]. fold (reset_scores refs (alter fresh_round q h)).
    rewrite IH, list_lookup_alter.
    destruct (decide (q = r)) as [-> | Hne].
    + rewrite (decide_True (P := r ∈ r :: refs)) by set_solver.
      destruct (h !! r) as [p|]; [| reflexivity]. cbn.
      destruct (decide (r ∈ refs)); reflexivity.
    + destruct (decide (r ∈ refs)) as [Hin | Hnin].
      * rewrite (decide_True (P := r ∈ q :: refs)) by set_solver. reflexivity.
      * rewrite (decide_False (P := r ∈ q :: refs)); [reflexivity |].
        rewrite elem_of_cons. intros [-> | H']; [apply Hne; reflexivity | exact (Hnin H')].
Qed.

Lemma reset_scores_length refs (h : list player) :
  length (reset_scores refs h) = length h.
Proof.
  revert h. induction refs as [|q refs IH]; intros h; [reflexivity |].
  cbn [reset_scores foldl]. fold (reset_scores refs (alter fresh_round q h)).
  rewrite IH, length_alter. reflexivity.
Qed.

Lemma wf_player_fresh_round p : wf_player p -> wf_player (fresh_round p).
Proof. intros [_ Hl]. split; [reflexivity | exact Hl]. Qed.

Lemma inv_round_begun w : inv wf_player w -> inv wf_player (round_begun w).
Proof.
  intros [Hh Hr]. split.
  - unfold round_begun. fields. apply Forall_lookup. intros i p Hp.
    rewrite reset_scores_lookup in Hp.
    destruct (heap w !! i) as [p0|] eqn:Hp0; [| discriminate].
    assert (wf_player p0) as Hwf.
    { rewrite Forall_lookup in Hh. eapply Hh. exact Hp0. }
    cbn in Hp. injection Hp as <-.
    destruct (decide _); [apply wf_player_fresh_round |]; exact Hwf.
  - unfold refs_ok, registered, round_begun in *. fields.
    rewrite reset_scores_length. exact Hr.
Qed.

Lemma begun_entries_zero w room e :
  e ∈ room_entries room (round_begun w) -> e.2 = JNum 0.
Proof.
  intros He. unfold room_entries in He.
  apply list_elem_of_fmap in He as (p & -> & Hp).
  apply list_elem_of_filter in Hp as [_ Hp].
  unfold players in Hp. apply list_elem_of_omap in Hp as (r & Hr & Hp).
  unfold round_begun in Hp, Hr.
  change (registered (set_round_in_progress true
            (set_heap (reset_scores (registered w) (heap w)) w)))
    with (registered w) in Hr.
  change (heap (set_round_in_progress true
            (set_heap (reset_scores (registered w) (heap w)) w)))
    with (reset_scores (registered w) (heap w)) in Hp.
  rewrite reset_scores_lookup in Hp.
  rewrite decide_True in Hp by exact Hr.
  destruct (heap w !! r); [| discriminate]. cbn in Hp. injection Hp as <-.
  reflexivity.
Qed.

Lemma sort_throws_forall (l : list entry) :
  (forall e, e ∈ l -> uncoercible e.2 = false) -> sort_throws l = false.
Proof.
  intros H. unfold sort_throws. apply andb_false_iff. right.
  apply not_true_is_false. intros Hex. apply existsb_exists in Hex as (e & He & Hu).
  apply list_elem_of_In in He. rewrite (H e He) in Hu. discriminate.
Qed.

(** A round that has just begun sorts: everybody has 0 points. *)
Lemma play_ok_begun w : play_ok (round_begun w) = true.
Proof.
  unfold play_ok. apply all_sort_forall. intros room _.
  apply sort_throws_forall. intros e He.
  rewrite (begun_entries_zero w room e He). reflexivity.
Qed.

Lemma firstPlayTick_eq array_sort w :
  inv wf_player w ->
  firstPlayTick array_sort w =
  Ret tt
    (set_outbox
       (outbox w ++
        mkMsg ToAll "round_started" round_started ::
        (play_timer_update array_sort (round_begun w) <$> occupied w))
       (set_calls (calls w ++ [RfirstPlayTick; RplayTick]) (round_begun w))).
Proof.
  intros Hw. unfold firstPlayTick.
  unfold bind at 1, enter, modify at 1. unfold bind at 1, gets at 1.
  unfold bind at 1. rewrite reset_loop by (destruct Hw as [_ Hr]; exact Hr).
  unfold bind at 1, modify at 1. unfold bind at 1, send, modify at 1.
  rewrite playTick_eq.
  2: { apply (inv_frame wf_player (round_begun w)); [reflexivity | reflexivity |].
       apply inv_round_begun, Hw. }
  match goal with
  | |- finish (play_ok ?W) _ = _ =>
      change (play_ok W) with (play_ok (round_begun w))
  end.
  rewrite play_ok_begun. unfold finish, play_ticked.
  match goal with
  | |- context [served ?E (occupied ?W)] =>
      change (served E (occupied W))
        with (served (fun room => room_entries room (round_begun w))
                (occupied (round_begun w)))
  end.
  rewrite (served_all _ _ (play_ok_begun w)).
  f_equal. world_eq.
  + rewrite <- !app_assoc. reflexivity.
  + rewrite <- !app_assoc. reflexivity.
Qed.

Lemma adjustLobbySecs_eq now w :
  adjustLobbySecs now w =
  Ret tt (set_secsRemaining (secs_after_adjust now (secsRemaining w))
            (set_calls (calls w ++ [RadjustLobbySecs]) w)).
Proof.
  unfold adjustLobbySecs, secs_after_adjust.
  unfold bind at 1, enter, modify at 1. unfold bind at 1, gets at 1. fields.
  destruct (negb _); [reflexivity |].
  reflexivity.
Qed.

Lemma calibrateTimer_eq now w :
  calibrateTimer now w =
  Ret tt
    (set_currentTimerInterval (tick_interval now)
       (set_interval_active
          (if currentTimerInterval w =? tick_interval now then interval_active w
           else Some (tick_interval now))
          (set_timer_log
             (timer_log w ++
              calibrate_ops now (currentTimerInterval w) (interval_active w))
             (set_calls (calls w ++ [RcalibrateTimer]) w)))).
Proof.
  unfold calibrateTimer, calibrate_ops. fold (tick_interval now).
  unfold bind at 1, enter, modify at 1. unfold bind at 1, gets at 1. fields.
  destruct (currentTimerInterval w =? tick_interval now) eqn:E; cbn [negb].
  - unfold ret. f_equal. world_eq.
    + apply Z.eqb_eq in E. exact E.
    + rewrite app_nil_r. reflexivity.
  - unfold bind, gets, timer_call, modify. f_equal. world_eq.
    rewrite <- app_assoc. reflexivity.
Qed.

Lemma results_of_round_over w room :
  level_ok room -> results_of room (round_over w) = room_entries room w.
Proof.
  intros H. unfold results_of, round_over. fields.
  rewrite board_lookup by exact H. reflexivity.
Qed.

(** When the Play-tick has sorted, the end of the round sorts too: it sorts
    the same lists. *)
Lemma results_ok_round_over w :
  play_ok w = true -> results_ok (round_over w) = true.
Proof.
  intros H. unfold results_ok, with_results.
  apply all_sort_filter.
  change (occupied (round_over w)) with (occupied w).
  unfold play_ok in H.
  destruct (served_ext (fun room => results_of room (round_over w))
              (fun room => room_entries room w) (occupied w)) as [_ ->];
    [| exact H].
  intros room Hroom. apply results_of_round_over, (occupied_level_ok w), Hroom.
Qed.

Lemma tick_tail_eq now w :
  bind (gets secsRemaining) (fun secs =>
    bind (if Z.rem secs SECS_PER_CALIBRATION =? 0
          then calibrateTimer now else ret tt)
      (fun _ => modify (fun w => set_secsRemaining (secsRemaining w - 1) w))) w
  = Ret tt
      (set_secsRemaining (secsRemaining w - 1)
         (set_currentTimerInterval (tick_interval now)
            (set_interval_active
               (if currentTimerInterval w =? tick_interval now then interval_active w
                else Some (tick_interval now))
               (set_timer_log
                  (timer_log w ++
                   calibrate_ops now (currentTimerInterval w) (interval_active w))
                  (set_calls (calls w ++ [RcalibrateTimer]) w))))).
Proof.
  unfold bind at 1, gets at 1. unfold SECS_PER_CALIBRATION. rewrite Z.rem_1_r.
  cbn [Z.eqb]. unfold bind at 1. rewrite calibrateTimer_eq. reflexivity.
Qed.

Ltac frame_inv :=
  match goal with
  | H : inv wf_player ?w |- inv wf_player _ =>
      apply (inv_frame wf_player w); [reflexivity | reflexivity | exact H]
  end.

(** One firing of the recurring timer: it throws when it is a Play-tick
    and the sort of an occupied room throws, and returns otherwise. *)
Lemma timerTick_eq array_sort now_adjust now_calibrate w :
  inv wf_player w ->
  timerTick array_sort now_adjust now_calibrate w
  = if tick_throws w then Throw TypeError (tick_aborted array_sort w)
    else Ret tt (ticked array_sort now_adjust now_calibrate w).
Proof.
  intros Hw. unfold timerTick, tick_throws.
  unfold bind at 1, enter, modify at 1. unfold bind at 1, gets at 1.
  unfold bind at 1. fields.
  unfold ticked, tick_secs, tick_phase, tick_results, tick_heap, tick_messages,
    tick_trace. cbv zeta.
  set (s := secsRemaining w).
  destruct (s >=? SECS_IN_LOBBY) eqn:Hge.
  - assert ((SECS_IN_LOBBY <=? s) = true) as -> by lia. cbn [andb].
    unfold bind at 1. rewrite playTick_eq by frame_inv.
    match goal with
    | |- context [finish (play_ok ?W) _] =>
        change (play_ok W) with (play_ok w)
    end.
    destruct (play_ok w) eqn:Hok; unfold finish; cbn [negb];
      [| reflexivity].
    unfold play_ticked.
    match goal with
    | |- context [served ?E (occupied ?W)] =>
        change (served E (occupied W))
          with (served (fun room => room_entries room w) (occupied w))
    end.
    rewrite (served_all _ _ Hok).
    unfold bind at 1, gets at 1. fields. fold s.
    destruct (s =? SECS_IN_LOBBY) eqn:H30.
    + rewrite firstLobbyTick_eq by frame_inv.
      match goal with
      | |- context [results_ok (round_over ?W)] =>
          change (results_ok (round_over W)) with (results_ok (round_over w))
      end.
      rewrite (results_ok_round_over w Hok).
      rewrite tick_tail_eq. f_equal.
      assert ((s =? 0) = false) as -> by (unfold SECS_IN_LOBBY in *; lia).
      world_eq.
      * rewrite <- !app_assoc. reflexivity.
      * rewrite <- !app_assoc. reflexivity.
    + unfold ret at 1. rewrite tick_tail_eq. f_equal.
      assert ((s =? 0) = false) as -> by (unfold SECS_IN_LOBBY in *; lia).
      world_eq.
      * rewrite app_nil_r. reflexivity.
      * rewrite <- !app_assoc. reflexivity.
  - assert ((SECS_IN_LOBBY <=? s) = false) as -> by lia. cbn [andb].
    destruct (s =? SECS_IN_LOBBY - 1) eqn:H29.
    + unfold bind at 1. rewrite adjustLobbySecs_eq. rewrite lobbyTick_eq.
      rewrite tick_tail_eq. f_equal.
      assert ((s =? SECS_IN_LOBBY) = false) as -> by (unfold SECS_IN_LOBBY in *; lia).
      assert ((s =? 0) = false) as -> by (unfold SECS_IN_LOBBY in *; lia).
      world_eq. rewrite <- !app_assoc. reflexivity.
    + unfold bind at 1. rewrite lobbyTick_eq.
      unfold bind at 1, gets at 1. fields. fold s.
      assert ((s =? SECS_IN_LOBBY) = false) as -> by (unfold SECS_IN_LOBBY in *; lia).
      destruct (s =? 0) eqn:H0.
      * unfold bind at 1, modify at 1. rewrite firstPlayTick_eq by frame_inv.
        rewrite tick_tail_eq. f_equal. world_eq.
        -- rewrite <- !app_assoc. reflexivity.
        -- rewrite <- !app_assoc. reflexivity.
      * unfold ret at 1. rewrite tick_tail_eq. f_equal. world_eq.
        -- rewrite app_nil_r. reflexivity.
        -- rewrite <- !app_assoc. reflexivity.
Qed.

(** The first tick: it throws when it enters Lobby and the sort of the
    results of a room throws. *)
Lemma firstTick_eq array_sort w :
  inv wf_player w ->
  firstTick array_sort w
  = if first_throws w
    then Throw TypeError
           (lobby_aborted array_sort (set_calls (calls w ++ [RfirstTick]) w))
    else Ret tt (set_interval_active (interval_active w)
                   (set_timer_log (timer_log w)
                      (set_timeout_pending (timeout_pending w)
                         (one_shot_fired array_sort w)))).
Proof.
  intros Hw. unfold firstTick, first_throws.
  unfold bind at 1, enter, modify at 1. unfold bind at 1, gets at 1. fields.
  unfold one_shot_fired, first_messages, first_in_lobby, first_secs,
    first_tick_secs, first_tick_trace.
  set (s := secsRemaining w).
  destruct (s =? 0) eqn:H0.
  - unfold bind at 1, modify at 1. unfold bind at 1, gets at 1. fields.
    unfold bind at 1.
    change (SECS_IN_COMPLETE_CYCLE <=? SECS_IN_LOBBY) with false. cbv iota.
    cbn [andb].
    rewrite firstPlayTick_eq by frame_inv.
    unfold modify. f_equal. world_eq. rewrite <- !app_assoc. reflexivity.
  - unfold bind at 1, ret at 1. unfold bind at 1, gets at 1. fields. fold s.
    unfold bind at 1.
    destruct (s <=? SECS_IN_LOBBY) eqn:Hl; cbn [andb].
    + rewrite firstLobbyTick_eq by frame_inv.
      match goal with
      | |- context [results_ok (round_over ?W)] =>
          change (results_ok (round_over W)) with (results_ok (round_over w))
      end.
      destruct (results_ok (round_over w)); cbn [negb]; [| reflexivity].
      unfold modify. f_equal. world_eq; rewrite <- !app_assoc; reflexivity.
    + rewrite firstPlayTick_eq by frame_inv.
      unfold modify. f_equal. world_eq; rewrite <- !app_assoc; reflexivity.
Qed.

Lemma oneShot_eq array_sort w :
  inv wf_player w ->
  oneShot array_sort w
  = if first_throws w then Throw TypeError (one_shot_aborted array_sort w)
    else Ret tt (one_shot_fired array_sort w).
Proof.
  intros Hw. unfold oneShot.
  unfold bind at 1, modify at 1. unfold bind at 1.
  rewrite firstTick_eq by frame_inv.
  change (first_throws (set_timeout_pending None w)) with (first_throws w).
  destruct (first_throws w); [reflexivity |].
  unfold bind, timer_call, modify. f_equal.
Qed.

(** What an input leaves, for the two timers. *)
Lemma step_interval array_sort now_adjust now_calibrate w :
  inv wf_player w ->
  step array_sort (IntervalFires now_adjust now_calibrate) w
  = if interval_active w is Some _
    then if tick_throws w then tick_aborted array_sort w
         else ticked array_sort now_adjust now_calibrate w
    else w.
Proof.
  intros Hw. unfold step, handle. unfold bind, gets.
  destruct (interval_active w); [| reflexivity].
  rewrite timerTick_eq by exact Hw. destruct (tick_throws w); reflexivity.
Qed.

Lemma step_one_shot array_sort w :
  inv wf_player w ->
  step array_sort OneShotFires w
  = if timeout_pending w is Some _
    then if first_throws w then one_shot_aborted array_sort w
         else one_shot_fired array_sort w
    else w.
Proof.
  intros Hw. unfold step, handle. unfold bind, gets.
  destruct (timeout_pending w); [| reflexivity].
  rewrite oneShot_eq by exact Hw. destruct (first_throws w); reflexivity.
Qed.

Lemma sorted_results_ready array_sort w :
  results_ready w -> forall l, level_ok l -> is_Some (sorted_results array_sort w !! l).
Proof.
  intros Hr l Hl. unfold sorted_results, sorted_over.
  generalize (with_results w). intros rs.
  assert (is_Some (round_results w !! l)) as H by (apply Hr, Hl).
  revert H. generalize (round_results w). induction rs as [|room rs IH]; intros rr H.
  - exact H.
  - cbn [foldl]. apply IH. rewrite lookup_insert. case_decide; eauto.
Qed.

Lemma tick_interval_cases now :
  tick_interval now ∈
    [FAST_TIMER_INTERVAL; NORMAL_TIMER_INTERVAL; SLOW_TIMER_INTERVAL].
Proof.
  unfold tick_interval, newTimerInterval, USE_LARGER_CLOCK_SKEW.
  destruct (_ <? _); [repeat constructor |]. destruct (_ <? _); repeat constructor.
Qed.

Lemma secs_after_adjust_29 now :
  SECS_IN_LOBBY - 1 - SECS_MAX_SKIP_FWD <= secs_after_adjust now (SECS_IN_LOBBY - 1)
  <= SECS_IN_LOBBY.
Proof.
  pose proof (secs_after_adjust_range now) as H. cbv zeta in H.
  unfold SECS_IN_LOBBY, SECS_MAX_SKIP_FWD in *. lia.
Qed.

(** * The clock between two inputs *)

Lemma clock_ok_start now : clock_ok (world_of (start now init_world)).
Proof.
  pose proof (msecUntilNextGame_bounds now) as Hb.
  unfold MSECS_IN_COMPLETE_CYCLE, SECS_IN_COMPLETE_CYCLE in Hb.
  unfold clock_ok. cbn. unfold initMSecOffset, SECS_IN_COMPLETE_CYCLE.
  pose proof (Z.rem_bound_pos (msecUntilNextGame now) 1000 ltac:(lia) ltac:(lia)).
  rewrite Z.quot_div_nonneg by lia.
  pose proof (Z.div_pos (msecUntilNextGame now) 1000 ltac:(lia) ltac:(lia)).
  assert (msecUntilNextGame now / 1000 <= 180)
    by (apply Z.div_le_upper_bound; lia).
  repeat split; try reflexivity; try lia. constructor.
Qed.

Lemma clock_ok_ticked array_sort now_adjust now_calibrate w :
  clock_ok w -> timeout_pending w = None ->
  clock_ok (ticked array_sort now_adjust now_calibrate w).
Proof.
  unfold clock_ok. intros H Hp. rewrite Hp in H.
  destruct H as (Hi & Hc & Hs & Hrip & Hres).
  unfold ticked. fields. rewrite Hp.
  unfold tick_secs, tick_phase, tick_results.
  pose proof (secs_after_adjust_29 now_adjust) as Hadj.
  unfold SECS_IN_LOBBY, SECS_IN_COMPLETE_CYCLE, SECS_MAX_SKIP_FWD in *.
  split; [| split; [| split; [| split]]].
  - rewrite Hi. destruct (_ =? _) eqn:E; [| reflexivity].
    apply Z.eqb_eq in E. rewrite E. reflexivity.
  - apply tick_interval_cases.
  - destruct (secsRemaining w >=? 30) eqn:E1; [lia |].
    destruct (secsRemaining w =? 30 - 1) eqn:E2.
    + assert (secsRemaining w = 30 - 1) as -> by lia. lia.
    + destruct (secsRemaining w =? 0) eqn:E3; lia.
  - destruct (secsRemaining w >=? 30) eqn:E1.
    + destruct (secsRemaining w =? 30) eqn:E2; [lia |].
      assert ((secsRemaining w =? 0) = false) as -> by lia. rewrite Hrip. lia.
    + assert ((secsRemaining w =? 30) = false) as -> by lia.
      destruct (secsRemaining w =? 30 - 1) eqn:E2.
      * assert (secsRemaining w = 30 - 1) as Hs29 by lia. rewrite Hs29 in *.
        cbn [Z.eqb]. rewrite Hrip. change (30 - 1 =? 0) with false. cbv iota. lia.
      * destruct (secsRemaining w =? 0) eqn:E3; [lia |]. rewrite Hrip. lia.
  - intros Hf l Hl. fields. destruct (secsRemaining w =? 30) eqn:E2.
    + apply sorted_results_ready; [apply results_ready_round_over | exact Hl].
    + destruct (secsRemaining w =? 0) eqn:E3; [discriminate |]. apply Hres; assumption.
Qed.

Lemma clock_ok_one_shot array_sort w :
  clock_ok w -> is_Some (timeout_pending w) ->
  clock_ok (one_shot_fired array_sort w).
Proof.
  unfold clock_ok. intros H [d Hp]. rewrite Hp in H.
  destruct H as (Hi & Hc & Hs & Hrip & Hres & Hd & _).
  unfold one_shot_fired. fields.
  unfold first_in_lobby, first_secs, first_tick_secs.
  unfold SECS_IN_LOBBY, SECS_IN_COMPLETE_CYCLE in *.
  split; [| split; [| split; [| split]]].
  - rewrite Hc. reflexivity.
  - rewrite Hc. repeat constructor.
  - destruct (secsRemaining w =? 0) eqn:E; lia.
  - destruct (secsRemaining w =? 0) eqn:E; [reflexivity |].
    destruct (secsRemaining w <=? 30) eqn:E2; cbn [negb]; lia.
  - intros Hf l Hl. fields. destruct (_ <=? 30) eqn:E; [| discriminate].
    apply sorted_results_ready; [apply results_ready_round_over | exact Hl].
Qed.

(** [clock_ok] reads the clock, the phase, the results and, while the
    one-shot is pending, the points. *)
Lemma clock_ok_frame w w' :
  secsRemaining w' = secsRemaining w ->
  currentTimerInterval w' = currentTimerInterval w ->
  timeout_pending w' = timeout_pending w ->
  interval_active w' = interval_active w ->
  round_in_progress w' = round_in_progress w ->
  round_results w' = round_results w ->
  (is_Some (timeout_pending w) -> Forall (fun p => points p = JNum 0) (heap w')) ->
  clock_ok w -> clock_ok w'.
Proof.
  unfold clock_ok, results_ready. intros -> -> -> -> -> -> Hz.
  destruct (timeout_pending w); [| exact id].
  intros (H1 & H2 & H3 & H4 & H5 & H6 & _).
  repeat (split; [assumption |]). apply Hz. eauto.
Qed.

(** Out of a round [player_scored] writes no player object of a state
    whose points are never null. *)
Lemma player_scored_lobby request w :
  inv wf_player w -> round_in_progress w = false ->
  outbox_only w (world_of (player_scored request w)).
Proof.
  intros Hwf Hlobby.
  apply (wp_world_of (player_scored request) (outbox_only w)).
  unfold outbox_only, player_scored. wp_run;
    try (eexists; reflexivity);
    try (exists (outbox w); symmetry; apply set_outbox_same);
    try congruence.
  exfalso. simplify_eq.
  match goal with
  | Hp : heap w !! _ = Some ?p, Hn : nullish (points ?p) = true |- _ =>
      pose proof (inv_lookup wf_player w _ p Hwf Hp) as [Hnn _]; congruence
  end.
Qed.

(** While the one-shot is pending no route gives a player points. *)
Lemma zero_points_step array_sort i w :
  match i with OneShotFires | IntervalFires _ _ => False | _ => True end ->
  inv wf_player w -> round_in_progress w = false ->
  Forall (fun p => points p = JNum 0) (heap w) ->
  Forall (fun p => points p = JNum 0) (heap (step array_sort i w)).
Proof.
  intros Hi Hwf Hlobby Hz.
  assert (inv (fun p => points p = JNum 0) w) as Hinv
    by (split; [exact Hz | apply Hwf]).
  assert ((forall request, i <> PlayerScored request) ->
          inv (fun p => points p = JNum 0) (step array_sort i w)) as Hstep.
  { intros Hne. unfold step.
    apply (wp_world_of (handle array_sort i) (inv (fun p => points p = JNum 0))).
    apply (inv_handle (fun p => points p = JNum 0) (fun _ => False));
      try exact Hinv; try reflexivity; try (intros; assumption);
      try (intros; contradiction).
    intros request ->. exfalso. exact (Hne request eq_refl). }
  destruct i as [request | request | request | request | request | |
                 now_adjust now_calibrate];
    try contradiction; try (apply Hstep; discriminate).
  unfold step. cbn [handle].
  destruct (player_scored_lobby request w Hwf Hlobby) as [out ->]. exact Hz.
Qed.

Lemma zero_points_sort w :
  Forall (fun p => points p = JNum 0) (heap w) ->
  forall room, sort_throws (room_entries room w) = false.
Proof.
  intros Hz room. apply sort_throws_forall. intros e He.
  unfold room_entries in He.
  apply list_elem_of_fmap in He as (p & -> & Hp).
  apply list_elem_of_filter in Hp as [_ Hp].
  unfold players in Hp. apply list_elem_of_omap in Hp as (r & _ & Hp).
  rewrite Forall_forall in Hz. cbn.
  rewrite (Hz p) by (eapply list_elem_of_lookup_2; exact Hp). reflexivity.
Qed.

(** With 0 points everywhere the first tick returns. *)
Lemma zero_points_first w :
  Forall (fun p => points p = JNum 0) (heap w) -> first_throws w = false.
Proof.
  intros Hz. unfold first_throws. apply andb_false_iff. right.
  apply negb_false_iff. apply results_ok_round_over.
  unfold play_ok. apply all_sort_forall. intros room _.
  apply zero_points_sort, Hz.
Qed.

Lemma clock_ok_timer_state w w' :
  timer_state w' = timer_state w ->
  (is_Some (timeout_pending w) -> Forall (fun p => points p = JNum 0) (heap w')) ->
  clock_ok w -> clock_ok w'.
Proof.
  unfold timer_state, clock_view. intros H.
  injection H as H1 H2 H3 _ _ H4 H5 H6.
  apply clock_ok_frame; assumption.
Qed.

Lemma clock_ok_step array_sort i w :
  inv wf_player w -> clock_ok w -> clock_ok (step array_sort i w).
Proof.
  intros Hw Hc. destruct i as [request | request | request | request | request | |
                 now_adjust now_calibrate].
  1-5: eapply clock_ok_timer_state;
         [apply routes_keep_timer_state; exact I | | exact Hc];
       intros [d Hd]; unfold clock_ok in Hc; rewrite Hd in Hc;
       destruct Hc as (_ & _ & _ & Hl & _ & _ & Hz);
       apply zero_points_step; [exact I | exact Hw | exact Hl | exact Hz].
  - rewrite step_one_shot by exact Hw.
    destruct (timeout_pending w) eqn:Hp; [| exact Hc].
    assert (first_throws w = false) as ->.
    { unfold clock_ok in Hc. rewrite Hp in Hc.
      destruct Hc as (_ & _ & _ & _ & _ & _ & Hz). apply zero_points_first, Hz. }
    apply clock_ok_one_shot; [exact Hc | rewrite Hp; eauto].
  - rewrite step_interval by exact Hw.
    destruct (interval_active w) eqn:Hi; [| exact Hc].
    assert (timeout_pending w = None) as Hp.
    { unfold clock_ok in Hc. destruct (timeout_pending w); [| reflexivity].
      destruct Hc as [Hn _]. congruence. }
    destruct (tick_throws w).
    + apply (clock_ok_frame w); try reflexivity; [| exact Hc].
      rewrite Hp. intros [? ?]. discriminate.
    + apply clock_ok_ticked; [exact Hc | exact Hp].
Qed.

Lemma reachable_clock_ok array_sort w : reachable array_sort w -> clock_ok w.
Proof.
  intros H. induction H as [now | i w _ Hr IH].
  - apply clock_ok_start.
  - apply clock_ok_step; [apply (reachable_wf array_sort), Hr | exact IH].
Qed.

(** In a reachable state the one-shot returns when it fires. *)
Lemma reachable_first_ok array_sort w :
  reachable array_sort w -> is_Some (timeout_pending w) -> first_throws w = false.
Proof.
  intros Hr [d Hd]. apply reachable_clock_ok in Hr. unfold clock_ok in Hr.
  rewrite Hd in Hr. destruct Hr as (_ & _ & _ & _ & _ & _ & Hz).
  apply zero_points_first, Hz.
Qed.

Lemma reachable_run array_sort inputs w :
  reachable array_sort w -> reachable array_sort (run array_sort inputs w).
Proof.
  revert w. induction inputs as [|i inputs IH]; intros w Hw; [exact Hw |].
  cbn. apply IH. apply reachable_step; [exact I | exact Hw].
Qed.

Lemma reachable_by_weaken array_sort (ok : input -> Prop) w :
  reachable_by array_sort ok w -> reachable array_sort w.
Proof.
  intros H. induction H as [now | i w _ _ IH].
  - apply reachable_start.
  - apply reachable_step; [exact I | exact IH].
Qed.

(** * When a sort throws *)


Lemma all_sort_false (E : Z -> list entry) (l : list Z) :
  all_sort E l = false
  <-> exists room, room ∈ l /\ sort_throws (E room) = true.
Proof.
  rewrite <- not_true_iff_false, all_sort_forall. split.
  - intros H. induction l as [|room l IH].
    + exfalso. apply H. intros room Hin. inversion Hin.
    + destruct (sort_throws (E room)) eqn:Hroom.
      * exists room. split; [left | exact Hroom].
      * destruct IH as (room' & Hin & Hr).
        { intros Hall. apply H. intros r Hr.
          apply elem_of_cons in Hr as [-> | Hr]; [exact Hroom | apply Hall, Hr]. }
        exists room'. split; [right; exact Hin | exact Hr].
  - intros (room & Hin & Hr) Hall. rewrite (Hall room Hin) in Hr. discriminate.
Qed.

(** Points that have a primitive value sort. *)
Lemma coercible_play_ok w :
  Forall (fun p => uncoercible (points p) = false) (heap w) -> play_ok w = true.
Proof.
  intros Hz. unfold play_ok. apply all_sort_forall. intros room _.
  apply sort_throws_forall. intros e He. unfold room_entries in He.
  apply list_elem_of_fmap in He as (p & -> & Hp).
  apply list_elem_of_filter in Hp as [_ Hp].
  unfold players in Hp. apply list_elem_of_omap in Hp as (r & _ & Hp).
  rewrite Forall_forall in Hz. apply Hz.
  eapply list_elem_of_lookup_2. exact Hp.
Qed.

(** As long as the clients report points that have a primitive value, the
    points of every player object have one. *)
Lemma reachable_coercible array_sort w :
  reachable_by array_sort scores_coercible w ->
  Forall (fun p => uncoercible (points p) = false) (heap w).
Proof.
  intros H.
  assert (inv (fun p => uncoercible (points p) = false) w) as [Hinv _]; [| exact Hinv].
  apply (inv_reachable_by (fun p => uncoercible (points p) = false)
           (fun v => nullish v = false -> uncoercible v = false))
    with array_sort scores_coercible; try exact H; simpl; auto.
Qed.

Lemma coercible_tick_returns w :
  Forall (fun p => uncoercible (points p) = false) (heap w) -> tick_throws w = false.
Proof.
  intros H. unfold tick_throws. rewrite (coercible_play_ok w H).
  apply andb_false_r.
Qed.

(** * The sort of the worked examples *)

#[global] Instance by_points_trans : Transitive by_points.
Proof. intros a b c. unfold by_points. lia. Qed.

#[global] Instance by_points_total : Total by_points.
Proof. intros a b. unfold by_points. lia. Qed.

Lemma sort_desc_sorts : sorts sort_desc.
Proof.
  intros l. split.
  - apply merge_sort_Permutation.
  - intros _. apply (StronglySorted_merge_sort by_points).
Qed.

(** What the contract says of a sorted list. *)
Lemma sorts_leaders array_sort (l : list entry) :
  sorts array_sort ->
  array_sort l ≡ₚ l
  /\ (numeric l -> StronglySorted by_points (array_sort l))
  /\ (forall e, e ∈ array_sort l <-> e ∈ l).
Proof.
  intros H. destruct (H l) as [Hp Hs]. split; [exact Hp |]. split; [exact Hs |].
  intros e. rewrite Hp. reflexivity.
Qed.

(** * The tick dispatch (C5) *)

(** The routines a firing of the recurring timer enters. *)
Lemma calls_of_tick_eq array_sort now_adjust now_calibrate w :
  inv wf_player w ->
  calls_of_tick array_sort now_adjust now_calibrate w
  = if tick_throws w then [RtimerTick; RplayTick]
    else tick_trace (secsRemaining w).
Proof.
  intros Hw. unfold calls_of_tick. rewrite timerTick_eq by exact Hw.
  destruct (tick_throws w); cbn.
  - rewrite <- app_assoc. apply drop_app_length.
  - apply drop_app_length.
Qed.

(** The sort of an occupied room throws: the room has two players or more
    and the points of one are an object with a [toString] of its own. *)
Lemma tick_throws_iff w :
  tick_throws w = true
  <-> SECS_IN_LOBBY <= secsRemaining w
      /\ exists room, room ∈ occupied w
           /\ sort_throws (room_entries room w) = true.
Proof.
  unfold tick_throws, play_ok.
  rewrite andb_true_iff, Z.leb_le, negb_true_iff, all_sort_false. reflexivity.
Qed.




(** * Coarse adjustment (C6) *)

Lemma step_wf array_sort i w :
  inv wf_player w -> inv wf_player (step array_sort i w).
Proof.
  intros H. unfold step.
  apply (wp_world_of (handle array_sort i) (inv wf_player)).
  apply (inv_handle wf_player (fun _ => True)); try exact H;
    try (intros; exact I); wf_rules.
Qed.

Lemma timerTick_secs array_sort now_adjust now_calibrate w :
  inv wf_player w ->
  secsRemaining (world_of (timerTick array_sort now_adjust now_calibrate w))
  = if tick_throws w then secsRemaining w
    else tick_secs now_adjust (secsRemaining w).
Proof.
  intros H. rewrite timerTick_eq by exact H.
  destruct (tick_throws w); reflexivity.
Qed.

Lemma route_secs array_sort i w :
  match i with OneShotFires | IntervalFires _ _ => False | _ => True end ->
  secsRemaining (step array_sort i w) = secsRemaining w.
Proof.
  intros Hi. pose proof (routes_keep_timer_state array_sort i w Hi) as Hk.
  unfold timer_state, clock_view in Hk. congruence.
Qed.

(** What an input does to [secsRemaining]: routes leave it alone, and so
    does a timer that throws; a timer that is set and returns counts down
    as [first_tick_secs] and [tick_secs] say. *)
Lemma step_secs array_sort i w :
  inv wf_player w ->
  secsRemaining (step array_sort i w) =
  match i with
  | OneShotFires =>
      if timeout_pending w is Some _
      then if first_throws w then secsRemaining w
           else first_tick_secs (secsRemaining w)
      else secsRemaining w
  | IntervalFires now_adjust _ =>
      if interval_active w is Some _
      then if tick_throws w then secsRemaining w
           else tick_secs now_adjust (secsRemaining w)
      else secsRemaining w
  | _ => secsRemaining w
  end.
Proof.
  intros H. destruct i as [request | request | request | request | request | |
                 now_adjust now_calibrate]; try (apply route_secs; exact I).
  - rewrite step_one_shot by exact H.
    destruct (timeout_pending w); [| reflexivity].
    destruct (first_throws w); reflexivity.
  - rewrite step_interval by exact H.
    destruct (interval_active w); [| reflexivity].
    destruct (tick_throws w); reflexivity.
Qed.

Lemma dropped_bound array_sort inputs w :
  inv wf_player w ->
  same_cycle array_sort inputs w ->
  dropped array_sort inputs w
  <= (if SECS_IN_LOBBY - 1 <=? secsRemaining w then SECS_MAX_SKIP_FWD else 0).
Proof.
  revert w. induction inputs as [|i inputs IH]; intros w Hw Hc; simpl.
  - destruct (_ <=? _); unfold SECS_MAX_SKIP_FWD; lia.
  - destruct Hc as [Hz Hc].
    specialize (IH (step array_sort i w) (step_wf array_sort i w Hw) Hc).
    unfold dropped_by.
    pose proof (step_secs array_sort i w Hw) as Hs.
    set (s := secsRemaining w) in *. set (s' := secsRemaining (step array_sort i w)) in *.
    assert (s' = s \/ (is_timer i /\ (s' = first_tick_secs s \/
              exists now, s' = tick_secs now s))) as Hcases.
    { destruct i as [request | request | request | request | request | |
                     now_adjust now_calibrate]; simpl in Hs; auto.
      - destruct (timeout_pending w); [| left; exact Hs].
        destruct (first_throws w); [left; exact Hs | right].
        split; [exact I | left; exact Hs].
      - destruct (interval_active w); [| left; exact Hs].
        destruct (tick_throws w); [left; exact Hs | right].
        split; [exact I | right; eauto]. }
    clear Hs. unfold SECS_IN_LOBBY, SECS_MAX_SKIP_FWD in *.
    destruct Hcases as [-> | [Ht [-> | [now ->]]]].
    + destruct (30 - 1 <=? s); lia.
    + specialize (Hz Ht). unfold first_tick_secs in *.
      destruct (s =? 0) eqn:E0; [lia |].
      destruct (30 - 1 <=? s) eqn:E1, (30 - 1 <=? s - 1) eqn:E2; lia.
    + specialize (Hz Ht). unfold tick_secs, SECS_IN_LOBBY in *.
      destruct (s >=? 30) eqn:E30.
      { destruct (30 - 1 <=? s) eqn:E1, (30 - 1 <=? s - 1) eqn:E2; lia. }
      destruct (s =? 30 - 1) eqn:E29.
      { assert (s = 30 - 1) as -> by lia.
        pose proof (secs_after_adjust_range now) as Hr.
        unfold SECS_IN_LOBBY, SECS_MAX_SKIP_FWD in Hr. cbv zeta in Hr.
        destruct (30 - 1 <=? secs_after_adjust now (30 - 1) - 1) eqn:E2; simpl; lia. }
      destruct (s =? 0) eqn:E0; [lia |].
      destruct (30 - 1 <=? s) eqn:E1, (30 - 1 <=? s - 1) eqn:E2; lia.
Qed.

(** C6 (as stated) fails: coarse adjustment can run more than once in a
    cycle.  With the wall clock 6 s behind the count, the tick entered with
    29 s left puts the count back to 30, so the next tick is entered with
    29 s left again and adjusts again. *)
Lemma coarse_adjustment_counterexample :
  let w0 := world_of (start 149500 init_world) in
  let inputs :=
    [OneShotFires; IntervalFires 145000 145000; IntervalFires 146000 146000] in
  same_cycle keep_order inputs w0
  /\ ~ (adjust_runs (run keep_order inputs w0) <= 1)%nat.
Proof.
  cbv zeta. split.
  - simpl. repeat split; intros _; vm_compute; discriminate.
  - vm_compute. lia.
Qed.

Lemma secs_after_adjust_div now secs :
  secs_after_adjust now secs =
  let actual := (msecUntilNextGame now + 500) / 1000 in
  if decide (actual = secs) then secs
  else Z.max (secs - SECS_MAX_SKIP_FWD) (Z.min SECS_IN_LOBBY actual).
Proof.
  unfold secs_after_adjust. cbv zeta.
  pose proof (msecUntilNextGame_bounds now) as Hb.
  rewrite Z.quot_div_nonneg by lia.
  destruct (decide _) as [-> | Hne].
  - rewrite Z.eqb_refl. reflexivity.
  - apply Z.eqb_neq in Hne. rewrite Hne. reflexivity.
Qed.

(** C6 (amended): coarse adjustment runs on every tick entered with
    [secsRemaining] = [SECS_IN_LOBBY] - 1, and on no other tick; with
    [actual] the whole seconds the wall clock leaves to the next cycle,
    rounded to the nearest, it sets the count to
    [max (secsRemaining - SECS_MAX_SKIP_FWD) (min SECS_IN_LOBBY actual)]
    when the two differ (the tick then counts one second down); and
    however the wall clock jumps, the inputs of one cycle take at most
    [SECS_MAX_SKIP_FWD] = 9 seconds off the count beyond the second each
    tick counts down. *)
Theorem coarse_adjustment array_sort now_adjust now_calibrate inputs w :
  reachable array_sort w ->
  (In RadjustLobbySecs (calls_of_tick array_sort now_adjust now_calibrate w)
   <-> secsRemaining w = SECS_IN_LOBBY - 1)
  /\ (secsRemaining w = SECS_IN_LOBBY - 1 ->
      let actual := (msecUntilNextGame now_adjust + 500) / 1000 in
      secsRemaining (world_of (timerTick array_sort now_adjust now_calibrate w))
      = (if decide (actual = secsRemaining w) then secsRemaining w
         else Z.max (secsRemaining w - SECS_MAX_SKIP_FWD)
                (Z.min SECS_IN_LOBBY actual)) - 1)
  /\ (same_cycle array_sort inputs w ->
      dropped array_sort inputs w <= SECS_MAX_SKIP_FWD).
Proof.
  intros H. pose proof (reachable_wf array_sort w H) as Hw. split; [| split].
  - rewrite (calls_of_tick_eq array_sort now_adjust now_calibrate w Hw).
    destruct (tick_throws w) eqn:Ht.
    + apply tick_throws_iff in Ht as [Hs _]. unfold SECS_IN_LOBBY in *. cbn.
      split; [intros [E | [E | []]]; discriminate E | lia].
    + clear Ht.
      unfold tick_trace, SECS_IN_LOBBY. generalize (secsRemaining w) as s. intros s.
      destruct (s >=? 30) eqn:Hge; [destruct (s =? 30) eqn:H30 |
        destruct (s =? 30 - 1) eqn:H29; [| destruct (s =? 0) eqn:H0]]; simpl.
      all: split; intros; try lia; auto;
        repeat match goal with
               | H : _ \/ _ |- _ => destruct H
               | H : _ = RadjustLobbySecs |- _ => discriminate H
               | H : False |- _ => contradiction
               end.
  - intros Hs actual.
    rewrite (timerTick_secs array_sort now_adjust now_calibrate w Hw).
    assert (tick_throws w = false) as ->.
    { unfold tick_throws. rewrite Hs. reflexivity. }
    subst actual. rewrite Hs. unfold tick_secs. simpl.
    rewrite secs_after_adjust_div. reflexivity.
  - intros Hc.
    pose proof (dropped_bound array_sort inputs w Hw Hc) as Hb.
    destruct (_ <=? _) in Hb; unfold SECS_MAX_SKIP_FWD in *; lia.
Qed.

(** A wall clock that jumps 14 s ahead while 29 s are left: one tick, and
    no more than 9 s are dropped. *)
Lemma coarse_adjustment_witness :
  let w := step keep_order OneShotFires (world_of (start 149500 init_world)) in
  dropped keep_order [IntervalFires 165000 165000] w <= SECS_MAX_SKIP_FWD.
Proof.
  intros w.
  apply (coarse_adjustment keep_order 0 0 [IntervalFires 165000 165000] w).
  - apply reachable_step; [exact I | apply reachable_start].
  - simpl. split; [intros _; vm_compute; discriminate | exact I].
Defined.

(** * Fine calibration (C7) *)





(** * Scores (C4, C8) *)

(** Alice, in Lobby, reports 9 points: her record keeps its 0 points. *)
Lemma lobby_scores_frozen_witness :
  let request := on_socket 1 "A" (points_data (JNum 9)) in
  heap (world_of (player_scored request lobby_world)) = heap lobby_world.
Proof.
  intros request.
  apply (lobby_scores_frozen keep_order request lobby_world).
  - unfold lobby_world, run. simpl.
    apply reachable_step; [exact I |].
    apply reachable_step; [exact I |].
    apply reachable_start.
  - reflexivity.
Defined.

Lemma play_world_reachable v : reachable keep_order (play_world v).
Proof.
  unfold play_world, run. simpl.
  repeat (apply reachable_step; [exact I |]).
  apply reachable_start.
Qed.

(** C8 (as stated) fails: during Play the server stores the points a client
    reports as they come; a client that reports -5 is registered with -5. *)
Lemma points_counterexample :
  ~ (forall w, reachable keep_order w ->
     forall sid p, player_of sid w = Some p -> nonneg_int (points p)).
Proof.
  intros H.
  destruct (H (play_world (JNum (-5))) (play_world_reachable _) "A"%string
              (mkPlayer "Alice" (JNum (-5)) 2 true 1) eq_refl)
    as (z & Hz & Hpos).
  simpl in Hz. injection Hz as <-. lia.
Qed.

(** C8 (amended): in every reachable state the points of every registered
    player are neither undefined nor null: they are 0 or a value that a
    [player_scored] request carried for its points (whatever set [S] the
    values of these requests are taken from, the points are 0 or in [S]);
    they are a non-negative integer in every state reached by inputs whose
    [player_scored] requests carry non-negative integers.  (The server
    stores the points a client reports without a check on their sign or
    type.) *)
Theorem points_nonneg array_sort w sid r :
  registry_get sid w = Some r ->
  (reachable array_sort w ->
   exists p, heap w !! r = Some p /\ nullish (points p) = false)
  /\ (forall S : jsval -> Prop,
      reachable_by array_sort (scores_in S) w ->
      exists p, heap w !! r = Some p
        /\ (points p = JNum 0 \/ S (points p) /\ nullish (points p) = false))
  /\ (reachable_by array_sort scores_nonneg w ->
      exists p, heap w !! r = Some p /\ nonneg_int (points p)).
Proof.
  intros Hreg. apply registry_get_registered in Hreg. split; [| split].
  - intros H. apply reachable_wf in H.
    destruct (inv_registered wf_player w r H Hreg) as (p & Hp & Hn & _). eauto.
  - intros S H.
    assert (inv (fun p => points p = JNum 0
                          \/ S (points p) /\ nullish (points p) = false) w) as Hinv.
    { apply (inv_reachable_by
               (fun p => points p = JNum 0
                         \/ S (points p) /\ nullish (points p) = false)
               (fun v => nullish v = false -> S v))
        with array_sort (scores_in S); try exact H; simpl; auto. }
    destruct (inv_registered _ w r Hinv Hreg) as (p & Hp & Hn). eauto.
  - intros H.
    assert (inv (fun p => nonneg_int (points p)) w) as Hinv.
    { apply (inv_reachable_by (fun p => nonneg_int (points p))
               (fun v => nullish v = false -> nonneg_int v))
        with array_sort scores_nonneg; try exact H; simpl; auto.
      - intros. exists 0. split; [reflexivity | lia].
      - intros. exists 0. split; [reflexivity | lia]. }
    destruct (inv_registered _ w r Hinv Hreg) as (p & Hp & Hn). eauto.
Qed.

(** Alice reports 7 points during Play. *)
Lemma points_nonneg_witness :
  exists p, heap (play_world (JNum 7)) !! 0%nat = Some p /\ nonneg_int (points p).
Proof.
  apply (points_nonneg keep_order (play_world (JNum 7)) "A" 0%nat eq_refl).
  unfold play_world, run. simpl.
  apply reachable_step; [simpl; intros _; exists 7; split; [reflexivity | lia] |].
  apply reachable_step; [exact I |].
  apply reachable_step; [exact I |].
  apply reachable_start.
Defined.

(** * Validation of the room (C9, C10) *)

Lemma determineDifficultyLevel_accepts request w s r :
  truthy (data request) = true ->
  truthy (get_prop (data request) "profile") = true ->
  nullish (get_prop (get_prop (data request) "profile") "difficulty_level") = false ->
  ToString (get_prop (get_prop (data request) "profile") "difficulty_level") = Some s ->
  parseInt s = Some r ->
  level_ok r ->
  determineDifficultyLevel request w = Ret r w.
Proof.
  intros Hd Hp Hn Hs Hi Hr. unfold determineDifficultyLevel.
  rewrite Hd, Hp, Hn, Hs, Hi. simpl.
  unfold level_ok in Hr.
  destruct ((r <? MIN_ROOM_NUM) || (r >=? MIN_ROOM_NUM + NUM_ROOMS)) eqn:E;
    [lia | reflexivity].
Qed.




(** * What the routes do to the registry and the rooms *)

Lemma outbox_only_refl w : outbox_only w w.
Proof. exists (outbox w). symmetry. apply set_outbox_same. Qed.

Lemma outbox_only_trans w1 w2 w3 :
  outbox_only w1 w2 -> outbox_only w2 w3 -> outbox_only w1 w3.
Proof. intros [o1 ->] [o2 ->]. exists o2. reflexivity. Qed.

Lemma gamers_in_pure lvl refs gamers w :
  wp (gamers_in lvl refs gamers) (fun _ w' => w' = w) (fun w' => w' = w) w.
Proof.
  revert gamers. induction refs as [|q refs IH]; intros gamers; simpl.
  - reflexivity.
  - wp_run; auto.
Qed.

Lemma emitPlayersAlreadyInRoom_outbox request r w :
  wp (emitPlayersAlreadyInRoom request r) (fun _ => outbox_only w) (outbox_only w) w.
Proof.
  unfold emitPlayersAlreadyInRoom. wp_run; [| apply outbox_only_refl].
  eapply wp_mono; [apply gamers_in_pure | cbv beta | cbv beta].
  - intros g w' ->. wp_run. eexists. reflexivity.
  - intros w' ->. apply outbox_only_refl.
Qed.

Lemma emitRoundEventAndResults_outbox io b room w :
  wp (emitRoundEventAndResults io b room) (fun _ => outbox_only w) (outbox_only w) w.
Proof.
  unfold emitRoundEventAndResults. wp_run; eexists; reflexivity.
Qed.

(** Every way [determineDifficultyLevel] can end. *)
Lemma determineDifficultyLevel_cases request w :
  (exists l, level_ok l /\ determineDifficultyLevel request w = Ret l w)
  \/ (exists m, determineDifficultyLevel request w = Ret (-1) (sent m w))
  \/ determineDifficultyLevel request w = Throw TypeError w.
Proof.
  unfold determineDifficultyLevel.
  destruct (negb (truthy (data request))); [right; left; eexists; reflexivity |].
  destruct (negb (truthy (get_prop (data request) "profile")));
    [right; left; eexists; reflexivity |].
  destruct (nullish _); [right; left; eexists; reflexivity |].
  destruct (ToString _) as [s|]; [| right; right; reflexivity].
  destruct (parseInt s) as [l|]; [| right; left; eexists; reflexivity].
  destruct ((l <? MIN_ROOM_NUM) || (l >=? MIN_ROOM_NUM + NUM_ROOMS)) eqn:E;
    [right; left; eexists; reflexivity |].
  left. exists l. split; [unfold level_ok; lia | reflexivity].
Qed.

Lemma level_ok_not_error l : level_ok l -> (l =? -1) = false.
Proof. unfold level_ok, MIN_ROOM_NUM. lia. Qed.

(** The tail of [client_ready] and of [change_room]: the two emits touch
    nothing but the outbox. *)
Lemma emits_outbox request r (b : bool) room w :
  wp (bind (emitPlayersAlreadyInRoom request r) (fun _ =>
        bind (gets round_in_progress) (fun in_progress =>
          emitRoundEventAndResults (sock request) in_progress room)))
     (fun _ => outbox_only w) (outbox_only w) w.
Proof.
  wp_prim.
  eapply wp_mono; [apply emitPlayersAlreadyInRoom_outbox | cbv beta | auto].
  intros ? w1 H1. wp_prim. wp_prim.
  eapply wp_mono; [apply emitRoundEventAndResults_outbox | cbv beta | cbv beta];
    intros; eapply outbox_only_trans; eassumption.
Qed.

Lemma set_num_guests_same w : set_num_guests (num_guests w) w = w.
Proof. destruct w; reflexivity. Qed.

Lemma determineTag_effect request w :
  wp (determineTag request)
     (fun _ w' => exists n, w' = set_num_guests n w)
     (fun w' => w' = w /\ ~ tag_ok request) w.
Proof.
  unfold determineTag, tag_ok, guest_tag.
  destruct (get_prop (get_prop (data request) "profile") "player_tag");
    wp_run; try (split; [reflexivity | tauto]);
    try (eexists; reflexivity).
  exists (num_guests w). symmetry. apply set_num_guests_same.
Qed.

Lemma client_ready_effect request w :
  registry_get (sessionID request) w = None ->
  wp (client_ready request)
     (fun _ w1 =>
        (exists m, determineDifficultyLevel request w = Ret (-1) (sent m w)
                   /\ w1 = sent m w)
        \/ created request w w1)
     (fun w1 => created request w w1 \/ ~ tag_ok request \/ session request = None
                \/ determineDifficultyLevel request w = Throw TypeError w)
     w.
Proof.
  intros Hreg. unfold client_ready. apply wp_bind.
  destruct (determineDifficultyLevel_cases request w)
    as [(l & Hl & Hd) | [(m & Hd) | Hd]];
    unfold wp at 1; rewrite Hd.
  2: { simpl. left. eauto. }
  2: { simpl. right. right. right. reflexivity. }
  rewrite (level_ok_not_error l Hl).
  unfold checkClientAlreadyConnected. wp_prim. wp_prim. wp_prim. rewrite Hreg.
  wp_prim. apply wp_bind.
  assert (forall tag n,
    wp (bind (gets round_in_progress) (fun in_progress =>
          bind (alloc (mkPlayer tag (JNum 0) l in_progress 1)) (fun r =>
          bind (modify (set_player_global (Some (SRef r)))) (fun _ =>
          bind (modify (fun w => set_all_players_list
                  (assoc_set (sessionID request) (Some r) (all_players_list w)) w))
            (fun _ =>
          bind (set_session_player request (SRef r)) (fun _ =>
          bind (deref r) (fun p =>
          bind (send (ToSocket (sock request)) "client_confirmed" (PPlayer p))
            (fun _ =>
          bind (attachPlayerToRoom request r) (fun _ =>
          bind (emitPlayersAlreadyInRoom request r) (fun _ =>
          bind (gets round_in_progress) (fun in_progress =>
            emitRoundEventAndResults (sock request) in_progress l)))))))))))
      (fun _ w1 => created request w w1)
      (fun w1 => created request w w1 \/ session request = None)
      (set_num_guests n w)) as Hrest.
  { intros tag n. wp_prim. wp_prim. wp_prim. wp_prim. wp_prim. wp_prim.
    wp_prim. wp_prim. wp_prim.
    destruct (session request) as [k|] eqn:Hk.
    2: { unfold set_session_player, session_obj. rewrite Hk.
         wp_prim. wp_prim. right. reflexivity. }
    unfold set_session_player, session_obj. rewrite Hk.
    wp_prim. wp_prim. wp_prim. wp_prim. apply wp_deref. simpl.
    rewrite list_lookup_middle by reflexivity.
    wp_prim. unfold send. wp_prim. wp_prim.
    unfold attachPlayerToRoom. wp_prim. apply wp_deref. simpl.
    rewrite list_lookup_middle by reflexivity.
    wp_prim. wp_prim. wp_prim. wp_prim. wp_prim. unfold send. wp_prim. simpl.
    eapply wp_mono; [apply (emits_outbox request _ true l) | cbv beta | cbv beta].
    - intros ? w1 [out ->]. exists tag, l, k, n.
      split; [assumption |]. split; [assumption |]. split; [assumption |].
      eexists. reflexivity.
    - intros w1 [out ->]. left. exists tag, l, k, n.
      split; [assumption |]. split; [assumption |]. split; [assumption |].
      eexists. reflexivity. }
  eapply wp_mono; [apply determineTag_effect | cbv beta | cbv beta].
  - intros tag w' [n ->].
    eapply wp_mono; [apply Hrest | auto | cbv beta; tauto].
  - intros w' [_ Htag]. tauto.
Qed.

Lemma checkClientAlreadyConnected_new request w :
  registry_get (sessionID request) w = None ->
  checkClientAlreadyConnected request w = Ret false w.
Proof.
  intros H. unfold checkClientAlreadyConnected. unfold bind, gets. rewrite H.
  reflexivity.
Qed.

Lemma checkClientAlreadyConnected_again request k r p w :
  registry_get (sessionID request) w = Some r ->
  session request = Some k -> heap w !! r = Some p ->
  checkClientAlreadyConnected request w = Ret true (counted_again k r p w).
Proof.
  intros H Hk Hp. unfold checkClientAlreadyConnected. unfold bind at 1, gets. rewrite H.
  unfold bind at 1, set_session_player, session_obj. rewrite Hk.
  unfold bind at 1, ret at 1, modify at 1.
  unfold bind at 1, update. unfold bind at 1, deref. fields. rewrite Hp.
  reflexivity.
Qed.

Lemma client_ready_again request l k r p w :
  determineDifficultyLevel request w = Ret l w -> level_ok l ->
  registry_get (sessionID request) w = Some r ->
  session request = Some k -> heap w !! r = Some p ->
  client_ready request w = Ret tt (counted_again k r p w).
Proof.
  intros Hd Hl Hreg Hk Hp. unfold client_ready.
  unfold bind at 1. rewrite Hd. rewrite (level_ok_not_error l Hl).
  unfold bind at 1. rewrite (checkClientAlreadyConnected_again _ k r p) by assumption.
  reflexivity.
Qed.

Lemma assoc_get_set_eq {A} k (v : A) l : assoc_get k (assoc_set k v l) = Some v.
Proof.
  induction l as [|[k' v'] l IH]; simpl.
  - rewrite String.eqb_refl. reflexivity.
  - destruct (String.eqb k k') eqn:E; simpl; rewrite E; [reflexivity | exact IH].
Qed.

Lemma assoc_get_set_ne {A} k k' (v : A) l :
  k <> k' -> assoc_get k' (assoc_set k v l) = assoc_get k' l.
Proof.
  intros Hne. induction l as [|[k0 v0] l IH]; simpl.
  - apply String.eqb_neq in Hne. rewrite String.eqb_sym, Hne. reflexivity.
  - destruct (String.eqb k k0) eqn:E; simpl.
    + apply String.eqb_eq in E. subst k0.
      apply String.eqb_neq in Hne. rewrite String.eqb_sym, Hne. reflexivity.
    + rewrite IH. reflexivity.
Qed.

Lemma assoc_set_set {A} k (v v' : A) l :
  assoc_set k v (assoc_set k v' l) = assoc_set k v l.
Proof.
  induction l as [|[k0 v0] l IH]; simpl.
  - rewrite String.eqb_refl. reflexivity.
  - destruct (String.eqb k k0) eqn:E; simpl; rewrite E; [reflexivity |].
    rewrite IH. reflexivity.
Qed.

Lemma assoc_set_same {A} k (v : A) l :
  assoc_get k l = Some v -> assoc_set k v l = l.
Proof.
  induction l as [|[k0 v0] l IH]; simpl; [discriminate |].
  destruct (String.eqb k k0) eqn:E.
  - intros [= ->]. reflexivity.
  - intros H. rewrite (IH H). reflexivity.
Qed.

Lemma wp_get_session_player request k v Q E w :
  session request = Some k ->
  default SUndefined (sessions w !! k) = v ->
  Q v w ->
  wp (get_session_player request) Q E w.
Proof.
  intros Hk Hv HQ. unfold get_session_player, session_obj. rewrite Hk.
  wp_prim. wp_prim. wp_prim. rewrite Hv. exact HQ.
Qed.

Lemma created_player_of request w w1 r :
  determineDifficultyLevel request w = Ret r w ->
  created request w w1 ->
  diff_lvl <$> player_of (sessionID request) w1 = Some r
  /\ (sock request, r) ∈ joined w1
  /\ roomCount w1 = alter Z.succ r (roomCount w).
Proof.
  intros Hd (tag & l & k & n & Hd' & Hl & Hk & out & ->).
  rewrite Hd in Hd'. injection Hd' as <-.
  unfold player_of, registry_get. simpl.
  rewrite assoc_get_set_eq. rewrite list_lookup_middle by reflexivity. simpl.
  repeat split. set_solver.
Qed.

(** C10 (as stated) fails: "1.9" parses to room 1 and the request is
    accepted without an error, yet a [client_ready] of a session that is
    already connected only counts one more reference; Alice stays in
    room 2. *)
Lemma lenient_room_counterexample :
  let request := on_socket 2 "A" (profile_data (JStr "Alice") (JStr "1.9")) in
  let w' := world_of (client_ready request lobby_world) in
  parseInt "1.9" = Some 1
  /\ outbox w' = outbox lobby_world
  /\ ~ (diff_lvl <$> player_of "A" w' = Some 1).
Proof.
  cbv zeta. split; [vm_compute; reflexivity |].
  split; [vm_compute; reflexivity |].
  vm_compute. discriminate.
Qed.

(** C10 (amended): a room field that is a string whose numeric prefix
    [parseInt] maps to a room id is accepted by the validation, which
    returns that id and sends no error; a [client_ready] that creates the
    player record (session not yet registered, session object present, tag
    a string or absent) places the player in that room, whereas a
    [client_ready] of a session that is registered already only counts one
    more reference on its player object and leaves the room, the registry,
    the room counts, the membership and the outbox as they were; a
    [change_room] that goes past its same-level test records that room for
    the player of the session.  "Invalid difficulty level" is sent only
    when [parseInt] yields NaN. *)
Theorem lenient_room_accepted request w s r :
  get_prop (get_prop (data request) "profile") "difficulty_level" = JStr s ->
  parseInt s = Some r ->
  level_ok r ->
  determineDifficultyLevel request w = Ret r w
  /\ (registry_get (sessionID request) w = None ->
      is_Some (session request) ->
      tag_ok request ->
      let w' := world_of (client_ready request w) in
      diff_lvl <$> player_of (sessionID request) w' = Some r
      /\ (sock request, r) ∈ joined w'
      /\ roomCount w' = alter Z.succ r (roomCount w))
  /\ (forall k q p,
      registry_get (sessionID request) w = Some q ->
      session request = Some k -> heap w !! q = Some p ->
      let w' := world_of (client_ready request w) in
      client_ready request w = Ret tt w'
      /\ heap w' = <[q := set_ref_count (ref_count p + 1) p]> (heap w)
      /\ player_of (sessionID request) w'
         = Some (set_ref_count (ref_count p + 1) p)
      /\ all_players_list w' = all_players_list w
      /\ roomCount w' = roomCount w
      /\ joined w' = joined w
      /\ outbox w' = outbox w)
  /\ (forall g gp k p pp,
      player_global w = Some (SRef g) -> heap w !! g = Some gp ->
      diff_lvl gp <> r ->
      session request = Some k -> sessions w !! k = Some (SRef p) ->
      heap w !! p = Some pp ->
      let w' := world_of (change_room request w) in
      diff_lvl <$> heap w' !! p = Some r
      /\ (sock request, r) ∈ joined w')
  /\ (forall request' w' user_input,
      outbox (world_of (determineDifficultyLevel request' w'))
      = outbox w' ++ [error_client_ready request' "Invalid difficulty level"
                        user_input] ->
      exists s',
        ToString (get_prop (get_prop (data request') "profile")
                    "difficulty_level") = Some s'
        /\ parseInt s' = None).
Proof.
  intros Hlvl Hparse Hr.
  assert (determineDifficultyLevel request w = Ret r w) as Hd.
  { apply (determineDifficultyLevel_accepts request w s r); try assumption.
    - destruct (data request); try discriminate Hlvl. reflexivity.
    - destruct (get_prop (data request) "profile"); try discriminate Hlvl. reflexivity.
    - rewrite Hlvl. reflexivity.
    - rewrite Hlvl. reflexivity. }
  split; [exact Hd |]. split; [| split; [| split]].
  - intros Hreg [k Hk] Htag w'.
    apply (created_player_of request w w' r Hd).
    pose proof (client_ready_effect request w Hreg) as He.
    subst w'. unfold wp in He.
    destruct (client_ready request w) as [[] w1 | e w1]; simpl.
    + destruct He as [(m & Hm & _) | Hc]; [| exact Hc].
      rewrite Hd in Hm. injection Hm as Hm _.
      unfold level_ok, MIN_ROOM_NUM in Hr. lia.
    + destruct He as [Hc | [Hn | [Hn | Hn]]];
        [exact Hc | tauto | congruence | congruence].
  - intros k q p Hreg Hk Hp w'. subst w'.
    rewrite (client_ready_again request r k q p w Hd Hr Hreg Hk Hp).
    unfold world_of, counted_again, player_of, registry_get. fields.
    unfold registry_get in Hreg. rewrite Hreg.
    rewrite list_lookup_insert_eq by (eapply lookup_lt_Some; exact Hp).
    repeat split.
  - intros g gp k p pp Hg Hgp Hne Hk Hs Hp w'. subst w'.
    apply (wp_world_of (change_room request)
             (fun w' => diff_lvl <$> heap w' !! p = Some r
                        /\ (sock request, r) ∈ joined w')).
    unfold change_room. apply wp_bind. unfold wp at 1. rewrite Hd.
    rewrite (level_ok_not_error r Hr).
    wp_prim. wp_prim. rewrite Hg. cbv iota beta.
    wp_prim. unfold sval_ref at 1. wp_prim. wp_prim.
    apply wp_deref. rewrite Hgp. wp_prim.
    apply (wp_get_session_player request k (SRef p)); [exact Hk | rewrite Hs; reflexivity |].
    wp_prim. wp_prim.
    assert ((r =? diff_lvl gp) = false) as -> by lia.
    wp_prim. unfold detachPlayerFromRoom. wp_prim.
    apply (wp_get_session_player request k (SRef p));
      [exact Hk | simpl; rewrite Hs; reflexivity |].
    wp_prim. unfold sval_ref at 1. wp_prim. wp_prim.
    apply wp_deref. simpl. rewrite Hp.
    wp_prim. wp_prim. wp_prim. wp_prim. wp_prim. wp_prim.
    assert (forall W,
      heap W = heap w ->
      wp (bind (sval_ref (SRef p)) (fun r0 =>
            bind (update r0 (set_diff_lvl r)) (fun _ =>
            bind (attachPlayerToRoom request r0) (fun _ =>
            bind (emitPlayersAlreadyInRoom request r0) (fun _ =>
            bind (gets round_in_progress) (fun in_progress =>
              emitRoundEventAndResults (sock request) in_progress (diff_lvl gp)))))))
         (fun _ w' => diff_lvl <$> heap w' !! p = Some r
                      /\ (sock request, r) ∈ joined w')
         (fun w' => diff_lvl <$> heap w' !! p = Some r
                    /\ (sock request, r) ∈ joined w') W) as Hrest.
    { intros W HW. wp_prim. unfold sval_ref. wp_prim. wp_prim.
      unfold update at 1. wp_prim.
      apply wp_deref. rewrite HW, Hp. wp_prim.
      assert (<[p := set_diff_lvl r pp]> (heap w) !! p = Some (set_diff_lvl r pp))
        as Hp2.
      { apply list_lookup_insert_eq. eapply lookup_lt_Some. exact Hp. }
      unfold attachPlayerToRoom. wp_prim. wp_prim. apply wp_deref. simpl.
      rewrite HW, Hp2.
      wp_prim. wp_prim. wp_prim. wp_prim. wp_prim. unfold send. wp_prim. simpl.
      eapply wp_mono;
        [ apply (emits_outbox request p true (diff_lvl gp))
        | cbv beta; intros ? w1 [out ->]
        | cbv beta; intros w1 [out ->] ].
      all: simpl; rewrite ?HW, Hp2; simpl; split; [reflexivity | set_solver]. }
    destruct (0 <? _).
    + unfold send. wp_prim. wp_prim. apply Hrest. reflexivity.
    + wp_prim. apply Hrest. reflexivity.
  - clear. intros request' w' user_input Hout.
    unfold determineDifficultyLevel in Hout.
    destruct (negb (truthy (data request'))).
    { simpl in Hout. apply app_inv_head in Hout. discriminate Hout. }
    destruct (negb (truthy (get_prop (data request') "profile"))).
    { simpl in Hout. apply app_inv_head in Hout. discriminate Hout. }
    destruct (nullish _).
    { simpl in Hout. apply app_inv_head in Hout. discriminate Hout. }
    destruct (ToString _) as [s'|].
    2: { simpl in Hout. rewrite <- (app_nil_r (outbox w')) in Hout at 1.
         apply app_inv_head in Hout. discriminate Hout. }
    destruct (parseInt s') as [l|] eqn:Hparse; [| eauto].
    destruct ((l <? MIN_ROOM_NUM) || (l >=? MIN_ROOM_NUM + NUM_ROOMS)).
    { simpl in Hout. apply app_inv_head in Hout. discriminate Hout. }
    simpl in Hout. rewrite <- (app_nil_r (outbox w')) in Hout at 1.
    apply app_inv_head in Hout. discriminate Hout.
Qed.

(** The room field "3abc" is accepted as room 3. *)
Lemma lenient_room_accepted_witness :
  let request := on_socket 1 "A" (profile_data JNull (JStr "3abc")) in
  determineDifficultyLevel request init_world = Ret 3 init_world.
Proof.
  intros request.
  apply (lenient_room_accepted request init_world "3abc" 3).
  - reflexivity.
  - reflexivity.
  - unfold level_ok, MIN_ROOM_NUM, NUM_ROOMS. lia.
Defined.

(** * [change_room] to the room the player is in (C2) *)

(** When the global [player] is the requester's own object, a
    [change_room] to the room that object is in returns at the same-level
    test and leaves the state as it was. *)
Lemma change_room_own_record request w k p pp :
  player_global w = Some (SRef p) ->
  session request = Some k -> sessions w !! k = Some (SRef p) ->
  heap w !! p = Some pp ->
  determineDifficultyLevel request w = Ret (diff_lvl pp) w ->
  level_ok (diff_lvl pp) ->
  change_room request w = Ret tt w.
Proof.
  intros Hg Hk Hs Hp Hd Hl.
  unfold change_room. unfold bind at 1. rewrite Hd.
  rewrite (level_ok_not_error _ Hl).
  unfold bind at 1, gets at 1. rewrite Hg. cbv iota beta.
  unfold bind at 1, sval_ref at 1, ret at 1.
  unfold bind at 1, deref at 1. rewrite Hp.
  unfold bind at 1, get_session_player at 1, session_obj. rewrite Hk.
  unfold bind at 1, ret at 1, gets at 1. rewrite Hs. simpl.
  unfold bind at 1, modify at 1. rewrite Z.eqb_refl.
  unfold ret. f_equal. rewrite <- Hg. destruct w; reflexivity.
Qed.

(** C2 (the code departs from the claim): Alice is in room 0 and asks for
    room 0, but Bob, in room 1, joined last, so [change_room] compares the
    new room with Bob's.  It then takes Alice out of room 0 and puts her
    back, announces her to room "0" and sends her the list of players and
    the round event. *)
Theorem change_room_same_level_sends :
  let request := on_socket 1 "A" (profile_data (JStr "Alice") (JStr "0")) in
  diff_lvl <$> player_of "A" two_rooms_world = Some 0
  /\ determineDifficultyLevel request two_rooms_world = Ret 0 two_rooms_world
  /\ exists w',
       change_room request two_rooms_world = Ret tt w'
       /\ outbox w' =
            outbox two_rooms_world ++
            [mkMsg (ToRoomExcept "0" 1) "gamer_entered_room"
               (PEntry ("Alice"%string, JNum 0));
             mkMsg (ToSocket 1) "gamers_already_in_room"
               (PLeaders [("Alice"%string, JNum 0)]);
             mkMsg (ToSocket 1) "round_started" (PSecs 150)].
Proof.
  cbv zeta. split; [vm_compute; reflexivity |].
  split; [vm_compute; reflexivity |].
  eexists. split; vm_compute; reflexivity.
Qed.

(** * Attach, then detach (C3) *)

Lemma alter_pred_succ (l : Z) (m : gmap Z Z) :
  alter Z.pred l (alter Z.succ l m) = m.
Proof.
  apply map_eq. intros i. rewrite !lookup_alter.
  repeat case_decide; try congruence. subst i.
  destruct (m !! l); simpl; [rewrite Z.pred_succ |]; reflexivity.
Qed.

Lemma registry_get_assoc_set sid r w W :
  all_players_list W = assoc_set sid (Some r) (all_players_list w) ->
  registry_get sid W = Some r.
Proof.
  intros H. unfold registry_get. rewrite H, assoc_get_set_eq. reflexivity.
Qed.

Lemma created_attached request w w1 :
  created request w w1 ->
  exists l, level_ok l
    /\ attached (sessionID request) (sock request) l (length (heap w)) w w1.
Proof.
  intros (tag & l & k & n & _ & Hl & _ & out & ->).
  exists l. split; [exact Hl |]. unfold attached. simpl.
  rewrite list_lookup_middle by reflexivity. repeat split. eauto.
Qed.

Section RoundTrip.

Variables (sid : string) (sock0 : nat) (l : Z) (p : nat) (w : world).

Lemma attached_frame W W' :
  heap W' = heap W -> all_players_list W' = all_players_list W ->
  roomCount W' = roomCount W -> joined W' = joined W ->
  attached sid sock0 l p w W -> attached sid sock0 l p w W'.
Proof. unfold attached. intros -> -> -> ->. auto. Qed.

Lemma attached_client_ready request W :
  sessionID request = sid ->
  attached sid sock0 l p w W ->
  wp (client_ready request) (fun _ => attached sid sock0 l p w) (fun _ => True) W.
Proof.
  intros Hsid HW. unfold client_ready. wp_prim.
  eapply wp_mono;
    [ apply (determineDifficultyLevel_wp (attached sid sock0 l p w));
      [exact HW | intros m W' H; eapply attached_frame; [..| exact H]; reflexivity]
    | cbv beta; intros lvl W1 [HW1 _] | cbv beta; auto ].
  wp_prim; [exact HW1 |].
  wp_prim. unfold checkClientAlreadyConnected. wp_prim. wp_prim.
  destruct HW1 as ((pl & Hpl & Hlvl) & Hreg & Hrc & Hj).
  rewrite Hsid, (registry_get_assoc_set sid p w W1 Hreg).
  wp_prim. unfold set_session_player, session_obj.
  destruct (session request) as [k|]; [| wp_prim; wp_prim; exact I].
  wp_prim. wp_prim. wp_prim. wp_prim. unfold update. wp_prim.
  apply wp_deref. simpl. rewrite Hpl. wp_prim. wp_prim. wp_prim.
  unfold attached. simpl.
  rewrite list_lookup_insert_eq by (eapply lookup_lt_Some; exact Hpl).
  repeat split; eauto.
Qed.

Lemma attached_disconnect request W :
  sessionID request = sid ->
  bound request p W ->
  attached sid sock0 l p w W ->
  wp (disconnect request)
     (fun _ W' =>
        (attached sid sock0 l p w W' /\ ref_count_at p W' <> Some 0)
        \/ (detached sid sock0 l (sock request) w W' /\ ref_count_at p W' = Some 0))
     (fun _ => True) W.
Proof.
  intros Hsid (k & Hk & Hs) ((pl & Hpl & Hlvl) & Hreg & Hrc & Hj).
  unfold disconnect. wp_prim.
  apply (wp_get_session_player request k (SRef p)); [exact Hk | rewrite Hs; reflexivity |].
  cbv iota beta. wp_prim. unfold sval_ref at 1. wp_prim. wp_prim.
  unfold update. wp_prim. apply wp_deref. rewrite Hpl. wp_prim. wp_prim.
  assert (<[p := set_ref_count (ref_count pl - 1) pl]> (heap W) !! p
          = Some (set_ref_count (ref_count pl - 1) pl)) as Hpl2.
  { apply list_lookup_insert_eq. eapply lookup_lt_Some. exact Hpl. }
  apply wp_deref. simpl. rewrite Hpl2. simpl.
  destruct (ref_count pl - 1 =? 0) eqn:Hz; simpl.
  - wp_prim. unfold detachPlayerFromRoom. wp_prim.
    apply (wp_get_session_player request k (SRef p));
      [exact Hk | simpl; rewrite Hs; reflexivity |].
    wp_prim. unfold sval_ref at 1. wp_prim. wp_prim.
    apply wp_deref. simpl. rewrite Hpl2. simpl.
    wp_prim. wp_prim. wp_prim. wp_prim. wp_prim. wp_prim. simpl.
    assert (forall W2,
      heap W2 = <[p := set_ref_count (ref_count pl - 1) pl]> (heap W) ->
      all_players_list W2 = all_players_list W ->
      roomCount W2 = alter Z.pred (diff_lvl pl) (roomCount W) ->
      joined W2 = joined W ∖ {[ (sock request, diff_lvl pl) ]} ->
      wp (bind (modify (fun w0 => set_all_players_list
                   (assoc_set (sessionID request) None (all_players_list w0)) w0))
            (fun _ => set_session_player request SNull))
         (fun _ W' =>
            (attached sid sock0 l p w W' /\ ref_count_at p W' <> Some 0)
            \/ (detached sid sock0 l (sock request) w W' /\ ref_count_at p W' = Some 0))
         (fun _ => True) W2) as Hrest.
    { intros W2 H1 H2 H3 H4. wp_prim. wp_prim.
      unfold set_session_player, session_obj. rewrite Hk.
      wp_prim. wp_prim. wp_prim. right. unfold detached, ref_count_at. simpl.
      rewrite H1, H2, H3, H4, Hpl2, Hreg, Hrc, Hj, Hsid, Hlvl.
      rewrite assoc_set_set, alter_pred_succ. simpl.
      repeat split. f_equal. lia. }
    destruct (0 <? _).
    + unfold send. wp_prim. apply Hrest; reflexivity.
    + wp_prim. apply Hrest; reflexivity.
  - wp_prim. left. unfold attached, ref_count_at. simpl. rewrite Hpl2. simpl.
    split; [repeat split; eauto |]. intros [= H]. lia.
Qed.

Lemma session_run_detached last W W' :
  session_run sid p last W W' ->
  attached sid sock0 l p w W ->
  detached sid sock0 l last w W'.
Proof.
  intros Hrun. induction Hrun as
    [request W W' Hsid Hb Hlast Hd Hz
    | request W W1 W' Hsid Hb Hd Hnz Hrun IH
    | request W W1 W' Hsid Hc Hrun IH]; intros HW.
  - pose proof (attached_disconnect request W Hsid Hb HW) as H.
    unfold wp in H. rewrite Hd in H. destruct H as [[_ Hn] | [H _]].
    + contradiction.
    + rewrite <- Hlast. exact H.
  - pose proof (attached_disconnect request W Hsid Hb HW) as H.
    unfold wp in H. rewrite Hd in H. destruct H as [[H _] | [_ Hn]].
    + apply IH. exact H.
    + contradiction.
  - pose proof (attached_client_ready request W Hsid HW) as H.
    unfold wp in H. rewrite Hc in H. apply IH. exact H.
Qed.

End RoundTrip.

(** C3 (as stated) fails: after an attach and the detach that brings the
    reference count to zero, the registry holds the session id with the
    value null, where it held nothing before. *)
Lemma attach_detach_counterexample :
  let request := on_socket 1 "A" (profile_data (JStr "Alice") (JStr "1")) in
  let w1 := world_of (client_ready request empty_lobby_world) in
  let w2 := world_of (disconnect request w1) in
  session_run "A" 0 1 w1 w2
  /\ all_players_list w2 <> all_players_list empty_lobby_world.
Proof.
  cbv zeta. split.
  - apply (run_last "A" 0 1 (on_socket 1 "A" (profile_data (JStr "Alice") (JStr "1")))).
    + reflexivity.
    + exists 1%nat. split; vm_compute; reflexivity.
    + reflexivity.
    + vm_compute. reflexivity.
    + vm_compute. reflexivity.
  - vm_compute. discriminate.
Qed.

(** C3 (amended): a [client_ready] that creates the player record, followed
    by [client_ready]s and [disconnect]s of that session up to the
    [disconnect] that brings the reference count to zero, leaves [roomCount]
    as it was before the attach and changes the registry at the session's
    own entry only, which is left with the value null instead of being
    removed: the registry is as before when that entry was null already.
    Of the membership, the socket that attached was joined to the room and
    the socket of the last detach was taken out of it; membership is as
    before when these are the same socket. *)
Theorem attach_detach_roundtrip request w w1 p last w' :
  registry_get (sessionID request) w = None ->
  client_ready request w = Ret tt w1 ->
  registry_get (sessionID request) w1 = Some p ->
  session_run (sessionID request) p last w1 w' ->
  all_players_list w'
  = assoc_set (sessionID request) None (all_players_list w)
  /\ registry_get (sessionID request) w' = None
  /\ (forall sid, sid <> sessionID request ->
      assoc_get sid (all_players_list w') = assoc_get sid (all_players_list w))
  /\ (assoc_get (sessionID request) (all_players_list w) = Some None ->
      all_players_list w' = all_players_list w)
  /\ roomCount w' = roomCount w
  /\ exists l,
       level_ok l
       /\ joined w' = ({[ (sock request, l) ]} ∪ joined w) ∖ {[ (last, l) ]}
       /\ (last = sock request -> (sock request, l) ∉ joined w ->
           joined w' = joined w).
Proof.
  intros Hnone Hready Hsome Hrun.
  pose proof (client_ready_effect request w Hnone) as He.
  unfold wp in He. rewrite Hready in He.
  destruct He as [(m & _ & ->) | Hc].
  { unfold registry_get in *. simpl in Hsome. congruence. }
  destruct (created_attached request w w1 Hc) as (l & Hl & Ha).
  assert (p = length (heap w)) as ->.
  { destruct Ha as (_ & Hreg & _).
    rewrite (registry_get_assoc_set _ _ w w1 Hreg) in Hsome. congruence. }
  pose proof (session_run_detached _ _ _ _ _ _ _ _ Hrun Ha) as (Hreg & Hrc & Hj).
  split; [exact Hreg |]. split; [| split; [| split; [| split]]].
  - unfold registry_get. rewrite Hreg, assoc_get_set_eq. reflexivity.
  - intros sid Hne. rewrite Hreg. apply assoc_get_set_ne. congruence.
  - intros Hnull. rewrite Hreg. apply assoc_set_same. exact Hnull.
  - exact Hrc.
  - exists l. split; [exact Hl |]. split; [exact Hj |].
    intros -> Hnotin. rewrite Hj. apply set_eq. intros x.
    rewrite elem_of_difference, elem_of_union, elem_of_singleton. split.
    + intros [[Hx | Hx] Hn]; [contradiction | exact Hx].
    + intros Hx. split; [right; exact Hx |]. intros ->. contradiction.
Qed.

(** Two tabs of one session: attach on socket 1, attach on socket 2, then
    both disconnect. *)
Lemma attach_detach_roundtrip_witness :
  let request := on_socket 1 "A" (profile_data (JStr "Alice") (JStr "1")) in
  let again := on_socket 2 "A" (profile_data (JStr "Alice") (JStr "1")) in
  let w1 := world_of (client_ready request empty_lobby_world) in
  let w2 := world_of (client_ready again w1) in
  let w3 := world_of (disconnect request w2) in
  let w4 := world_of (disconnect again w3) in
  roomCount w4 = roomCount empty_lobby_world.
Proof.
  intros request again w1 w2 w3 w4.
  assert (session_run (sessionID request) 0 2 w1 w4) as Hrun.
  { apply (run_attach "A" 0 2 again w1 w2); [reflexivity | vm_compute; reflexivity |].
    apply (run_detach "A" 0 2 request w2 w3);
      [ reflexivity | exists 1%nat; split; vm_compute; reflexivity
      | vm_compute; reflexivity | vm_compute; discriminate |].
    apply (run_last "A" 0 2 again w3 w4);
      [ reflexivity | exists 2%nat; split; vm_compute; reflexivity
      | reflexivity | vm_compute; reflexivity | vm_compute; reflexivity ]. }
  destruct (attach_detach_roundtrip request empty_lobby_world w1 0 2 w4)
    as (_ & _ & _ & _ & H & _).
  - vm_compute. reflexivity.
  - vm_compute. reflexivity.
  - vm_compute. reflexivity.
  - exact Hrun.
  - exact H.
Defined.

(** * The registry and the occupancy of the rooms *)

Lemma registered_set_new sid r (l : list (string * option nat)) :
  (forall q, assoc_get sid l <> Some (Some q)) ->
  omap snd (assoc_set sid (Some r) l) ≡ₚ r :: omap snd l.
Proof.
  induction l as [|[k v] l IH]; intros Hnone; cbn [assoc_set].
  - reflexivity.
  - cbn [assoc_get] in Hnone. destruct (String.eqb sid k).
    + destruct v as [q|]; [exfalso; apply (Hnone q); reflexivity |]. reflexivity.
    + cbn [omap list_omap]. destruct v as [x|]; cbn [snd].
      * rewrite (IH Hnone). apply Permutation_swap.
      * apply IH, Hnone.
Qed.

Lemma registered_set_elem sid (v : option nat) (l : list (string * option nat)) x :
  x ∈ omap snd (assoc_set sid v l) -> v = Some x \/ x ∈ omap snd l.
Proof.
  induction l as [|[k v'] l IH]; cbn [assoc_set].
  - destruct v as [y|]; cbn; intros Hin.
    + apply list_elem_of_singleton in Hin. left. congruence.
    + inversion Hin.
  - destruct (String.eqb sid k).
    + destruct v as [y|], v' as [z|]; cbn; intros Hin.
      * apply elem_of_cons in Hin as [-> | Hin]; [left; reflexivity |].
        right. apply elem_of_cons. right. exact Hin.
      * apply elem_of_cons in Hin as [-> | Hin]; [left; reflexivity | right; exact Hin].
      * right. apply elem_of_cons. right. exact Hin.
      * right. exact Hin.
    + destruct v' as [z|]; cbn; intros Hin.
      * apply elem_of_cons in Hin as [-> | Hin].
        -- right. apply elem_of_cons. left. reflexivity.
        -- destruct (IH Hin) as [H | H]; [left; exact H |].
           right. apply elem_of_cons. right. exact H.
      * apply IH, Hin.
Qed.

Lemma registered_set_over sid r (l : list (string * option nat)) :
  NoDup (omap snd l) -> r ∉ omap snd l ->
  NoDup (omap snd (assoc_set sid (Some r) l)).
Proof.
  induction l as [|[k v] l IH]; intros Hnd Hr; cbn [assoc_set].
  - cbn. apply NoDup_singleton.
  - destruct (String.eqb sid k).
    + destruct v as [x|]; cbn in *.
      * apply NoDup_cons in Hnd as [Hx Hnd]. apply NoDup_cons.
        split; [| exact Hnd]. intros Hin. apply Hr. apply elem_of_cons. right. exact Hin.
      * apply NoDup_cons. split; assumption.
    + destruct v as [x|]; cbn in *.
      * apply NoDup_cons in Hnd as [Hx Hnd].
        assert (r <> x) as Hne by (intros ->; apply Hr; apply elem_of_cons; left; reflexivity).
        assert (r ∉ omap snd l) as Hr' by (intros Hin; apply Hr; apply elem_of_cons; right; exact Hin).
        apply NoDup_cons. split; [| apply IH; assumption].
        intros Hin. apply registered_set_elem in Hin as [[= H] | H]; [congruence | exact (Hx H)].
      * apply IH; assumption.
Qed.

Lemma registered_set_null sid r (l : list (string * option nat)) :
  assoc_get sid l = Some (Some r) ->
  omap snd l ≡ₚ r :: omap snd (assoc_set sid None l).
Proof.
  induction l as [|[k v] l IH]; cbn [assoc_get assoc_set]; [discriminate |].
  destruct (String.eqb sid k).
  - intros [= ->]. reflexivity.
  - intros H. cbn [omap list_omap]. destruct v as [x|]; cbn [snd].
    + rewrite (IH H). apply Permutation_swap.
    + apply IH, H.
Qed.

Lemma registered_set_null_sub sid (l : list (string * option nat)) :
  NoDup (omap snd l) -> NoDup (omap snd (assoc_set sid None l)).
Proof.
  induction l as [|[k v] l IH]; cbn [assoc_set]; intros Hnd.
  - constructor.
  - destruct (String.eqb sid k).
    + destruct v; cbn in *; [apply NoDup_cons in Hnd as [_ Hnd] |]; exact Hnd.
    + destruct v as [x|]; cbn in *; [| apply IH, Hnd].
      apply NoDup_cons in Hnd as [Hx Hnd]. apply NoDup_cons. split; [| apply IH, Hnd].
      intros Hin. apply registered_set_elem in Hin as [[=] | H]. exact (Hx H).
Qed.
Lemma registry_ok_frame w W :
  length (heap W) = length (heap w) ->
  all_players_list W = all_players_list w ->
  registry_ok w -> registry_ok W.
Proof.
  unfold registry_ok, refs_ok, registered. intros -> ->. exact id.
Qed.

Lemma registry_ok_register w W p sid :
  registry_ok w ->
  heap W = heap w ++ [p] ->
  all_players_list W
  = assoc_set sid (Some (length (heap w))) (all_players_list w) ->
  registry_ok W.
Proof.
  unfold registry_ok, refs_ok, registered. intros [Hnd Hr] -> ->. split.
  - apply registered_set_over; [exact Hnd |].
    intros Hin. rewrite Forall_forall in Hr. specialize (Hr _ Hin). lia.
  - rewrite length_app. cbn. apply registered_assoc_set_Some.
    + eapply Forall_impl; [exact Hr |]. cbn. intros; lia.
    + lia.
Qed.

Lemma registry_ok_grow w W p :
  registry_ok w ->
  heap W = heap w ++ [p] ->
  all_players_list W = all_players_list w ->
  registry_ok W.
Proof.
  unfold registry_ok, refs_ok, registered. intros [Hnd Hr] -> ->. split; [exact Hnd |].
  rewrite length_app. eapply Forall_impl; [exact Hr |]. cbn. intros; lia.
Qed.

Lemma registry_ok_unregister w W sid :
  registry_ok w ->
  length (heap W) = length (heap w) ->
  all_players_list W = assoc_set sid None (all_players_list w) ->
  registry_ok W.
Proof.
  unfold registry_ok, refs_ok, registered. intros [Hnd Hr] -> ->. split.
  - apply registered_set_null_sub, Hnd.
  - apply registered_assoc_set_None, Hr.
Qed.

Ltac registry_solve :=
  match goal with
  | H : registry_ok ?w0 |- registry_ok ?W =>
      first
        [ exact H
        | apply (registry_ok_frame w0 W);
          [ fields; rewrite ?length_insert; reflexivity
          | fields; reflexivity
          | exact H ] ]
  end.

Lemma registry_determineDifficultyLevel request w :
  registry_ok w ->
  wp (determineDifficultyLevel request)
     (fun l w' => registry_ok w' /\ (l = -1 \/ level_ok l)) registry_ok w.
Proof.
  intros Hw. apply determineDifficultyLevel_wp; [exact Hw |].
  intros m w' Hw'. registry_solve.
Qed.

Lemma registry_checkClientAlreadyConnected request w :
  registry_ok w ->
  wp (checkClientAlreadyConnected request) (fun _ => registry_ok) registry_ok w.
Proof. intros Hw. unfold checkClientAlreadyConnected. wp_run; registry_solve. Qed.

Lemma registry_determineTag request w :
  registry_ok w -> wp (determineTag request) (fun _ => registry_ok) registry_ok w.
Proof. intros Hw. unfold determineTag. wp_run; registry_solve. Qed.

Lemma registry_attachPlayerToRoom request r w :
  registry_ok w ->
  wp (attachPlayerToRoom request r) (fun _ => registry_ok) registry_ok w.
Proof. intros Hw. unfold attachPlayerToRoom. wp_run; registry_solve. Qed.

Lemma registry_detachPlayerFromRoom request w :
  registry_ok w ->
  wp (detachPlayerFromRoom request) (fun _ => registry_ok) registry_ok w.
Proof. intros Hw. unfold detachPlayerFromRoom. wp_run; registry_solve. Qed.

Lemma registry_emits request r room w :
  registry_ok w ->
  wp (bind (emitPlayersAlreadyInRoom request r) (fun _ =>
        bind (gets round_in_progress) (fun in_progress =>
          emitRoundEventAndResults (sock request) in_progress room)))
     (fun _ => registry_ok) registry_ok w.
Proof.
  intros Hw.
  eapply wp_mono; [apply (emits_outbox request r true room w) | cbv beta | cbv beta].
  - intros _ w' [out ->]. registry_solve.
  - intros w' [out ->]. registry_solve.
Qed.

Lemma registry_client_ready request w :
  registry_ok w -> wp (client_ready request) (fun _ => registry_ok) registry_ok w.
Proof.
  intros Hw. unfold client_ready. wp_prim.
  eapply wp_mono; [apply registry_determineDifficultyLevel; exact Hw
                  | cbv beta; intros l w1 [Hw1 _] | cbv beta; auto ].
  wp_prim; [exact Hw1 |]. wp_prim.
  eapply wp_mono; [apply registry_checkClientAlreadyConnected; exact Hw1
                  | cbv beta; intros c w2 Hw2 | cbv beta; auto ].
  wp_prim; [exact Hw2 |]. wp_prim.
  eapply wp_mono; [apply registry_determineTag; exact Hw2
                  | cbv beta; intros tag w3 Hw3 | cbv beta; auto ].
  assert (forall W b, heap W = heap w3 ++ [mkPlayer tag (JNum 0) l b 1] ->
            all_players_list W =
              assoc_set (sessionID request) (Some (length (heap w3)))
                (all_players_list w3) -> registry_ok W) as Hreg.
  { intros W b HW1 HW2. eapply registry_ok_register; eassumption. }
  assert (forall W b, heap W = heap w3 ++ [mkPlayer tag (JNum 0) l b 1] ->
            all_players_list W = all_players_list w3 -> registry_ok W) as Hgrow.
  { intros W b HW1 HW2. eapply registry_ok_grow; eassumption. }
  wp_run; try (eapply Hreg; reflexivity); try (eapply Hgrow; reflexivity).
  eapply wp_mono;
    [ apply registry_attachPlayerToRoom; eapply Hreg; reflexivity
    | cbv beta; intros ? w4 Hw4 | auto ].
  apply registry_emits. exact Hw4.
Qed.

Lemma registry_change_room request w :
  registry_ok w -> wp (change_room request) (fun _ => registry_ok) registry_ok w.
Proof.
  intros Hw. unfold change_room. wp_prim.
  eapply wp_mono; [apply registry_determineDifficultyLevel; exact Hw
                  | cbv beta; intros l w1 [Hw1 _] | cbv beta; auto ].
  wp_run; try registry_solve.
  eapply wp_mono;
    [ apply registry_detachPlayerFromRoom; registry_solve
    | cbv beta; intros ? w2 Hw2 | cbv beta; auto ].
  wp_run; try registry_solve.
  eapply wp_mono;
    [ apply registry_attachPlayerToRoom; registry_solve
    | cbv beta; intros ? w3 Hw3 | auto ].
  apply registry_emits. exact Hw3.
Qed.

Lemma registry_disconnect request w :
  registry_ok w -> wp (disconnect request) (fun _ => registry_ok) registry_ok w.
Proof.
  intros Hw. unfold disconnect.
  wp_run; try registry_solve.
  all: eapply wp_mono;
    [ apply registry_detachPlayerFromRoom; registry_solve
    | cbv beta; intros ? w2 Hw2 | cbv beta; auto ].
  all: wp_run; try assumption.
  all: eapply registry_ok_unregister; [eassumption | reflexivity | reflexivity].
Qed.

Lemma registry_player_scored request w :
  registry_ok w -> wp (player_scored request) (fun _ => registry_ok) registry_ok w.
Proof. intros Hw. unfold player_scored. wp_run; registry_solve. Qed.

Lemma registry_request_final_score request w :
  registry_ok w ->
  wp (request_final_score request) (fun _ => registry_ok) registry_ok w.
Proof. intros Hw. unfold request_final_score. wp_run; registry_solve. Qed.

Lemma registry_ok_step array_sort i w :
  inv wf_player w -> registry_ok w -> registry_ok (step array_sort i w).
Proof.
  intros Hi Hw. destruct i as [request | request | request | request | request | |
                 now_adjust now_calibrate].
  1-5: unfold step; apply (wp_world_of _ registry_ok); cbn [handle].
  - apply registry_client_ready, Hw.
  - apply registry_change_room, Hw.
  - apply registry_disconnect, Hw.
  - apply registry_player_scored, Hw.
  - apply registry_request_final_score, Hw.
  - rewrite step_one_shot by exact Hi. destruct (timeout_pending w); [| exact Hw].
    destruct (first_throws w);
      [apply (registry_ok_frame w); [reflexivity | reflexivity | exact Hw] |].
    apply (registry_ok_frame w); [| reflexivity | exact Hw].
    unfold one_shot_fired. fields.
    destruct (first_in_lobby w); [reflexivity | apply reset_scores_length].
  - rewrite step_interval by exact Hi. destruct (interval_active w); [| exact Hw].
    destruct (tick_throws w);
      [apply (registry_ok_frame w); [reflexivity | reflexivity | exact Hw] |].
    apply (registry_ok_frame w); [| reflexivity | exact Hw].
    unfold ticked, tick_heap. fields.
    destruct (_ =? 0); [apply reset_scores_length | reflexivity].
Qed.

Lemma registry_ok_init : registry_ok init_world.
Proof. split; constructor. Qed.

Lemma reachable_registry_ok array_sort w :
  reachable array_sort w -> registry_ok w.
Proof.
  intros H. induction H as [now | i w _ Hr IH].
  - apply (registry_ok_frame init_world); [reflexivity | reflexivity |].
    apply registry_ok_init.
  - apply registry_ok_step; [apply (reachable_wf array_sort), Hr | exact IH].
Qed.

(** * What the workers of route.js leave *)

Lemma attachPlayerToRoom_eq request r p w :
  heap w !! r = Some p ->
  attachPlayerToRoom request r w = Ret tt (entered_room request p w).
Proof.
  intros Hp. unfold attachPlayerToRoom. unfold bind at 1, deref. rewrite Hp.
  reflexivity.
Qed.

Lemma detachPlayerFromRoom_eq request k r p w :
  session request = Some k -> sessions w !! k = Some (SRef r) ->
  heap w !! r = Some p ->
  detachPlayerFromRoom request w = Ret tt (left_room request p w).
Proof.
  intros Hk Hs Hp. unfold detachPlayerFromRoom, left_room.
  unfold bind at 1, get_session_player, session_obj. rewrite Hk.
  unfold bind at 1, ret at 1, gets at 1. rewrite Hs. cbn [from_option]. unfold id.
  unfold bind at 1, sval_ref, ret at 1. unfold bind at 1, deref. rewrite Hp.
  unfold bind at 1, modify at 1. unfold bind at 1, modify at 1.
  unfold bind at 1, gets at 1. cbv zeta.
  destruct (0 <? _); reflexivity.
Qed.

Lemma gamers_in_eq lvl refs gamers w :
  Forall (fun r => is_Some (heap w !! r)) refs ->
  gamers_in lvl refs gamers w
  = Ret (gamers ++ (entry_of <$> filter (fun p => diff_lvl p = lvl)
                                  (omap (fun r => heap w !! r) refs))) w.
Proof.
  revert gamers. induction refs as [|q refs IH]; intros gamers Hrefs.
  - cbn. rewrite app_nil_r. reflexivity.
  - inversion Hrefs as [|? ? [p Hp] Hrest]; subst.
    cbn [gamers_in]. unfold bind at 1, deref. rewrite Hp.
    cbn [omap list_omap]. rewrite Hp. rewrite filter_cons.
    destruct (decide (diff_lvl p = lvl)) as [He | Hne].
    + apply Z.eqb_eq in He. rewrite He. rewrite IH by exact Hrest.
      rewrite <- app_assoc. reflexivity.
    + apply Z.eqb_neq in Hne. rewrite Hne. apply IH, Hrest.
Qed.

Lemma refs_ok_lookups w : refs_ok w -> Forall (fun r => is_Some (heap w !! r)) (registered w).
Proof.
  unfold refs_ok. intros H. eapply Forall_impl; [exact H |]. intros r Hr.
  apply lookup_lt_is_Some. exact Hr.
Qed.

Lemma emitPlayersAlreadyInRoom_eq request r p w :
  refs_ok w -> heap w !! r = Some p ->
  emitPlayersAlreadyInRoom request r w
  = Ret tt (sent (gamers_already_in_room request (diff_lvl p) w) w).
Proof.
  intros Hr Hp. unfold emitPlayersAlreadyInRoom. unfold bind at 1, deref. rewrite Hp.
  unfold bind at 1, gets at 1. unfold bind at 1.
  rewrite gamers_in_eq by (apply refs_ok_lookups, Hr). reflexivity.
Qed.

(** * [client_ready], case by case *)

Lemma determineTag_bad request w :
  ~ tag_ok request -> determineTag request w = Throw TypeError w.
Proof.
  unfold tag_ok, determineTag.
  destruct (get_prop (get_prop (data request) "profile") "player_tag");
    intros H; try reflexivity; exfalso; apply H; exact I.
Qed.

Lemma determineTag_ok request w :
  tag_ok request ->
  exists tag n, determineTag request w = Ret tag (set_num_guests n w).
Proof.
  intros Hok. pose proof (determineTag_effect request w) as H. unfold wp in H.
  destruct (determineTag request w) as [tag w' | e w'].
  - destruct H as [n ->]. eauto.
  - destruct H as [_ H]. contradiction.
Qed.

Lemma tag_ok_dec request : {tag_ok request} + {~ tag_ok request}.
Proof.
  unfold tag_ok.
  destruct (get_prop (get_prop (data request) "profile") "player_tag");
    first [left; exact I | right; exact id].
Qed.

Lemma refs_ok_registering request tag l k n w :
  refs_ok w -> refs_ok (registering request tag l k n w).
Proof.
  unfold refs_ok, registered, registering. fields. intros Hr.
  rewrite length_app. cbn. apply registered_assoc_set_Some.
  - eapply Forall_impl; [exact Hr |]. cbn. intros; lia.
  - lia.
Qed.

(** A [client_ready] that creates a player: everything up to the round
    event is fixed by the request and the state. *)
Lemma client_ready_new request l tag n k w :
  refs_ok w ->
  determineDifficultyLevel request w = Ret l w -> level_ok l ->
  registry_get (sessionID request) w = None ->
  determineTag request w = Ret tag (set_num_guests n w) ->
  session request = Some k ->
  client_ready request w
  = emitRoundEventAndResults (sock request) (round_in_progress w) l
      (welcomed request tag l k n w).
Proof.
  intros Hr Hd Hl Hreg Htag Hk. unfold client_ready.
  unfold bind at 1. rewrite Hd. rewrite (level_ok_not_error l Hl).
  unfold bind at 1. rewrite (checkClientAlreadyConnected_new _ _ Hreg).
  unfold bind at 1. rewrite Htag.
  unfold bind at 1, gets at 1. fields.
  unfold bind at 1, alloc at 1. fields.
  unfold bind at 1, modify at 1. unfold bind at 1, modify at 1.
  unfold bind at 1, set_session_player, session_obj. rewrite Hk.
  unfold bind at 1, ret at 1, modify at 1.
  unfold bind at 1, deref at 1. fields.
  rewrite list_lookup_middle by reflexivity.
  unfold bind at 1, send at 1, modify at 1.
  unfold bind at 1.
  rewrite (attachPlayerToRoom_eq _ _ (new_player tag l w))
    by (fields; apply list_lookup_middle; reflexivity).
  unfold bind at 1.
  rewrite (emitPlayersAlreadyInRoom_eq _ _ (new_player tag l w)).
  - unfold bind at 1, gets at 1. unfold welcomed, entered_room, registering. fields.
    f_equal. world_eq. rewrite <- !app_assoc. reflexivity.
  - apply (refs_ok_registering request tag l k n w) in Hr. exact Hr.
  - fields. apply list_lookup_middle. reflexivity.
Qed.
Lemma client_ready_rejected request m w :
  determineDifficultyLevel request w = Ret (-1) (sent m w) ->
  client_ready request w = Ret tt (sent m w).
Proof. intros Hd. unfold client_ready. unfold bind at 1. rewrite Hd. reflexivity. Qed.

Lemma client_ready_bad_tag request l w :
  determineDifficultyLevel request w = Ret l w -> level_ok l ->
  registry_get (sessionID request) w = None ->
  ~ tag_ok request ->
  client_ready request w = Throw TypeError w.
Proof.
  intros Hd Hl Hreg Htag. unfold client_ready.
  unfold bind at 1. rewrite Hd. rewrite (level_ok_not_error l Hl).
  unfold bind at 1. rewrite (checkClientAlreadyConnected_new _ _ Hreg).
  unfold bind at 1. rewrite (determineTag_bad _ _ Htag). reflexivity.
Qed.

Lemma registry_get_usable w sid r :
  refs_ok w -> registry_get sid w = Some r -> is_Some (heap w !! r).
Proof.
  intros Hr H. apply registry_get_registered in H.
  unfold refs_ok in Hr. rewrite Forall_forall in Hr.
  apply lookup_lt_is_Some, Hr, H.
Qed.

Lemma welcomed_outbox request tag l k n w :
  outbox_only (registering request tag l k n w) (welcomed request tag l k n w).
Proof. eexists. reflexivity. Qed.

Lemma emitRoundEventAndResults_world io b room w :
  outbox_only w (world_of (emitRoundEventAndResults io b room w)).
Proof.
  apply (wp_world_of (emitRoundEventAndResults io b room) (outbox_only w)).
  apply emitRoundEventAndResults_outbox.
Qed.

(** Every way a [client_ready] that comes with a session object can end. *)
Lemma client_ready_shape request w :
  refs_ok w -> is_Some (session request) ->
  let W := world_of (client_ready request w) in
  outbox_only w W
  \/ (exists k r p,
        registry_get (sessionID request) w = Some r /\ heap w !! r = Some p
        /\ W = counted_again k r p w)
  \/ (registry_get (sessionID request) w = None /\ created request w W).
Proof.
  intros Hr [k Hk] W. subst W.
  destruct (determineDifficultyLevel_cases request w)
    as [(l & Hl & Hd) | [(m & Hd) | Hd]].
  2: { left. rewrite (client_ready_rejected _ m) by exact Hd. eexists. reflexivity. }
  2: { left. unfold client_ready. unfold bind at 1. rewrite Hd.
       apply outbox_only_refl. }
  destruct (registry_get (sessionID request) w) as [r|] eqn:Hreg.
  - right. left. destruct (registry_get_usable w _ r Hr Hreg) as [p Hp].
    exists k, r, p. rewrite (client_ready_again _ l k r p) by assumption. auto.
  - destruct (tag_ok_dec request) as [Hok | Hbad].
    + right. right. split; [reflexivity |].
      destruct (determineTag_ok request w Hok) as (tag & n & Htag).
      rewrite (client_ready_new request l tag n k) by assumption.
      exists tag, l, k, n.
      split; [exact Hd |]. split; [exact Hl |]. split; [exact Hk |].
      eapply outbox_only_trans; [apply welcomed_outbox |].
      apply emitRoundEventAndResults_world.
    + left. rewrite (client_ready_bad_tag _ l) by assumption. apply outbox_only_refl.
Qed.

(** * [disconnect], case by case *)

Lemma disconnect_undefined request k w :
  session request = Some k -> default SUndefined (sessions w !! k) = SUndefined ->
  disconnect request w = Ret tt w.
Proof.
  intros Hk Hs. unfold disconnect.
  unfold bind at 1, get_session_player, session_obj. rewrite Hk.
  unfold bind at 1, ret at 1, gets at 1. rewrite Hs. reflexivity.
Qed.

Lemma disconnect_no_session request w :
  session request = None -> disconnect request w = Throw TypeError w.
Proof.
  intros Hk. unfold disconnect.
  unfold bind at 1, get_session_player, session_obj. rewrite Hk. reflexivity.
Qed.

Lemma disconnect_null request k w :
  session request = Some k -> sessions w !! k = Some SNull ->
  disconnect request w = Throw TypeError w.
Proof.
  intros Hk Hs. unfold disconnect.
  unfold bind at 1, get_session_player, session_obj. rewrite Hk.
  unfold bind at 1, ret at 1, gets at 1. rewrite Hs. reflexivity.
Qed.

Lemma disconnect_dangling request k r w :
  session request = Some k -> sessions w !! k = Some (SRef r) ->
  heap w !! r = None ->
  disconnect request w = Throw TypeError w.
Proof.
  intros Hk Hs Hp. unfold disconnect.
  unfold bind at 1, get_session_player, session_obj. rewrite Hk.
  unfold bind at 1, ret at 1, gets at 1. rewrite Hs. cbn [from_option]. unfold id.
  unfold bind at 1, sval_ref, ret at 1.
  unfold bind at 1, update. unfold bind at 1, deref. rewrite Hp. reflexivity.
Qed.

Lemma disconnect_ref request k r p w :
  session request = Some k -> sessions w !! k = Some (SRef r) ->
  heap w !! r = Some p ->
  disconnect request w
  = Ret tt (if ref_count p - 1 =? 0 then disconnected request k r p w
            else set_heap (<[r := set_ref_count (ref_count p - 1) p]> (heap w)) w).
Proof.
  intros Hk Hs Hp. unfold disconnect.
  unfold bind at 1, get_session_player, session_obj. rewrite Hk.
  unfold bind at 1, ret at 1, gets at 1. rewrite Hs. cbn [from_option]. unfold id.
  unfold bind at 1, sval_ref, ret at 1.
  unfold bind at 1, update. unfold bind at 1, deref at 1. rewrite Hp.
  unfold modify at 1. unfold bind at 1, deref at 1. fields.
  rewrite list_lookup_insert_eq by (eapply lookup_lt_Some; exact Hp).
  cbn [ref_count set_ref_count].
  destruct (ref_count p - 1 =? 0) eqn:Hz; cbn [negb]; [| reflexivity].
  unfold bind at 1.
  rewrite (detachPlayerFromRoom_eq request k r (set_ref_count (ref_count p - 1) p)).
  - unfold bind at 1, modify at 1. unfold set_session_player, session_obj. rewrite Hk.
    unfold bind, ret, modify. reflexivity.
  - exact Hk.
  - exact Hs.
  - fields. apply list_lookup_insert_eq. eapply lookup_lt_Some. exact Hp.
Qed.

(** Every way a [disconnect] can end. *)
Lemma disconnect_shape request w :
  let W := world_of (disconnect request w) in
  W = w
  \/ exists k r p,
       session request = Some k /\ sessions w !! k = Some (SRef r)
       /\ heap w !! r = Some p
       /\ W = (if ref_count p - 1 =? 0 then disconnected request k r p w
               else set_heap (<[r := set_ref_count (ref_count p - 1) p]> (heap w)) w).
Proof.
  intros W. subst W.
  destruct (session request) as [k|] eqn:Hk.
  2: { left. rewrite disconnect_no_session by exact Hk. reflexivity. }
  destruct (sessions w !! k) as [[| |r]|] eqn:Hs.
  - left. rewrite (disconnect_undefined _ k) by (try assumption; rewrite Hs; reflexivity).
    reflexivity.
  - left. rewrite (disconnect_null _ k) by assumption. reflexivity.
  - destruct (heap w !! r) as [p|] eqn:Hp.
    + right. exists k, r, p. rewrite (disconnect_ref _ k r p) by assumption. auto.
    + left. rewrite (disconnect_dangling _ k r) by assumption. reflexivity.
  - left. rewrite (disconnect_undefined _ k) by (try assumption; rewrite Hs; reflexivity).
    reflexivity.
Qed.

(** * [change_room], case by case *)

Lemma left_room_heap request p w : heap (left_room request p w) = heap w.
Proof. unfold left_room. cbv zeta. destruct (0 <? _); reflexivity. Qed.

Lemma left_room_registry request p w :
  all_players_list (left_room request p w) = all_players_list w.
Proof. unfold left_room. cbv zeta. destruct (0 <? _); reflexivity. Qed.

Lemma left_room_roomCount request p w :
  roomCount (left_room request p w) = alter Z.pred (diff_lvl p) (roomCount w).
Proof. unfold left_room. cbv zeta. destruct (0 <? _); reflexivity. Qed.

Lemma left_room_sessions request p w :
  sessions (left_room request p w) = sessions w.
Proof. unfold left_room. cbv zeta. destruct (0 <? _); reflexivity. Qed.

Lemma left_room_phase request p w :
  round_in_progress (left_room request p w) = round_in_progress w.
Proof. unfold left_room. cbv zeta. destruct (0 <? _); reflexivity. Qed.

Lemma refs_ok_frame w W :
  length (heap W) = length (heap w) -> all_players_list W = all_players_list w ->
  refs_ok w -> refs_ok W.
Proof. unfold refs_ok, registered. intros -> ->. exact id. Qed.

(** The head of [change_room]: the level is valid and the global [player]
    is the object [gp]. *)
Lemma change_room_head request l g gp k w :
  determineDifficultyLevel request w = Ret l w -> level_ok l ->
  player_global w = Some (SRef g) -> heap w !! g = Some gp ->
  session request = Some k ->
  change_room request w
  = (if l =? diff_lvl gp then ret tt
     else
       detachPlayerFromRoom request ;;
       r ← sval_ref (default SUndefined (sessions w !! k));
       update r (set_diff_lvl l) ;;
       attachPlayerToRoom request r ;;
       emitPlayersAlreadyInRoom request r ;;
       in_progress ← gets round_in_progress;
       emitRoundEventAndResults (sock request) in_progress (diff_lvl gp))
      (set_player_global (Some (default SUndefined (sessions w !! k))) w).
Proof.
  intros Hd Hl Hg Hgp Hk. unfold change_room.
  unfold bind at 1. rewrite Hd. rewrite (level_ok_not_error l Hl).
  unfold bind at 1, gets at 1. rewrite Hg.
  unfold bind at 1, sval_ref at 1, ret at 1.
  unfold bind at 1, deref at 1. rewrite Hgp.
  unfold bind at 1, get_session_player at 1, session_obj. rewrite Hk.
  unfold bind at 1, ret at 1, gets at 1.
  unfold bind at 1, modify at 1. reflexivity.
Qed.

Lemma change_room_moves request l g gp k r p w :
  refs_ok w ->
  determineDifficultyLevel request w = Ret l w -> level_ok l ->
  player_global w = Some (SRef g) -> heap w !! g = Some gp ->
  l <> diff_lvl gp ->
  session request = Some k -> sessions w !! k = Some (SRef r) ->
  heap w !! r = Some p ->
  change_room request w
  = emitRoundEventAndResults (sock request) (round_in_progress w) (diff_lvl gp)
      (sent (gamers_already_in_room request l (room_changed request r p l w))
         (room_changed request r p l w)).
Proof.
  intros Hr Hd Hl Hg Hgp Hne Hk Hs Hp.
  rewrite (change_room_head request l g gp k) by assumption.
  rewrite Hs. cbn [from_option]. unfold id.
  apply Z.eqb_neq in Hne. rewrite Hne.
  set (W1 := set_player_global (Some (SRef r)) w).
  unfold bind at 1.
  rewrite (detachPlayerFromRoom_eq request k r p) by assumption.
  unfold bind at 1, sval_ref at 1, ret at 1.
  unfold bind at 1, update. unfold bind at 1, deref at 1.
  rewrite left_room_heap. subst W1. fields. rewrite Hp.
  unfold modify at 1. unfold bind at 1.
  rewrite (attachPlayerToRoom_eq _ _ (set_diff_lvl l p)).
  2: { fields. rewrite left_room_heap. fields.
       apply list_lookup_insert_eq. eapply lookup_lt_Some. exact Hp. }
  unfold bind at 1.
  rewrite (emitPlayersAlreadyInRoom_eq _ _ (set_diff_lvl l p)).
  - unfold bind at 1, gets at 1. cbn [diff_lvl set_diff_lvl].
    f_equal. unfold entered_room. fields. rewrite left_room_phase. reflexivity.
  - unfold entered_room. eapply refs_ok_frame; [| | exact Hr]; fields.
    + rewrite left_room_heap. fields. rewrite length_insert. reflexivity.
    + rewrite left_room_registry. reflexivity.
  - unfold entered_room. fields. rewrite left_room_heap. fields.
    apply list_lookup_insert_eq. eapply lookup_lt_Some. exact Hp.
Qed.

Lemma outbox_only_sent m w : outbox_only w (sent m w).
Proof. exists (outbox w ++ [m]). reflexivity. Qed.

(** Every way a [change_room] can end. *)
Lemma change_room_shape request w :
  refs_ok w ->
  let W := world_of (change_room request w) in
  outbox_only w W
  \/ (exists g, W = set_player_global g w)
  \/ exists k r p l,
       session request = Some k /\ sessions w !! k = Some (SRef r)
       /\ heap w !! r = Some p /\ level_ok l
       /\ outbox_only (room_changed request r p l w) W.
Proof.
  intros Hr W. subst W.
  destruct (determineDifficultyLevel_cases request w)
    as [(l & Hl & Hd) | [(m & Hd) | Hd]].
  2: { left. unfold change_room. unfold bind at 1. rewrite Hd. cbn.
       eexists. reflexivity. }
  2: { left. unfold change_room. unfold bind at 1. rewrite Hd.
       apply outbox_only_refl. }
  assert (forall e, change_room request w = Throw e w ->
            outbox_only w (world_of (change_room request w))) as Hthrow.
  { intros e ->. apply outbox_only_refl. }
  destruct (player_global w) as [[| |g]|] eqn:Hg.
  1,2,4: left; eapply Hthrow; unfold change_room; unfold bind at 1; rewrite Hd;
         rewrite (level_ok_not_error l Hl); unfold bind at 1, gets at 1; rewrite Hg;
         reflexivity.
  destruct (heap w !! g) as [gp|] eqn:Hgp.
  2: { left. eapply Hthrow. unfold change_room. unfold bind at 1. rewrite Hd.
       rewrite (level_ok_not_error l Hl). unfold bind at 1, gets at 1. rewrite Hg.
       unfold bind at 1, sval_ref at 1, ret at 1.
       unfold bind at 1, deref at 1. rewrite Hgp. reflexivity. }
  destruct (session request) as [k|] eqn:Hk.
  2: { left. eapply Hthrow. unfold change_room. unfold bind at 1. rewrite Hd.
       rewrite (level_ok_not_error l Hl). unfold bind at 1, gets at 1. rewrite Hg.
       unfold bind at 1, sval_ref at 1, ret at 1.
       unfold bind at 1, deref at 1. rewrite Hgp.
       unfold bind at 1, get_session_player at 1, session_obj. rewrite Hk.
       reflexivity. }
  destruct (decide (l = diff_lvl gp)) as [He | Hne].
  { right. left. rewrite (change_room_head request l g gp k) by assumption.
    apply Z.eqb_eq in He. rewrite He. cbn. eauto. }
  destruct (sessions w !! k) as [[| |r]|] eqn:Hs.
  1,2,4: right; left; rewrite (change_room_head request l g gp k) by assumption;
         rewrite Hs; cbn [from_option]; unfold id;
         apply Z.eqb_neq in Hne; rewrite Hne;
         unfold bind at 1;
         unfold detachPlayerFromRoom;
         unfold bind at 1, get_session_player at 1, session_obj; rewrite Hk;
         unfold bind at 1, ret at 1, gets at 1; fields; rewrite Hs;
         cbn; eauto.
  destruct (heap w !! r) as [p|] eqn:Hp.
  - right. right. exists k, r, p, l.
    split; [reflexivity |]. split; [exact Hs |]. split; [exact Hp |].
    split; [exact Hl |].
    rewrite (change_room_moves request l g gp k r p) by assumption.
    eapply outbox_only_trans; [| apply emitRoundEventAndResults_world].
    apply outbox_only_sent.
  - right. left. rewrite (change_room_head request l g gp k) by assumption.
    rewrite Hs. cbn [from_option]. unfold id.
    apply Z.eqb_neq in Hne. rewrite Hne.
    unfold bind at 1. unfold detachPlayerFromRoom.
    unfold bind at 1, get_session_player at 1, session_obj. rewrite Hk.
    unfold bind at 1, ret at 1, gets at 1. fields. rewrite Hs.
    cbn [from_option]. unfold id.
    unfold bind at 1, sval_ref at 1, ret at 1.
    unfold bind at 1, deref at 1. fields. rewrite Hp. cbn. eauto.
Qed.

(** * [roomCount] is the occupancy *)

Lemma filter_ext_elem {A} (P Q : A -> Prop) `{!forall x, Decision (P x)}
  `{!forall x, Decision (Q x)} (l : list A) :
  (forall x, x ∈ l -> (P x <-> Q x)) -> filter P l = filter Q l.
Proof.
  induction l as [|x l IH]; intros Hpq; [reflexivity |].
  rewrite !filter_cons.
  rewrite IH by (intros y Hy; apply Hpq; apply elem_of_cons; right; exact Hy).
  assert (P x <-> Q x) as Hx by (apply Hpq; apply elem_of_cons; left; reflexivity).
  destruct (decide (P x)), (decide (Q x)); tauto.
Qed.

Lemma head_count_frame l w W :
  all_players_list W = all_players_list w ->
  (forall r, r ∈ registered w ->
     diff_lvl <$> heap W !! r = diff_lvl <$> heap w !! r) ->
  head_count l W = head_count l w.
Proof.
  intros Hreg Hlv. unfold head_count, registered. rewrite Hreg.
  f_equal. f_equal. apply filter_ext_elem. intros r Hr.
  unfold in_room. rewrite Hlv by exact Hr. reflexivity.
Qed.

Lemma occupancy_frame w W :
  all_players_list W = all_players_list w ->
  roomCount W = roomCount w ->
  diff_lvl <$> heap W = diff_lvl <$> heap w ->
  occupancy_ok w -> occupancy_ok W.
Proof.
  intros Hreg Hrc Hlv Hw l Hl. rewrite Hrc, (Hw l Hl). f_equal.
  symmetry. apply head_count_frame; [exact Hreg |].
  intros r _. rewrite <- !list_lookup_fmap, Hlv. reflexivity.
Qed.

Lemma levels_insert (h : list player) r p q :
  h !! r = Some p -> diff_lvl q = diff_lvl p ->
  diff_lvl <$> <[r := q]> h = diff_lvl <$> h.
Proof.
  intros Hp Hq. rewrite list_fmap_insert, Hq. apply list_insert_id.
  rewrite list_lookup_fmap, Hp. reflexivity.
Qed.

Lemma levels_reset_scores refs (h : list player) :
  diff_lvl <$> reset_scores refs h = diff_lvl <$> h.
Proof.
  apply list_eq. intros i. rewrite !list_lookup_fmap, reset_scores_lookup.
  destruct (h !! i); [| reflexivity]. cbn. destruct (decide _); reflexivity.
Qed.

Lemma occupancy_register w W sid p :
  occupancy_ok w -> refs_ok w ->
  registry_get sid w = None ->
  heap W = heap w ++ [p] ->
  all_players_list W = assoc_set sid (Some (length (heap w))) (all_players_list w) ->
  roomCount W = alter Z.succ (diff_lvl p) (roomCount w) ->
  occupancy_ok W.
Proof.
  intros Hw Hr Hnone Hh Hreg Hrc l Hl.
  rewrite Hrc, lookup_alter.
  assert (head_count l W
          = (if decide (diff_lvl p = l) then 1 else 0) + head_count l w) as ->.
  { unfold head_count, registered. rewrite Hreg.
    rewrite registered_set_new.
    2: { intros q Hq. unfold registry_get in Hnone. rewrite Hq in Hnone. discriminate. }
    rewrite filter_cons.
    assert (filter (in_room l W) (omap snd (all_players_list w))
            = filter (in_room l w) (omap snd (all_players_list w))) as ->.
    { apply filter_ext_elem. intros r Hin. unfold in_room. rewrite Hh.
      unfold refs_ok, registered in Hr. rewrite Forall_forall in Hr.
      rewrite lookup_app_l by (apply Hr, Hin). reflexivity. }
    assert (in_room l W (length (heap w)) <-> diff_lvl p = l) as Hnew.
    { unfold in_room. rewrite Hh, list_lookup_middle by reflexivity.
      cbn. split; congruence. }
    destruct (decide (in_room l W (length (heap w))));
      destruct (decide (diff_lvl p = l)); try tauto; cbn [length]; lia. }
  destruct (decide (diff_lvl p = l)) as [e |]; [rewrite e |];
    rewrite (Hw l Hl); cbn; f_equal; lia.
Qed.

Lemma occupancy_unregister w W sid r p :
  occupancy_ok w ->
  registry_get sid w = Some r -> heap w !! r = Some p ->
  diff_lvl <$> heap W = diff_lvl <$> heap w ->
  all_players_list W = assoc_set sid None (all_players_list w) ->
  roomCount W = alter Z.pred (diff_lvl p) (roomCount w) ->
  occupancy_ok W.
Proof.
  intros Hw Hsome Hp Hlv Hreg Hrc l Hl.
  rewrite Hrc, lookup_alter.
  assert (head_count l w
          = (if decide (diff_lvl p = l) then 1 else 0) + head_count l W) as Hc.
  { unfold head_count, registered. rewrite Hreg.
    rewrite (registered_set_null sid r (all_players_list w)).
    2: { unfold registry_get in Hsome.
         destruct (assoc_get sid (all_players_list w)) as [[q|]|]; congruence. }
    rewrite filter_cons.
    assert (filter (in_room l w) (omap snd (assoc_set sid None (all_players_list w)))
            = filter (in_room l W) (omap snd (assoc_set sid None (all_players_list w))))
      as ->.
    { apply filter_ext_elem. intros x _. unfold in_room.
      rewrite <- !list_lookup_fmap, Hlv. reflexivity. }
    assert (in_room l w r <-> diff_lvl p = l) as Hold.
    { unfold in_room. rewrite Hp. cbn. split; congruence. }
    destruct (decide (in_room l w r));
      destruct (decide (diff_lvl p = l)); try tauto; cbn [length]; lia. }
  destruct (decide (diff_lvl p = l)) as [e |]; [rewrite e |];
    rewrite (Hw l Hl), Hc; cbn; f_equal; lia.
Qed.

Lemma occupancy_move w W r p l' :
  occupancy_ok w -> NoDup (registered w) -> r ∈ registered w ->
  heap w !! r = Some p ->
  heap W = <[r := set_diff_lvl l' p]> (heap w) ->
  all_players_list W = all_players_list w ->
  roomCount W = alter Z.succ l' (alter Z.pred (diff_lvl p) (roomCount w)) ->
  occupancy_ok W.
Proof.
  intros Hw Hnd Hin Hp Hh Hreg Hrc l Hl.
  rewrite Hrc, !lookup_alter.
  apply elem_of_Permutation in Hin as [rest Hperm].
  assert (r ∉ rest) as Hnotin.
  { rewrite Hperm in Hnd. apply NoDup_cons in Hnd as [H _]. exact H. }
  assert (filter (in_room l W) rest = filter (in_room l w) rest) as Hrest.
  { apply filter_ext_elem. intros x Hx. unfold in_room. rewrite Hh.
    rewrite list_lookup_insert_ne by (intros ->; contradiction). reflexivity. }
  assert (head_count l w
          = (if decide (diff_lvl p = l) then 1 else 0)
            + Z.of_nat (length (filter (in_room l w) rest))) as Hcw.
  { unfold head_count. rewrite Hperm, filter_cons.
    assert (in_room l w r <-> diff_lvl p = l) as Hold.
    { unfold in_room. rewrite Hp. cbn. split; congruence. }
    destruct (decide (in_room l w r));
      destruct (decide (diff_lvl p = l)); try tauto; cbn [length]; lia. }
  assert (head_count l W
          = (if decide (l' = l) then 1 else 0)
            + Z.of_nat (length (filter (in_room l w) rest))) as HcW.
  { unfold head_count, registered. rewrite Hreg. fold (registered w).
    rewrite Hperm, filter_cons, Hrest.
    assert (in_room l W r <-> l' = l) as Hnew.
    { unfold in_room. rewrite Hh.
      rewrite list_lookup_insert_eq by (eapply lookup_lt_Some; exact Hp).
      cbn. split; congruence. }
    destruct (decide (in_room l W r));
      destruct (decide (l' = l)); try tauto; cbn [length]; lia. }
  rewrite HcW. clear HcW.
  destruct (decide (l' = l)) as [e1 |], (decide (diff_lvl p = l)) as [e2 |];
    try rewrite e1; try rewrite e2; rewrite ?decide_True by reflexivity;
    rewrite ?decide_False by congruence;
    rewrite (Hw l Hl), Hcw;
    rewrite ?decide_True by assumption; rewrite ?decide_False by assumption;
    cbn; f_equal; lia.
Qed.
Ltac fields_all :=
  cbn [secsRemaining currentTimerInterval timeout_pending interval_active
       roomCount all_players_list round_in_progress round_results num_guests
       player_global heap sessions joined outbox timer_log calls
       set_secsRemaining set_currentTimerInterval set_timeout_pending
       set_interval_active set_roomCount set_all_players_list
       set_round_in_progress set_round_results set_num_guests
       set_player_global set_heap set_sessions set_joined set_outbox
       set_timer_log set_calls sent] in *.

Ltac levels :=
  fields_all;
  repeat (erewrite levels_insert; [| eassumption | reflexivity]);
  try reflexivity.

Lemma player_scored_frame request w :
  let W := world_of (player_scored request w) in
  all_players_list W = all_players_list w /\ roomCount W = roomCount w
  /\ diff_lvl <$> heap W = diff_lvl <$> heap w.
Proof.
  cbv zeta.
  apply (wp_world_of (player_scored request)
           (fun W => all_players_list W = all_players_list w
                     /\ roomCount W = roomCount w
                     /\ diff_lvl <$> heap W = diff_lvl <$> heap w)).
  unfold player_scored. wp_run; repeat split; levels.
Qed.

Lemma request_final_score_frame request w :
  let W := world_of (request_final_score request w) in
  all_players_list W = all_players_list w /\ roomCount W = roomCount w
  /\ diff_lvl <$> heap W = diff_lvl <$> heap w.
Proof.
  cbv zeta.
  apply (wp_world_of (request_final_score request)
           (fun W => all_players_list W = all_players_list w
                     /\ roomCount W = roomCount w
                     /\ diff_lvl <$> heap W = diff_lvl <$> heap w)).
  unfold request_final_score. wp_run; repeat split; levels.
Qed.

Lemma occupancy_client_ready request w :
  refs_ok w -> occupancy_ok w -> is_Some (session request) ->
  occupancy_ok (world_of (client_ready request w)).
Proof.
  intros Hr Hw Hs.
  destruct (client_ready_shape request w Hr Hs)
    as [[out ->] | [(k & r & p & Hreg & Hp & ->) | [Hnone Hc]]].
  - apply (occupancy_frame w); [reflexivity .. | exact Hw].
  - apply (occupancy_frame w); [reflexivity | reflexivity | | exact Hw].
    unfold counted_again. fields. apply (levels_insert _ _ p); [exact Hp | reflexivity].
  - destruct Hc as (tag & l & k & n & _ & Hl & _ & out & ->).
    apply (occupancy_register w _ (sessionID request) (new_player tag l w));
      try assumption; reflexivity.
Qed.

Lemma occupancy_disconnect request w :
  occupancy_ok w -> session_sound request w ->
  occupancy_ok (world_of (disconnect request w)).
Proof.
  intros Hw Hs.
  destruct (disconnect_shape request w) as [-> | (k & r & p & Hk & Hsk & Hp & ->)];
    [exact Hw |].
  destruct (ref_count p - 1 =? 0).
  - apply (occupancy_unregister w _ (sessionID request) r p); try assumption.
    + apply (Hs k r); assumption.
    + unfold disconnected. cbv zeta. fields. rewrite left_room_heap. fields.
      apply (levels_insert _ _ p); [exact Hp | reflexivity].
    + unfold disconnected. cbv zeta. fields. rewrite left_room_registry. reflexivity.
    + unfold disconnected. cbv zeta. fields. rewrite left_room_roomCount. reflexivity.
  - apply (occupancy_frame w); [reflexivity | reflexivity | | exact Hw].
    fields. apply (levels_insert _ _ p); [exact Hp | reflexivity].
Qed.

Lemma occupancy_change_room request w :
  registry_ok w -> occupancy_ok w -> session_sound request w ->
  occupancy_ok (world_of (change_room request w)).
Proof.
  intros [Hnd Hr] Hw Hs.
  destruct (change_room_shape request w Hr)
    as [[out ->] | [[g ->] | (k & r & p & l & Hk & Hsk & Hp & Hl & out & ->)]].
  - apply (occupancy_frame w); [reflexivity .. | exact Hw].
  - apply (occupancy_frame w); [reflexivity .. | exact Hw].
  - apply (occupancy_move w _ r p l); try assumption.
    + eapply registry_get_registered. apply (Hs k r); assumption.
    + unfold room_changed, entered_room. cbv zeta. fields.
      rewrite left_room_heap. reflexivity.
    + unfold room_changed, entered_room. cbv zeta. fields.
      rewrite left_room_registry. reflexivity.
    + unfold room_changed, entered_room. cbv zeta. fields.
      rewrite left_room_roomCount. reflexivity.
Qed.

Lemma occupancy_step array_sort i w :
  inv wf_player w -> registry_ok w -> occupancy_ok w -> sound i w ->
  occupancy_ok (step array_sort i w).
Proof.
  intros Hi Hreg Hw Hs. destruct i as [request | request | request | request | request | |
                 now_adjust now_calibrate];
    cbn [sound] in Hs.
  - apply occupancy_client_ready; [apply Hreg | exact Hw | exact Hs].
  - apply occupancy_change_room; assumption.
  - apply occupancy_disconnect; assumption.
  - destruct (player_scored_frame request w) as (H1 & H2 & H3).
    apply (occupancy_frame w); assumption.
  - destruct (request_final_score_frame request w) as (H1 & H2 & H3).
    apply (occupancy_frame w); assumption.
  - rewrite step_one_shot by exact Hi. destruct (timeout_pending w); [| exact Hw].
    destruct (first_throws w);
      [apply (occupancy_frame w); [reflexivity | reflexivity | reflexivity | exact Hw] |].
    apply (occupancy_frame w); [reflexivity | reflexivity | | exact Hw].
    unfold one_shot_fired. fields.
    destruct (first_in_lobby w); [reflexivity | apply levels_reset_scores].
  - rewrite step_interval by exact Hi. destruct (interval_active w); [| exact Hw].
    destruct (tick_throws w);
      [apply (occupancy_frame w); [reflexivity | reflexivity | reflexivity | exact Hw] |].
    apply (occupancy_frame w); [reflexivity | reflexivity | | exact Hw].
    unfold ticked, tick_heap. fields.
    destruct (_ =? 0); [apply levels_reset_scores | reflexivity].
Qed.

Lemma occupancy_start now : occupancy_ok (world_of (start now init_world)).
Proof.
  intros l Hl. apply level_ok_rooms, elem_of_rooms in Hl.
  destruct Hl as [-> | [-> | [-> | ->]]]; vm_compute; reflexivity.
Qed.

Lemma occupancy_run array_sort inputs w :
  reachable array_sort w -> occupancy_ok w ->
  sound_run array_sort inputs w ->
  occupancy_ok (run array_sort inputs w).
Proof.
  revert w. induction inputs as [|i inputs IH]; intros w Hr Hw Hs; [exact Hw |].
  destruct Hs as [Hi Hs]. cbn. apply IH.
  - apply reachable_step; [exact I | exact Hr].
  - apply occupancy_step;
      [ apply (reachable_wf array_sort), Hr
      | apply (reachable_registry_ok array_sort), Hr | exact Hw | exact Hi ].
  - exact Hs.
Qed.

Lemma head_count_entries l w :
  refs_ok w -> head_count l w = Z.of_nat (length (room_entries l w)).
Proof.
  intros Hr. unfold head_count, room_entries, players. rewrite length_fmap. f_equal.
  apply refs_ok_lookups in Hr. induction Hr as [|r refs [p Hp] _ IH]; [reflexivity |].
  cbn [omap list_omap]. rewrite Hp. rewrite !filter_cons.
  assert (in_room l w r <-> diff_lvl p = l) as Hiff.
  { unfold in_room. rewrite Hp. cbn. split; congruence. }
  destruct (decide (in_room l w r)), (decide (diff_lvl p = l)); try tauto;
    cbn [length]; rewrite IH; reflexivity.
Qed.

(** * The timer routines, one by one *)

Lemma elem_of_occupied w room :
  room ∈ occupied w <-> level_ok room /\ room_count room w <> 0.
Proof.
  unfold occupied. rewrite list_elem_of_filter, level_ok_rooms. tauto.
Qed.

Lemma lobby_world_reachable : reachable keep_order lobby_world.
Proof.
  unfold lobby_world, run. simpl.
  repeat (apply reachable_step; [exact I |]).
  apply reachable_start.
Qed.

Lemma two_rooms_world_reachable : reachable keep_order two_rooms_world.
Proof.
  unfold two_rooms_world, run. simpl.
  repeat (apply reachable_step; [exact I |]).
  apply reachable_start.
Qed.



Lemma play_world_sorted v : reachable sort_desc (play_world v).
Proof.
  assert (play_world v
          = run sort_desc
              [OneShotFires;
               ClientReady (on_socket 1 "A" (profile_data (JStr "Alice") (JStr "2")));
               PlayerScored (on_socket 1 "A" (points_data v))]
              (world_of (start 0 init_world))) as ->
    by (vm_compute; reflexivity).
  apply reachable_run, reachable_start.
Qed.

(** X1: [lobbyTick] always returns.  It sends one [lobby_timer_update]
    that carries [secsRemaining] to every room whose [roomCount] is not 0,
    the rooms in increasing order, and nothing to any other room; but for
    these messages and the record of the call it leaves the state as it
    was. *)
Theorem lobbyTick_sends (w : world) :
  lobbyTick w
  = Ret tt (set_outbox
              (outbox w ++ (lobby_timer_update (secsRemaining w) <$> occupied w))
              (set_calls (calls w ++ [RlobbyTick]) w))
  /\ (forall room, room ∈ occupied w <-> level_ok room /\ room_count room w <> 0)
  /\ occupied w `sublist_of` [0; 1; 2; 3].
Proof.
  split; [apply lobbyTick_eq |]. split; [apply elem_of_occupied |].
  apply (sublist_filter _ rooms).
Qed.



Lemma room_entries_out_of_range w i :
  inv wf_player w -> ~ level_ok i -> room_entries i w = [].
Proof.
  intros Hw Hi. unfold room_entries.
  destruct (filter (fun p => diff_lvl p = i) (players w)) as [|p ps] eqn:E;
    [reflexivity |].
  exfalso. apply Hi.
  assert (p ∈ filter (fun p => diff_lvl p = i) (players w)) as Hp
    by (rewrite E; apply elem_of_cons; left; reflexivity).
  apply list_elem_of_filter in Hp as [He Hp].
  unfold players in Hp. apply list_elem_of_omap in Hp as (r & Hr & Hp).
  destruct (inv_lookup wf_player w r p Hw Hp) as [_ Hl]. rewrite <- He. exact Hl.
Qed.

(** X3: in every reachable state [createRoundResults] returns, and leaves
    in [round_results[room]], for every room, the lines (tag, points) of
    the registered players whose level is that room, in the order of the
    registry (an empty list for a room without players), which is the
    order [for .. in] visits the registry in when no session id is the
    decimal of an array index.  It writes nothing else but the record of
    the call. *)
Theorem createRoundResults_lists array_sort (w : world) :
  plain_ids w -> reachable array_sort w ->
  exists w',
    createRoundResults w = Ret tt w'
    /\ (forall room, level_ok room ->
          round_results w' !! room = Some (room_entries room w))
    /\ (forall i, ~ level_ok i -> round_results w' !! i = round_results w !! i)
    /\ w' = set_round_results (round_results w')
              (set_calls (calls w ++ [RcreateRoundResults]) w).
Proof.
  intros _ H. apply (reachable_wf array_sort) in H.
  eexists. split; [apply createRoundResults_eq, H |]. fields.
  split; [| split; [| reflexivity]].
  - intros room Hroom. apply board_lookup, Hroom.
  - intros i Hi. rewrite board_lookup_other by exact Hi.
    rewrite (room_entries_out_of_range w i H Hi).
    destruct (round_results w !! i); cbn; [rewrite app_nil_r |]; reflexivity.
Qed.

(** Alice in room 0 and Bob in room 1: the results of room 1 are Bob's
    line. *)
Lemma createRoundResults_lists_witness :
  exists w',
    createRoundResults two_rooms_world = Ret tt w'
    /\ round_results w' !! 1 = Some (room_entries 1 two_rooms_world).
Proof.
  destruct (createRoundResults_lists keep_order two_rooms_world
              ltac:(reflexivity) two_rooms_world_reachable)
    as (w' & Hr & Hres & _).
  exists w'. split; [exact Hr |]. apply Hres.
  unfold level_ok, MIN_ROOM_NUM, NUM_ROOMS. lia.
Defined.





(** X5: [firstPlayTick] in a reachable state, the sort being a sort and no
    session id the decimal of an array index, returns.  It begins the
    round: every registered player object gets 0 points and is marked
    present at the start ([incomplete_round] false), the other fields and
    the objects that are not registered stay as they were;
    [round_in_progress] becomes true, [round_started] with the length of
    play goes to everybody, and the [play_timer_update] each occupied room
    gets next lists the registered players of the room, every one with
    0 points. *)
Theorem firstPlayTick_begins_round array_sort (w : world) :
  sorts array_sort -> plain_ids w -> reachable array_sort w ->
  let begun := round_begun w in
  firstPlayTick array_sort w
  = Ret tt
      (set_outbox
         (outbox w ++
          mkMsg ToAll "round_started"
            (PSecs (SECS_IN_COMPLETE_CYCLE - SECS_IN_LOBBY)) ::
          (play_timer_update array_sort begun <$> occupied w))
         (set_calls (calls w ++ [RfirstPlayTick; RplayTick]) begun))
  /\ round_in_progress begun = true
  /\ (forall r p, heap w !! r = Some p ->
        heap begun !! r
        = Some (if decide (r ∈ registered w)
                then set_incomplete_round false (set_points (JNum 0) p)
                else p))
  /\ length (heap begun) = length (heap w)
  /\ (forall room,
        exists leaders,
          play_timer_update array_sort begun room
          = mkMsg (ToRoom (room_name room)) "play_timer_update"
              (PPlayTick (secsRemaining w - SECS_IN_LOBBY) leaders)
          /\ leaders ≡ₚ (fun p => (player_tag p, points p))
                          <$> filter (fun p => diff_lvl p = room) (players begun)
          /\ forall e, e ∈ leaders -> e.2 = JNum 0).
Proof.
  intros Hsort _ H begun. apply (reachable_wf array_sort) in H.
  split; [apply firstPlayTick_eq, H |]. split; [reflexivity |].
  split; [| split].
  - intros r p Hp. subst begun. unfold round_begun. fields.
    rewrite reset_scores_lookup, Hp. cbn. destruct (decide _); reflexivity.
  - apply reset_scores_length.
  - intros room. exists (array_sort (room_entries room begun)).
    destruct (sorts_leaders array_sort (room_entries room begun) Hsort)
      as (Hp & _ & Hin).
    split; [reflexivity |]. split; [exact Hp |].
    intros e He. apply Hin in He. subst begun.
    apply (begun_entries_zero w room e He).
Qed.

(** A round begins with Alice, who has reported 7 points, in room 2. *)
Lemma firstPlayTick_begins_round_witness :
  heap (round_begun (play_world (JNum 7))) !! 0%nat
  = Some (if decide (0%nat ∈ registered (play_world (JNum 7)))
          then set_incomplete_round false
                 (set_points (JNum 0) (mkPlayer "Alice" (JNum 7) 2 true 1))
          else mkPlayer "Alice" (JNum 7) 2 true 1).
Proof.
  destruct (firstPlayTick_begins_round sort_desc (play_world (JNum 7))
              sort_desc_sorts ltac:(reflexivity) (play_world_sorted _))
    as (_ & _ & H & _).
  apply H. vm_compute. reflexivity.
Defined.

(** * One tick, and the clock between the ticks *)



(** X7: once the one-shot has fired, in every reachable state the count
    is between 0 and [SECS_IN_COMPLETE_CYCLE] - 1, the round is in progress
    exactly when at least [SECS_IN_LOBBY] seconds remain, and out of a
    round [round_results] has a list for every room. *)
Theorem phase_follows_count array_sort (w : world) :
  reachable array_sort w ->
  timeout_pending w = None ->
  0 <= secsRemaining w < SECS_IN_COMPLETE_CYCLE
  /\ round_in_progress w = (SECS_IN_LOBBY <=? secsRemaining w)
  /\ (round_in_progress w = false ->
      forall room, level_ok room -> is_Some (round_results w !! room)).
Proof.
  intros H Hp. apply reachable_clock_ok in H. unfold clock_ok in H.
  rewrite Hp in H. destruct H as (_ & _ & Hs & Hrip & Hres).
  split; [exact Hs |]. split; [exact Hrip | exact Hres].
Qed.

(** Alice joined during Lobby, 29 s before the next round. *)
Lemma phase_follows_count_witness :
  round_in_progress lobby_world = (SECS_IN_LOBBY <=? secsRemaining lobby_world).
Proof.
  destruct (phase_follows_count keep_order lobby_world lobby_world_reachable)
    as (_ & H & _).
  - vm_compute. reflexivity.
  - exact H.
Defined.

(** X8: in every reachable state exactly one timer is set.  Until the
    one-shot fires it is the one-shot, due in less than a second (its delay
    is between [initMSecOffset] and 1000 + [initMSecOffset] ms), with
    [currentTimerInterval] already at the normal interval; from then on it
    is the recurring timer, whose interval is the one
    [currentTimerInterval] records, one of the three intervals of the fine
    calibration. *)
Theorem one_timer_set array_sort (w : world) :
  reachable array_sort w ->
  match timeout_pending w with
  | Some delay =>
      interval_active w = None
      /\ initMSecOffset <= delay < 1000 + initMSecOffset
      /\ currentTimerInterval w = NORMAL_TIMER_INTERVAL
  | None =>
      interval_active w = Some (currentTimerInterval w)
      /\ (currentTimerInterval w = FAST_TIMER_INTERVAL
          \/ currentTimerInterval w = NORMAL_TIMER_INTERVAL
          \/ currentTimerInterval w = SLOW_TIMER_INTERVAL)
  end.
Proof.
  intros H. apply reachable_clock_ok in H. unfold clock_ok in H.
  destruct (timeout_pending w).
  - destruct H as (Hi & Hc & _ & _ & _ & Hd & _). auto.
  - destruct H as (Hi & Hc & _). split; [exact Hi |].
    rewrite !elem_of_cons, elem_of_nil in Hc. tauto.
Qed.

(** The server after the one-shot and two firings of the recurring timer,
    the second 30 ms late. *)
Lemma one_timer_set_witness :
  let w := run keep_order
             [OneShotFires; IntervalFires 1000 1000; IntervalFires 2030 2030]
             (world_of (start 40 init_world)) in
  match timeout_pending w with
  | Some delay =>
      interval_active w = None
      /\ initMSecOffset <= delay < 1000 + initMSecOffset
      /\ currentTimerInterval w = NORMAL_TIMER_INTERVAL
  | None =>
      interval_active w = Some (currentTimerInterval w)
      /\ (currentTimerInterval w = FAST_TIMER_INTERVAL
          \/ currentTimerInterval w = NORMAL_TIMER_INTERVAL
          \/ currentTimerInterval w = SLOW_TIMER_INTERVAL)
  end.
Proof.
  intros w. apply (one_timer_set keep_order w).
  subst w. apply reachable_run, reachable_start.
Defined.

Lemma timeout_pending_step array_sort i w :
  inv wf_player w -> timeout_pending w = None ->
  timeout_pending (step array_sort i w) = None.
Proof.
  intros Hi Hp. destruct i as [request | request | request | request | request | |
                 now_adjust now_calibrate].
  1-5: match goal with
       | |- timeout_pending (step _ ?i _) = _ =>
           pose proof (routes_keep_timer_state array_sort i w I) as Hk
       end; unfold timer_state in Hk; congruence.
  - rewrite step_one_shot by exact Hi. rewrite Hp. exact Hp.
  - rewrite step_interval by exact Hi. destruct (interval_active w); [| exact Hp].
    destruct (tick_throws w); exact Hp.
Qed.

Lemma ticks_nonneg inputs : 0 <= ticks inputs.
Proof. induction inputs as [|[] inputs IH]; cbn [ticks]; lia. Qed.

(** X9: Play is never shortened nor lengthened.  As long as the points the
    clients report have a primitive value (no Play-tick throws, then),
    once the one-shot has fired and while the count stays at
    [SECS_IN_LOBBY] or above, every firing of the recurring timer takes
    exactly one second off [secsRemaining], whatever the wall clock reads
    and whatever requests arrive in between, and the round stays in
    progress: a round that begins with [SECS_IN_COMPLETE_CYCLE] - 1 on the
    count is played for 150 ticks. *)
Theorem play_is_never_adjusted array_sort (inputs : list input) (w : world) :
  reachable_by array_sort scores_coercible w ->
  Forall scores_coercible inputs ->
  timeout_pending w = None ->
  SECS_IN_LOBBY <= secsRemaining w - ticks inputs ->
  secsRemaining (run array_sort inputs w) = secsRemaining w - ticks inputs
  /\ round_in_progress (run array_sort inputs w) = true
  /\ timeout_pending (run array_sort inputs w) = None
  /\ reachable_by array_sort scores_coercible (run array_sort inputs w).
Proof.
  intros Hr Hok Hp Hs.
  assert (secsRemaining (run array_sort inputs w) = secsRemaining w - ticks inputs
          /\ timeout_pending (run array_sort inputs w) = None
          /\ reachable_by array_sort scores_coercible (run array_sort inputs w))
    as (Hsecs & Hp' & Hr').
  { revert w Hr Hp Hs. induction Hok as [|i inputs Hi Hok IH]; intros w Hr Hp Hs.
    - cbn. split; [lia | auto].
    - pose proof (reachable_by_weaken _ _ _ Hr) as Hr0.
      pose proof (reachable_wf array_sort w Hr0) as Hw.
      pose proof (reachable_clock_ok array_sort w Hr0) as Hc.
      unfold clock_ok in Hc. rewrite Hp in Hc. destruct Hc as (Ha & _).
      pose proof (ticks_nonneg inputs) as Hpos.
      pose proof (step_secs array_sort i w Hw) as Hstep.
      assert (secsRemaining (step array_sort i w)
              = secsRemaining w - (ticks (i :: inputs) - ticks inputs)) as Hstep'.
      { rewrite Hstep.
        destruct i as [request | request | request | request | request | |
                       now_adjust now_calibrate]; cbn [ticks]; try lia.
        - rewrite Hp. lia.
        - rewrite Ha.
          rewrite (coercible_tick_returns w (reachable_coercible array_sort w Hr)).
          cbn [ticks] in Hs. unfold tick_secs, SECS_IN_LOBBY in *.
          assert ((secsRemaining w >=? 30) = true) as -> by lia. lia. }
      change (run array_sort (i :: inputs) w)
        with (run array_sort inputs (step array_sort i w)).
      destruct (IH (step array_sort i w)) as (IH1 & IH2 & IH3).
      + apply reachable_step; [exact Hi | exact Hr].
      + apply timeout_pending_step; assumption.
      + lia.
      + split; [lia | auto]. }
  split; [exact Hsecs |]. split; [| auto].
  pose proof (reachable_clock_ok array_sort _ (reachable_by_weaken _ _ _ Hr')) as Hc.
  unfold clock_ok in Hc. rewrite Hp' in Hc. destruct Hc as (_ & _ & _ & Hrip & _).
  rewrite Hrip, Hsecs. unfold SECS_IN_LOBBY in *. lia.
Qed.

(** Two ticks of Play, the wall clock a minute ahead on the second. *)
Lemma play_is_never_adjusted_witness :
  let w := step keep_order OneShotFires (world_of (start 0 init_world)) in
  let inputs := [IntervalFires 1000 1000; IntervalFires 62000 62000] in
  secsRemaining (run keep_order inputs w) = secsRemaining w - ticks inputs
  /\ round_in_progress (run keep_order inputs w) = true.
Proof.
  intros w inputs.
  destruct (play_is_never_adjusted keep_order inputs w) as (H1 & H2 & _).
  - apply reachable_step; [exact I | apply reachable_start].
  - repeat constructor.
  - vm_compute. reflexivity.
  - vm_compute. discriminate.
  - split; [exact H1 | exact H2].
Defined.

Lemma occupied_start now : occupied (world_of (start now init_world)) = [].
Proof.
  change (occupied (world_of (start now init_world))) with (occupied init_world).
  vm_compute. reflexivity.
Qed.

(** X10: the first tick.  The one-shot [start] has set returns when it
    fires; with [left] the milliseconds [start] found to the end of the
    cycle, it enters Lobby when between 1 and 30 whole seconds were left
    and Play otherwise (less than a second left counts as a full cycle).
    Nobody is connected yet, so the only message is the [round_ended] or
    the [round_started] that goes to everybody; the one-shot is spent and
    the recurring timer set at the normal interval. *)
Theorem first_tick_phase array_sort (now : Z) :
  let w0 := world_of (start now init_world) in
  let left := msecUntilNextGame now in
  let lobby := (1000 <=? left) && (left <? 1000 * (SECS_IN_LOBBY + 1)) in
  exists w1,
    oneShot array_sort w0 = Ret tt w1
    /\ step array_sort OneShotFires w0 = w1
    /\ round_in_progress w1 = negb lobby
    /\ secsRemaining w1
       = (if left <? 1000 then SECS_IN_COMPLETE_CYCLE else left / 1000) - 1
    /\ outbox w1
       = [if lobby then mkMsg ToAll "round_ended" (PSecs SECS_IN_LOBBY)
          else mkMsg ToAll "round_started"
                 (PSecs (SECS_IN_COMPLETE_CYCLE - SECS_IN_LOBBY))]
    /\ timeout_pending w1 = None
    /\ interval_active w1 = Some NORMAL_TIMER_INTERVAL
    /\ timer_log w1
       = [SetTimeout (left mod 1000 + initMSecOffset);
          SetInterval NORMAL_TIMER_INTERVAL].
Proof.
  intros w0 left lobby.
  assert (inv wf_player w0) as Hi
    by (apply (reachable_wf array_sort), reachable_start).
  pose proof (msecUntilNextGame_bounds now) as Hb. fold left in Hb.
  unfold MSECS_IN_COMPLETE_CYCLE, SECS_IN_COMPLETE_CYCLE in Hb.
  assert (secsRemaining w0 = left / 1000) as Hs.
  { subst w0. cbn. apply Z.quot_div_nonneg; lia. }
  assert (0 <= left / 1000 <= 180) as Hq.
  { split; [apply Z.div_pos; lia | apply Z.div_le_upper_bound; lia]. }
  assert ((left / 1000 =? 0) = (left <? 1000)) as Hz.
  { destruct (left <? 1000) eqn:E.
    - apply Z.eqb_eq. apply Z.div_small. lia.
    - apply Z.eqb_neq. intros Hq0.
      pose proof (Z.div_mod left 1000 ltac:(lia)).
      pose proof (Z.mod_pos_bound left 1000 ltac:(lia)). lia. }
  assert (first_in_lobby w0 = lobby) as Hl.
  { unfold first_in_lobby, first_secs. rewrite Hs, Hz. subst lobby.
    unfold SECS_IN_LOBBY, SECS_IN_COMPLETE_CYCLE.
    destruct (left <? 1000) eqn:E.
    - assert ((1000 <=? left) = false) as -> by lia. reflexivity.
    - assert ((1000 <=? left) = true) as -> by lia. cbn [andb].
      destruct (left <? 1000 * (30 + 1)) eqn:E2.
      + apply Z.leb_le. assert (left / 1000 < 31); [| lia].
        apply Z.div_lt_upper_bound; lia.
      + apply Z.leb_gt. assert (31 <= left / 1000); [| lia].
        apply Z.div_le_lower_bound; lia. }
  assert (first_throws w0 = false) as Hf.
  { apply (reachable_first_ok array_sort); [apply reachable_start |].
    subst w0. cbn. eauto. }
  exists (one_shot_fired array_sort w0).
  split; [rewrite oneShot_eq by exact Hi; rewrite Hf; reflexivity |].
  split; [rewrite step_one_shot by exact Hi; rewrite Hf; reflexivity |].
  unfold one_shot_fired. fields.
  split; [rewrite Hl; reflexivity |].
  split; [unfold first_tick_secs; rewrite Hs, Hz; reflexivity |].
  split.
  { unfold first_messages. rewrite Hl.
    change (occupied (round_over w0)) with (occupied w0).
    unfold with_results.
    change (occupied (round_over w0)) with (occupied w0).
    pose proof (occupied_start now) as Ho. fold w0 in Ho. rewrite Ho.
    destruct lobby; reflexivity. }
  split; [reflexivity |]. split; [reflexivity |].
  subst w0. cbn. rewrite Z.rem_mod_nonneg by lia. reflexivity.
Qed.

(** * The registry and the rooms *)

(** X11: [roomCount] is the occupancy.  In every run of the server in
    which each [client_ready] comes with a session object and each
    [change_room] and [disconnect] with a session object that holds no
    player but the one registered under the session id of the request,
    [roomCount[room]] is, for every room, the number of registered players
    whose level is that room, which is the number of lines of the
    scoreboard of the room. *)
Theorem roomCount_is_occupancy array_sort (now : Z) (inputs : list input) :
  let w0 := world_of (start now init_world) in
  sound_run array_sort inputs w0 ->
  let w := run array_sort inputs w0 in
  forall room, level_ok room ->
    roomCount w !! room = Some (head_count room w)
    /\ head_count room w = Z.of_nat (length (room_entries room w)).
Proof.
  intros w0 Hs w room Hroom.
  assert (reachable array_sort w) as Hr by (apply reachable_run, reachable_start).
  split.
  - apply (occupancy_run array_sort inputs w0);
      [apply reachable_start | apply occupancy_start | exact Hs | exact Hroom].
  - apply head_count_entries. apply (reachable_registry_ok array_sort w Hr).
Qed.

Lemma busy_inputs_sound :
  sound_run keep_order busy_inputs (world_of (start 0 init_world)).
Proof.
  unfold busy_inputs. cbn [sound_run sound].
  split; [exact I |]. split; [eexists; reflexivity |].
  split; [eexists; reflexivity |].
  split.
  { intros k r Hk Hs. cbn in Hk. injection Hk as <-.
    vm_compute in Hs. injection Hs as <-. vm_compute. reflexivity. }
  split; [| exact I].
  intros k r Hk Hs. cbn in Hk. injection Hk as <-.
  vm_compute in Hs. injection Hs as <-. vm_compute. reflexivity.
Qed.

(** After Alice and Bob joined, Bob moved to room 2 and Alice left, room 2
    counts one player. *)
Lemma roomCount_is_occupancy_witness :
  let w := run keep_order busy_inputs (world_of (start 0 init_world)) in
  roomCount w !! 2 = Some (head_count 2 w)
  /\ head_count 2 w = Z.of_nat (length (room_entries 2 w)).
Proof.
  intros w.
  apply (roomCount_is_occupancy keep_order 0 busy_inputs busy_inputs_sound 2).
  unfold level_ok, MIN_ROOM_NUM, NUM_ROOMS. lia.
Defined.

Lemma registry_get_inj (l : list (string * option nat)) a b r :
  NoDup (omap snd l) ->
  assoc_get a l = Some (Some r) -> assoc_get b l = Some (Some r) -> a = b.
Proof.
  induction l as [|[k v] l IH]; cbn [assoc_get]; [discriminate |].
  intros Hnd Ha Hb.
  assert (forall c, assoc_get c l = Some (Some r) -> r ∈ omap snd l) as Hin.
  { clear. intros c. induction l as [|[k' v'] l IH]; cbn; [discriminate |].
    destruct (String.eqb c k').
    - intros [= ->]. cbn. apply elem_of_cons. left. reflexivity.
    - intros H. specialize (IH H). destruct v'; cbn;
        [apply elem_of_cons; right |]; exact IH. }
  destruct (String.eqb a k) eqn:Ea, (String.eqb b k) eqn:Eb.
  - apply String.eqb_eq in Ea, Eb. congruence.
  - injection Ha as ->. cbn in Hnd. apply NoDup_cons in Hnd as [Hr _].
    exfalso. apply Hr, (Hin b), Hb.
  - injection Hb as ->. cbn in Hnd. apply NoDup_cons in Hnd as [Hr _].
    exfalso. apply Hr, (Hin a), Ha.
  - apply IH; [| assumption | assumption].
    destruct v; cbn in Hnd; [apply NoDup_cons in Hnd as [_ Hnd] |]; exact Hnd.
Qed.

(** X12: in every reachable state no player object is registered twice:
    two session ids never share their player object, and every registered
    reference points to a player object. *)
Theorem one_object_per_session array_sort (w : world) :
  reachable array_sort w ->
  NoDup (registered w)
  /\ (forall sid r, registry_get sid w = Some r -> is_Some (heap w !! r))
  /\ (forall sid1 sid2 r,
        registry_get sid1 w = Some r -> registry_get sid2 w = Some r ->
        sid1 = sid2).
Proof.
  intros H. destruct (reachable_registry_ok array_sort w H) as [Hnd Hr].
  split; [exact Hnd |]. split.
  - intros sid r Hreg. apply (registry_get_usable w sid r Hr Hreg).
  - intros sid1 sid2 r H1 H2. unfold registry_get in H1, H2.
    apply (registry_get_inj (all_players_list w) sid1 sid2 r Hnd).
    + destruct (assoc_get sid1 (all_players_list w)) as [[q|]|]; congruence.
    + destruct (assoc_get sid2 (all_players_list w)) as [[q|]|]; congruence.
Qed.

(** Alice and Bob are registered with an object each. *)
Lemma one_object_per_session_witness : NoDup (registered two_rooms_world).
Proof.
  destruct (one_object_per_session keep_order two_rooms_world
              two_rooms_world_reachable) as [H _].
  exact H.
Defined.

(** * [client_ready] *)

Lemma emitRoundEventAndResults_eq io (b : bool) room w :
  b = true \/ is_Some (round_results w !! room) ->
  emitRoundEventAndResults io b room w
  = Ret tt (set_outbox (outbox w ++ round_event io b room w) w).
Proof.
  intros H. unfold emitRoundEventAndResults, round_event.
  destruct b; [reflexivity |].
  destruct H as [H | [l Hl]]; [discriminate |].
  unfold bind at 1, send at 1, modify at 1. unfold bind at 1, gets at 1. fields.
  unfold results_of. rewrite Hl. cbn [default from_option]. unfold id.
  destruct l as [|e l]; cbn [length Nat.eqb negb].
  - rewrite decide_True by reflexivity. reflexivity.
  - rewrite decide_False by discriminate. unfold send, modify. fields.
    rewrite <- app_assoc. reflexivity.
Qed.

Lemma emitRoundEventAndResults_throws io room w :
  round_results w !! room = None ->
  emitRoundEventAndResults io false room w
  = Throw TypeError (sent (mkMsg (ToSocket io) "round_ended" round_ended) w).
Proof.
  intros H. unfold emitRoundEventAndResults.
  unfold bind at 1, send at 1, modify at 1. unfold bind at 1, gets at 1. fields.
  rewrite H. reflexivity.
Qed.

Lemma determineDifficultyLevel_level_ok request w l w' :
  determineDifficultyLevel request w = Ret l w' -> l <> -1 ->
  level_ok l /\ w' = w.
Proof.
  intros Hd Hl.
  destruct (determineDifficultyLevel_cases request w)
    as [(l' & Hl' & Hd') | [(m & Hd') | Hd']];
    rewrite Hd in Hd'; [| | discriminate Hd'];
    injection Hd' as -> ->; [auto | contradiction].
Qed.

Lemma round_event_frame io b room w1 w2 :
  round_results w1 = round_results w2 ->
  round_event io b room w1 = round_event io b room w2.
Proof. unfold round_event, results_of. intros ->. reflexivity. Qed.

Lemma welcomed_then request tag l k n w out :
  Ret tt
    (set_outbox (outbox (welcomed request tag l k n w) ++ out)
       (welcomed request tag l k n w))
  = Ret tt
      (set_outbox
         (outbox w ++
          [mkMsg (ToSocket (sock request)) "client_confirmed"
             (PPlayer (mkPlayer tag (JNum 0) l (round_in_progress w) 1));
           mkMsg (ToRoomExcept (room_name l) (sock request))
             "gamer_entered_room" (PEntry (tag, JNum 0));
           mkMsg (ToSocket (sock request)) "gamers_already_in_room"
             (PLeaders (room_entries l (registering request tag l k n w)))]
          ++ out) (registering request tag l k n w)).
Proof.
  unfold welcomed. cbv zeta. rewrite set_outbox_twice.
  cbn [outbox set_outbox]. rewrite <- app_assoc. reflexivity.
Qed.

(** X13: once the one-shot has fired, a [client_ready] of a session that
    is not registered, with a valid level, a session object and a tag that
    is a string or absent, returns (no session id, that of the request
    included, being the decimal of an array index, so that the registry is
    listed in the order of its creation).  It creates a player object with 0
    points, one reference and [incomplete_round] set to the round phase,
    registers it under the session id, binds it to the session, joins the
    socket to the room and raises the count of the room; and it sends, in
    this order, [client_confirmed] to the client, [gamer_entered_room] to
    the others in the room, [gamers_already_in_room] to the client, with
    the lines of the registered players of the room, the new player among
    them, and the round event: [round_started], or [round_ended] followed
    by the last results of the room when there are some. *)
Theorem client_ready_welcomes array_sort (request : request) (w : world) k l :
  plain_ids w -> index_like (sessionID request) = false ->
  reachable array_sort w ->
  timeout_pending w = None ->
  determineDifficultyLevel request w = Ret l w -> l <> -1 ->
  registry_get (sessionID request) w = None ->
  session request = Some k ->
  tag_ok request ->
  exists tag n,
    let p := mkPlayer tag (JNum 0) l (round_in_progress w) 1 in
    let W := registering request tag l k n w in
    determineTag request w = Ret tag (set_num_guests n w)
    /\ client_ready request w
       = Ret tt
           (set_outbox
              (outbox w ++
               [mkMsg (ToSocket (sock request)) "client_confirmed" (PPlayer p);
                mkMsg (ToRoomExcept (room_name l) (sock request))
                  "gamer_entered_room" (PEntry (tag, JNum 0));
                mkMsg (ToSocket (sock request)) "gamers_already_in_room"
                  (PLeaders (room_entries l W))]
               ++ round_event (sock request) (round_in_progress w) l w) W)
    /\ heap W = heap w ++ [p]
    /\ registry_get (sessionID request) W = Some (length (heap w))
    /\ sessions W !! k = Some (SRef (length (heap w)))
    /\ roomCount W = alter Z.succ l (roomCount w)
    /\ (sock request, l) ∈ joined W
    /\ (tag, JNum 0) ∈ room_entries l W.
Proof.
  intros _ _ Hr Hp Hd Hl Hreg Hk Htag.
  destruct (determineDifficultyLevel_level_ok request w l w Hd Hl) as [Hlvl _].
  destruct (determineTag_ok request w Htag) as (tag & n & Ht).
  exists tag, n. cbv zeta.
  destruct (reachable_registry_ok array_sort w Hr) as [_ Hrefs].
  split; [exact Ht |]. split.
  - rewrite (client_ready_new request l tag n k) by assumption.
    rewrite emitRoundEventAndResults_eq.
    + rewrite (round_event_frame _ _ _ (welcomed request tag l k n w) w)
        by reflexivity.
      apply welcomed_then.
    + pose proof (reachable_clock_ok array_sort w Hr) as Hc.
      unfold clock_ok in Hc. rewrite Hp in Hc. destruct Hc as (_ & _ & _ & _ & Hres).
      destruct (round_in_progress w) eqn:E; [left; reflexivity | right].
      unfold welcomed, registering. fields. apply Hres; [reflexivity | exact Hlvl].
  - unfold registering. fields.
    split; [reflexivity |]. split.
    { unfold registry_get. fields. rewrite assoc_get_set_eq. reflexivity. }
    split; [apply lookup_insert_eq |]. split; [reflexivity |].
    split; [apply elem_of_union; left; apply elem_of_singleton; reflexivity |].
    unfold room_entries.
    apply (list_elem_of_fmap_2' entry_of _
             (mkPlayer tag (JNum 0) l (round_in_progress w) 1)); [| reflexivity].
    apply list_elem_of_filter. split; [reflexivity |].
    unfold players. apply list_elem_of_omap. exists (length (heap w)). split.
    + unfold registered. fields.
      eapply (registry_get_registered (sessionID request)
                (set_all_players_list
                   (assoc_set (sessionID request) (Some (length (heap w)))
                      (all_players_list w)) w)).
      unfold registry_get. fields. rewrite assoc_get_set_eq. reflexivity.
    + fields. apply list_lookup_middle. reflexivity.
Qed.

Lemma empty_lobby_world_reachable : reachable keep_order empty_lobby_world.
Proof.
  unfold empty_lobby_world.
  apply reachable_step; [exact I | apply reachable_start].
Qed.

(** Alice is the first to arrive, during Lobby. *)
Lemma client_ready_welcomes_witness :
  let request := on_socket 1 "A" (profile_data (JStr "Alice") (JStr "1")) in
  exists tag n,
    determineTag request empty_lobby_world
    = Ret tag (set_num_guests n empty_lobby_world)
    /\ (sock request, 1) ∈ joined (registering request tag 1 1%nat n empty_lobby_world).
Proof.
  intros request.
  destruct (client_ready_welcomes keep_order request empty_lobby_world 1%nat 1
              ltac:(reflexivity) ltac:(reflexivity) empty_lobby_world_reachable)
    as (tag & n & Ht & _ & _ & _ & _ & _ & Hj & _).
  - vm_compute. reflexivity.
  - vm_compute. reflexivity.
  - discriminate.
  - vm_compute. reflexivity.
  - reflexivity.
  - exact I.
  - exists tag, n. split; [exact Ht | exact Hj].
Defined.

(** X14: until the one-shot has fired, which is during the first second
    after the start, [round_results] is empty and the round not in
    progress, so a [client_ready] that creates a player throws a TypeError
    when it reads the length of the results of the room: the player is
    registered, attached and counted by then, and the three messages and
    [round_ended] are sent.  (No session id, that of the request included,
    is the decimal of an array index.) *)
Theorem client_ready_before_first_tick array_sort (request : request)
  (w : world) k l :
  plain_ids w -> index_like (sessionID request) = false ->
  reachable array_sort w ->
  is_Some (timeout_pending w) ->
  determineDifficultyLevel request w = Ret l w -> l <> -1 ->
  registry_get (sessionID request) w = None ->
  session request = Some k ->
  tag_ok request ->
  exists tag n,
    determineTag request w = Ret tag (set_num_guests n w)
    /\ client_ready request w
       = Throw TypeError
           (sent (mkMsg (ToSocket (sock request)) "round_ended"
                    (PSecs SECS_IN_LOBBY))
              (welcomed request tag l k n w))
    /\ registry_get (sessionID request) (welcomed request tag l k n w)
       = Some (length (heap w)).
Proof.
  intros _ _ Hr [d Hp] Hd Hl Hreg Hk Htag.
  destruct (determineDifficultyLevel_level_ok request w l w Hd Hl) as [Hlvl _].
  destruct (determineTag_ok request w Htag) as (tag & n & Ht).
  exists tag, n.
  destruct (reachable_registry_ok array_sort w Hr) as [_ Hrefs].
  pose proof (reachable_clock_ok array_sort w Hr) as Hc.
  unfold clock_ok in Hc. rewrite Hp in Hc.
  destruct Hc as (_ & _ & _ & Hrip & Hres & _).
  split; [exact Ht |]. split.
  - rewrite (client_ready_new request l tag n k) by assumption.
    rewrite Hrip. apply emitRoundEventAndResults_throws.
    unfold welcomed, registering. fields. rewrite Hres. apply lookup_empty.
  - unfold welcomed, registering, registry_get. fields.
    rewrite assoc_get_set_eq. reflexivity.
Qed.

(** Alice arrives before the first tick. *)
Lemma client_ready_before_first_tick_witness :
  let request := on_socket 1 "A" (profile_data (JStr "Alice") (JStr "1")) in
  let w := world_of (start 500 init_world) in
  exists tag n,
    client_ready request w
    = Throw TypeError
        (sent (mkMsg (ToSocket 1) "round_ended" (PSecs SECS_IN_LOBBY))
           (welcomed request tag 1 1%nat n w)).
Proof.
  intros request w.
  destruct (client_ready_before_first_tick keep_order request w 1%nat 1)
    as (tag & n & _ & H & _).
  - reflexivity.
  - reflexivity.
  - apply reachable_start.
  - eexists. reflexivity.
  - reflexivity.
  - discriminate.
  - reflexivity.
  - reflexivity.
  - exact I.
  - exists tag, n. exact H.
Defined.

(** X15: a [client_ready] of a session that is registered already, with a
    valid level and a session object, only counts one more reference: it
    binds the registered player object to the session object and adds 1 to
    its [ref_count].  It sends nothing, not even a confirmation, joins the
    socket to no room and leaves the counts alone; the level of the request
    is not looked at again, so the player stays in its room. *)
Theorem client_ready_counts_again array_sort (request : request) (w : world)
  k r l :
  reachable array_sort w ->
  determineDifficultyLevel request w = Ret l w -> l <> -1 ->
  registry_get (sessionID request) w = Some r ->
  session request = Some k ->
  exists p w',
    heap w !! r = Some p
    /\ client_ready request w = Ret tt w'
    /\ heap w' = <[r := set_ref_count (ref_count p + 1) p]> (heap w)
    /\ sessions w' = <[k := SRef r]> (sessions w)
    /\ outbox w' = outbox w
    /\ roomCount w' = roomCount w
    /\ joined w' = joined w
    /\ all_players_list w' = all_players_list w
    /\ w' = set_heap (heap w') (set_sessions (sessions w') w).
Proof.
  intros Hr Hd Hl Hreg Hk.
  destruct (determineDifficultyLevel_level_ok request w l w Hd Hl) as [Hlvl _].
  destruct (reachable_registry_ok array_sort w Hr) as [_ Hrefs].
  destruct (registry_get_usable w _ r Hrefs Hreg) as [p Hp].
  exists p, (counted_again k r p w).
  split; [exact Hp |].
  split; [apply (client_ready_again request l k r p); assumption |].
  unfold counted_again. fields. repeat split; reflexivity.
Qed.

(** Alice opens a second tab, which asks for room 1: she stays in room 2
    and nothing is sent. *)
Lemma client_ready_counts_again_witness :
  let request := on_socket 2 "A" (profile_data (JStr "Alice") (JStr "1")) in
  exists p w',
    heap lobby_world !! 0%nat = Some p
    /\ client_ready request lobby_world = Ret tt w'
    /\ outbox w' = outbox lobby_world.
Proof.
  intros request.
  destruct (client_ready_counts_again keep_order request lobby_world 2%nat 0%nat 1
              lobby_world_reachable)
    as (p & w' & Hp & Hc & _ & _ & Ho & _).
  - vm_compute. reflexivity.
  - discriminate.
  - vm_compute. reflexivity.
  - reflexivity.
  - exists p, w'. split; [exact Hp |]. split; [exact Hc | exact Ho].
Defined.

(** X16: a [client_ready] with a valid level, of a session that is not
    registered, whose [player_tag] is neither a string, undefined nor null
    (a number, a boolean, an object) throws a TypeError at [tag.trim()]
    before anything is changed or sent. *)
Theorem client_ready_bad_tag_throws (request : request) (w : world) l :
  determineDifficultyLevel request w = Ret l w -> l <> -1 ->
  registry_get (sessionID request) w = None ->
  (exists b, get_prop (get_prop (data request) "profile") "player_tag" = JBool b)
  \/ (exists z, get_prop (get_prop (data request) "profile") "player_tag" = JNum z)
  \/ (exists f, get_prop (get_prop (data request) "profile") "player_tag" = JObj f) ->
  determineTag request w = Throw TypeError w
  /\ client_ready request w = Throw TypeError w.
Proof.
  intros Hd Hl Hreg Htag.
  destruct (determineDifficultyLevel_level_ok request w l w Hd Hl) as [Hlvl _].
  assert (~ tag_ok request) as Hbad.
  { unfold tag_ok. destruct Htag as [[b ->] | [[z ->] | [f ->]]]; exact id. }
  split; [apply determineTag_bad, Hbad |].
  apply (client_ready_bad_tag request l); assumption.
Qed.

(** A client whose tag is the number 7. *)
Lemma client_ready_bad_tag_throws_witness :
  let request := on_socket 1 "A" (profile_data (JNum 7) (JStr "1")) in
  client_ready request empty_lobby_world = Throw TypeError empty_lobby_world.
Proof.
  intros request.
  apply (client_ready_bad_tag_throws request empty_lobby_world 1).
  - vm_compute. reflexivity.
  - discriminate.
  - vm_compute. reflexivity.
  - right. left. exists 7. reflexivity.
Defined.

(** * [change_room] and [disconnect] at the edges *)

Lemma left_room_global request p w :
  player_global (left_room request p w) = player_global w.
Proof. unfold left_room. cbv zeta. destruct (0 <? _); reflexivity. Qed.

Lemma left_room_outbox request p w :
  outbox (left_room request p w)
  = outbox w ++
    (if 0 <? default 0 (alter Z.pred (diff_lvl p) (roomCount w) !! diff_lvl p)
     then [mkMsg (ToRoomExcept (room_name (diff_lvl p)) (sock request))
             "gamer_exited_room" (PTag (player_tag p))]
     else []).
Proof.
  unfold left_room, room_count. cbv zeta. fields.
  destruct (0 <? _); fields; [reflexivity | rewrite app_nil_r; reflexivity].
Qed.

Lemma left_room_joined request p w :
  joined (left_room request p w) = joined w ∖ {[ (sock request, diff_lvl p) ]}.
Proof. unfold left_room. cbv zeta. destruct (0 <? _); reflexivity. Qed.

Lemma scores_keep_global request w :
  player_global (world_of (player_scored request w)) = player_global w
  /\ player_global (world_of (request_final_score request w)) = player_global w.
Proof.
  split.
  - apply (wp_world_of (player_scored request)
             (fun W => player_global W = player_global w)).
    unfold player_scored. wp_run; reflexivity.
  - apply (wp_world_of (request_final_score request)
             (fun W => player_global W = player_global w)).
    unfold request_final_score. wp_run; reflexivity.
Qed.

Lemma change_room_no_global request w l :
  determineDifficultyLevel request w = Ret l w -> level_ok l ->
  player_global w = None ->
  change_room request w = Throw ReferenceError w.
Proof.
  intros Hd Hl Hg. unfold change_room. unfold bind at 1. rewrite Hd.
  rewrite (level_ok_not_error l Hl). unfold bind at 1, gets at 1. rewrite Hg.
  reflexivity.
Qed.

Lemma no_global_step array_sort i w :
  inv wf_player w -> (forall q, i <> ClientReady q) ->
  player_global w = None -> player_global (step array_sort i w) = None.
Proof.
  intros Hi Hne Hg. destruct i as [request | request | request | request | request | |
                 now_adjust now_calibrate].
  - exfalso. apply (Hne request). reflexivity.
  - unfold step. cbn [handle].
    destruct (determineDifficultyLevel_cases request w)
      as [(l & Hl & Hd) | [(m & Hd) | Hd]].
    + rewrite (change_room_no_global request w l) by assumption. exact Hg.
    + unfold change_room. unfold bind at 1. rewrite Hd. exact Hg.
    + unfold change_room. unfold bind at 1. rewrite Hd. exact Hg.
  - unfold step. cbn [handle].
    destruct (disconnect_shape request w) as [-> | (k & r & p & _ & _ & _ & ->)];
      [exact Hg |].
    destruct (_ =? 0); [| exact Hg].
    unfold disconnected. cbv zeta. fields. rewrite left_room_global. exact Hg.
  - unfold step. cbn [handle]. rewrite (proj1 (scores_keep_global request w)). exact Hg.
  - unfold step. cbn [handle]. rewrite (proj2 (scores_keep_global request w)). exact Hg.
  - rewrite step_one_shot by exact Hi.
    destruct (timeout_pending w); [destruct (first_throws w) |]; exact Hg.
  - rewrite step_interval by exact Hi.
    destruct (interval_active w); [destruct (tick_throws w) |]; exact Hg.
Qed.

(** X17: as long as no [client_ready] has arrived, the global [player]
    that [client_ready] assigns does not exist, and a [change_room] with a
    valid level throws a ReferenceError when it reads [player.diff_lvl];
    it changes nothing and sends nothing. *)
Theorem change_room_before_any_client_ready array_sort (request : request)
  (w : world) l :
  reachable_by array_sort (fun i => forall q, i <> ClientReady q) w ->
  determineDifficultyLevel request w = Ret l w -> l <> -1 ->
  player_global w = None
  /\ change_room request w = Throw ReferenceError w.
Proof.
  intros Hr Hd Hl.
  destruct (determineDifficultyLevel_level_ok request w l w Hd Hl) as [Hlvl _].
  assert (player_global w = None) as Hg.
  { clear Hd Hl Hlvl. induction Hr as [now | i w Hi Hr IH]; [reflexivity |].
    apply no_global_step; [| exact Hi | exact IH].
    apply (inv_reachable_by wf_player (fun _ => True))
      with array_sort (fun i => forall q, i <> ClientReady q);
      try exact Hr; try (intros; exact I); wf_rules. }
  split; [exact Hg |]. apply (change_room_no_global request w l); assumption.
Qed.

(** A [change_room] is the first request the server gets. *)
Lemma change_room_before_any_client_ready_witness :
  let request := on_socket 1 "A" (profile_data (JStr "Alice") (JStr "1")) in
  change_room request empty_lobby_world = Throw ReferenceError empty_lobby_world.
Proof.
  intros request.
  apply (change_room_before_any_client_ready keep_order request
           empty_lobby_world 1).
  - unfold empty_lobby_world.
    apply reachable_step; [discriminate | apply reachable_start].
  - vm_compute. reflexivity.
  - discriminate.
Defined.

(** X18: the [disconnect] that takes the last reference to a player.  When
    the session holds the player object registered under its session id,
    that object has one reference and the count of its room is the
    occupancy, [disconnect] returns; it leaves no reference on the object,
    null in the registry and in the session, takes the socket out of the
    room and 1 off the count of the room; and it tells the room that the
    player has left ([gamer_exited_room] with the tag) exactly when another
    registered player is in that room. *)
Theorem last_reference_leaves (request : request) (w : world) k r p :
  session request = Some k -> sessions w !! k = Some (SRef r) ->
  registry_get (sessionID request) w = Some r ->
  heap w !! r = Some p -> ref_count p = 1 ->
  roomCount w !! diff_lvl p = Some (head_count (diff_lvl p) w) ->
  exists w',
    disconnect request w = Ret tt w'
    /\ heap w' = <[r := set_ref_count 0 p]> (heap w)
    /\ registry_get (sessionID request) w' = None
    /\ sessions w' !! k = Some SNull
    /\ roomCount w' !! diff_lvl p = Some (head_count (diff_lvl p) w - 1)
    /\ ((sock request, diff_lvl p) ∉ joined w')
    /\ outbox w'
       = outbox w ++
         (if decide (1 < head_count (diff_lvl p) w)
          then [mkMsg (ToRoomExcept (room_name (diff_lvl p)) (sock request))
                  "gamer_exited_room" (PTag (player_tag p))]
          else []).
Proof.
  intros Hk Hs Hreg Hp Hrc Hcount.
  exists (disconnected request k r p w).
  split.
  { rewrite (disconnect_ref request k r p) by assumption.
    rewrite Hrc. reflexivity. }
  unfold disconnected. cbv zeta. fields. rewrite Hrc.
  change (1 - 1) with 0.
  rewrite left_room_heap, left_room_registry, left_room_sessions,
    left_room_roomCount, left_room_joined, left_room_outbox. fields.
  cbn [diff_lvl set_ref_count player_tag].
  split; [reflexivity |]. split.
  { unfold registry_get. fields. rewrite assoc_get_set_eq. reflexivity. }
  split; [apply lookup_insert_eq |]. split.
  { rewrite lookup_alter, decide_True by reflexivity. rewrite Hcount. cbn.
    f_equal; lia. }
  split.
  { intros Hin. apply elem_of_difference in Hin as [_ Hin].
    apply Hin, elem_of_singleton. reflexivity. }
  f_equal. rewrite lookup_alter, decide_True by reflexivity. rewrite Hcount.
  cbn [default from_option fmap option_fmap option_map id].
  destruct (decide (1 < head_count (diff_lvl p) w)) as [H1 | H1];
    destruct (0 <? Z.pred (head_count (diff_lvl p) w)) eqn:E;
    try reflexivity; unfold Z.pred in E; lia.
Qed.

(** Alice, alone in room 2, leaves: nobody is told. *)
Lemma last_reference_leaves_witness :
  let request := on_socket 1 "A" JUndefined in
  exists w',
    disconnect request lobby_world = Ret tt w'
    /\ registry_get "A" w' = None
    /\ outbox w'
       = outbox lobby_world ++
         (if decide (1 < head_count 2 lobby_world)
          then [mkMsg (ToRoomExcept (room_name 2) 1) "gamer_exited_room"
                  (PTag "Alice")]
          else []).
Proof.
  intros request.
  destruct (last_reference_leaves request lobby_world 1%nat 0%nat
              (mkPlayer "Alice" (JNum 0) 2 false 1))
    as (w' & Hd & _ & Hreg & _ & _ & _ & Ho).
  - reflexivity.
  - vm_compute. reflexivity.
  - vm_compute. reflexivity.
  - vm_compute. reflexivity.
  - reflexivity.
  - vm_compute. reflexivity.
  - exists w'. split; [exact Hd |]. split; [exact Hreg | exact Ho].
Defined.

(** X19: in every reachable state [emitPlayersAlreadyInRoom] returns and
    sends the client one [gamers_already_in_room] with the lines of the
    registered players whose level is the level of the player object it is
    given, in the order of the registry, which is the order [for .. in]
    visits the registry in when no session id is the decimal of an array
    index; the player itself is on the list when it is registered, as it
    is when [client_ready] and [change_room] call the routine. *)
Theorem emitPlayersAlreadyInRoom_lists array_sort (request : request)
  (w : world) r p :
  plain_ids w ->
  reachable array_sort w ->
  heap w !! r = Some p ->
  emitPlayersAlreadyInRoom request r w
  = Ret tt (sent (mkMsg (ToSocket (sock request)) "gamers_already_in_room"
                    (PLeaders (room_entries (diff_lvl p) w))) w)
  /\ (r ∈ registered w ->
      (player_tag p, points p) ∈ room_entries (diff_lvl p) w).
Proof.
  intros _ Hr Hp. split.
  - apply emitPlayersAlreadyInRoom_eq; [| exact Hp].
    apply (reachable_registry_ok array_sort w Hr).
  - intros Hin. unfold room_entries.
    apply (list_elem_of_fmap_2' entry_of _ p); [| reflexivity].
    apply list_elem_of_filter. split; [reflexivity |].
    unfold players. apply list_elem_of_omap. exists r. split; assumption.
Qed.

(** The list for Bob, in room 1 of [two_rooms_world]. *)
Lemma emitPlayersAlreadyInRoom_lists_witness :
  let request := on_socket 2 "B" JUndefined in
  emitPlayersAlreadyInRoom request 1%nat two_rooms_world
  = Ret tt (sent (mkMsg (ToSocket 2) "gamers_already_in_room"
                    (PLeaders (room_entries 1 two_rooms_world)))
              two_rooms_world).
Proof.
  intros request.
  destruct (emitPlayersAlreadyInRoom_lists keep_order request two_rooms_world
              1%nat (mkPlayer "Bob" (JNum 0) 1 true 1) ltac:(reflexivity)
              two_rooms_world_reachable)
    as [H _].
  - vm_compute. reflexivity.
  - exact H.
Defined.

(** * Tags *)

Ltac bytes :=
  unfold ws1, ws2, ws3 in *; cbv zeta in *;
  repeat match goal with
         | H : _ && _ = true |- _ => apply andb_true_iff in H; destruct H
         | H : _ || _ = true |- _ => apply orb_true_iff in H; destruct H
         | H : (_ <=? _)%nat = true |- _ => apply Nat.leb_le in H
         | H : (_ =? _)%nat = true |- _ => apply Nat.eqb_eq in H
         end;
  lia.

Lemma ws_at_shorter s r :
  ws_at s = Some r -> (String.length r < String.length s)%nat.
Proof.
  unfold ws_at. intros H.
  destruct s as [|a [|b [|c r3]]]; try discriminate;
    repeat match type of H with
           | (if ?x then _ else _) = _ => destruct x
           end; try discriminate; injection H as <-; cbn; lia.
Qed.

Lemma skip_ws_fuel_none n s :
  (String.length s <= n)%nat -> ws_at (skip_ws_fuel n s) = None.
Proof.
  revert s. induction n as [|n IH]; intros s Hn.
  - destruct s; [reflexivity | cbn in Hn; lia].
  - cbn [skip_ws_fuel]. destruct (ws_at s) as [r|] eqn:E; [| exact E].
    apply IH. apply ws_at_shorter in E. lia.
Qed.

(** What [skip_ws] leaves begins with no white space. *)
Lemma skip_ws_none s : ws_at (skip_ws s) = None.
Proof. apply skip_ws_fuel_none. reflexivity. Qed.

Lemma skip_ws_id s : ws_at s = None -> skip_ws s = s.
Proof.
  intros H. unfold skip_ws. destruct s as [|a r]; [reflexivity |].
  cbn [String.length skip_ws_fuel]. rewrite H. reflexivity.
Qed.

Lemma trim_right_idem s : trim_right (trim_right s) = trim_right s.
Proof.
  induction s as [| c r IH]; [reflexivity |].
  cbn [trim_right]. cbv zeta.
  destruct (String.eqb (skip_ws (String c (trim_right r))) EmptyString) eqn:E;
    [reflexivity |].
  cbn [trim_right]. cbv zeta. rewrite IH, E. reflexivity.
Qed.

Lemma trim_right_prefix s : exists t, s = trim_right s +:+ t.
Proof.
  induction s as [| c r [t IH]]; [exists EmptyString; reflexivity |].
  cbn [trim_right]. cbv zeta. destruct (String.eqb _ _).
  - exists (String c r). reflexivity.
  - exists t. change (String c (trim_right r) +:+ t)
      with (String c (trim_right r +:+ t)).
    rewrite <- IH. reflexivity.
Qed.

Lemma ws_at_app x t r : ws_at x = Some r -> ws_at (x +:+ t) = Some (r +:+ t).
Proof.
  unfold ws_at. intros H.
  destruct x as [|a [|b [|c x3]]]; try discriminate;
    repeat match type of H with
           | (if ?x then _ else _) = _ => destruct x eqn:?
           end; try discriminate; injection H as <-;
    repeat match goal with
           | |- context [String ?a ?p +:+ ?q] =>
               change (String a p +:+ q) with (String a (p +:+ q))
           | |- context [EmptyString +:+ ?q] =>
               change (EmptyString +:+ q) with q
           end;
    cbv beta iota;
    repeat match goal with
           | E : ?x = _ |- context [if ?x then _ else _] => rewrite E
           end; reflexivity.
Qed.

Lemma trim_right_none u : ws_at u = None -> ws_at (trim_right u) = None.
Proof.
  intros H. destruct (trim_right_prefix u) as [t Ht].
  destruct (ws_at (trim_right u)) as [r|] eqn:E; [| reflexivity].
  apply (ws_at_app _ t) in E. rewrite <- Ht in E. congruence.
Qed.

Lemma trim_idem s : trim (trim s) = trim s.
Proof.
  unfold trim. rewrite (skip_ws_id (trim_right (skip_ws s))).
  - apply trim_right_idem.
  - apply trim_right_none, skip_ws_none.
Qed.

(** White space never ends in a digit. *)
Lemma ws_at_digit s r :
  ends_in_digit s = true -> ws_at s = Some r -> ends_in_digit r = true.
Proof.
  unfold ws_at. destruct s as [|a r1]; [discriminate |].
  destruct (ws1 a) eqn:E1.
  { intros Hd [= <-]. destruct r1 as [|b r2]; [| exact Hd].
    cbn [ends_in_digit] in Hd. exfalso. bytes. }
  destruct r1 as [|b r2]; [discriminate |].
  destruct (ws2 a b) eqn:E2.
  { intros Hd [= <-]. destruct r2 as [|c r3]; [| exact Hd].
    cbn [ends_in_digit] in Hd. exfalso. bytes. }
  destruct r2 as [|c r3]; [discriminate |].
  destruct (ws3 a b c) eqn:E3; [| discriminate].
  intros Hd [= <-]. destruct r3 as [|d r4]; [| exact Hd].
  cbn [ends_in_digit] in Hd. exfalso. bytes.
Qed.

Lemma skip_ws_digit s : ends_in_digit s = true -> ends_in_digit (skip_ws s) = true.
Proof.
  unfold skip_ws. generalize (String.length s) as n. intros n. revert s.
  induction n as [|n IH]; intros s H; cbn [skip_ws_fuel]; [exact H |].
  destruct (ws_at s) as [r|] eqn:E; [| exact H].
  apply IH, (ws_at_digit s); assumption.
Qed.

Lemma trim_right_digit s : ends_in_digit s = true -> trim_right s = s.
Proof.
  induction s as [| c r IH]; [reflexivity |]. intros H.
  cbn [trim_right]. cbv zeta.
  assert (trim_right r = r) as ->.
  { destruct r as [|c' r']; [reflexivity |]. apply IH. exact H. }
  pose proof (skip_ws_digit _ H) as Hs.
  destruct (skip_ws (String c r)); [discriminate Hs | reflexivity].
Qed.

Lemma ends_in_digit_app p s :
  ends_in_digit s = true -> ends_in_digit (p +:+ s) = true.
Proof.
  intros H. induction p as [| c p IH]; [exact H |].
  change (String c p +:+ s) with (String c (p +:+ s)).
  destruct (p +:+ s) eqn:E; [discriminate IH | exact IH].
Qed.

Lemma uint_digits d :
  NilEmpty.string_of_uint d = EmptyString
  \/ ends_in_digit (NilEmpty.string_of_uint d) = true.
Proof.
  induction d as [| d IH | d IH | d IH | d IH | d IH | d IH | d IH | d IH
                  | d IH | d IH];
    cbn [NilEmpty.string_of_uint]; [left; reflexivity | right ..];
    (destruct IH as [-> | IH];
     [reflexivity
     | destruct (NilEmpty.string_of_uint d); [discriminate IH | exact IH]]).
Qed.

Lemma Z_to_string_digit z : ends_in_digit (Z_to_string z) = true.
Proof.
  unfold Z_to_string, NilZero.string_of_int.
  assert (forall d, ends_in_digit (NilZero.string_of_uint d) = true) as Hd.
  { intros d. unfold NilZero.string_of_uint.
    destruct (uint_digits d) as [E | E]; destruct d; try reflexivity;
      try discriminate E; exact E. }
  destruct (Z.to_int z) as [d | d]; [apply Hd |].
  specialize (Hd d). destruct (NilZero.string_of_uint d) eqn:E;
    [discriminate Hd | exact Hd].
Qed.

Lemma guest_name_trim n : trim (guest_name n) = guest_name n.
Proof.
  unfold trim. rewrite skip_ws_id by reflexivity.
  apply trim_right_digit. unfold guest_name.
  apply ends_in_digit_app, Z_to_string_digit.
Qed.

Lemma Z_to_string_inj n m : Z_to_string n = Z_to_string m -> n = m.
Proof.
  intros H. apply DecimalZ.to_int_inj.
  assert (forall z, NilZero.int_of_string (Z_to_string z) = Some (Z.to_int z))
    as Hz.
  { intros z. apply NilZero.isi; destruct z; cbn [Z.to_int]; try discriminate.
    - intros E. injection E as E. exact (DecimalPos.Unsigned.to_uint_nonnil _ E).
    - intros E. injection E as E. exact (DecimalPos.Unsigned.to_uint_nonnil _ E). }
  pose proof (Hz n) as Hn. rewrite H, Hz in Hn. congruence.
Qed.

Lemma guest_name_inj n m : guest_name n = guest_name m -> n = m.
Proof.
  unfold guest_name. intros H. apply Z_to_string_inj.
  revert H. generalize (Z_to_string n) (Z_to_string m). intros a b.
  induction ("Guest "%string) as [| c p IH]; [intros H; exact H |].
  intros H. injection H as H. exact (IH H).
Qed.

(** X20: the tag [determineTag] returns is never empty and is trimmed, of
    the white space of ECMAScript (a tag that is a no-break space gets a
    guest tag).  It is the trimmed tag of the request, and nothing
    changes, or it is ['Guest ' + num_guests], and [num_guests] goes up by
    1; tags made up from different counts differ. *)
Theorem determineTag_tags (request : request) (w w' : world) tag :
  determineTag request w = Ret tag w' ->
  tag <> EmptyString /\ trim tag = tag
  /\ ((w' = w
       /\ exists s,
            get_prop (get_prop (data request) "profile") "player_tag" = JStr s
            /\ tag = trim s)
      \/ (w' = set_num_guests (num_guests w + 1) w
          /\ tag = guest_name (num_guests w)
          /\ forall m, guest_name m = tag -> m = num_guests w)).
Proof.
  assert (guest_tag w
          = Ret (guest_name (num_guests w)) (set_num_guests (num_guests w + 1) w))
    as Hg by reflexivity.
  assert (forall n, guest_name n <> EmptyString) as Hne by (intros n; discriminate).
  assert (bind guest_tag (fun tag => ret (trim tag)) w = Ret tag w' ->
          tag <> EmptyString /\ trim tag = tag
          /\ ((w' = w
               /\ exists s,
                    get_prop (get_prop (data request) "profile") "player_tag"
                    = JStr s /\ tag = trim s)
              \/ (w' = set_num_guests (num_guests w + 1) w
                  /\ tag = guest_name (num_guests w)
                  /\ forall m, guest_name m = tag -> m = num_guests w))) as Hguest.
  { unfold bind. rewrite Hg. unfold ret. rewrite guest_name_trim.
    intros H. injection H as <- <-.
    split; [apply Hne |]. split; [apply guest_name_trim |].
    right. split; [reflexivity |]. split; [reflexivity |].
    intros m. apply guest_name_inj. }
  unfold determineTag.
  destruct (get_prop (get_prop (data request) "profile") "player_tag")
    as [| | b | z | s | fs]; try exact Hguest; try discriminate.
  destruct (String.eqb (trim s) EmptyString) eqn:E; [exact Hguest |].
  unfold ret. intros H. injection H as <- <-.
  apply String.eqb_neq in E.
  split; [exact E |]. split; [apply trim_idem |].
  left. split; [reflexivity |]. exists s. split; reflexivity.
Qed.

(** A tag of blanks, the second a no-break space: the first guest of the
    server. *)
Lemma determineTag_tags_witness :
  let request :=
    on_socket 1 "A"
      (profile_data
         (JStr (String " " (String (ascii_of_nat 194)
                  (String (ascii_of_nat 160) EmptyString))))
         (JStr "1")) in
  let tag := guest_name 0 in
  tag <> EmptyString /\ trim tag = tag.
Proof.
  intros request tag.
  destruct (determineTag_tags request empty_lobby_world
              (set_num_guests 1 empty_lobby_world) tag) as (H1 & H2 & _).
  - vm_compute. reflexivity.
  - split; [exact H1 | exact H2].
Defined.

(** * Scores *)




(** * [change_room] *)

Lemma left_room_results request p w :
  round_results (left_room request p w) = round_results w.
Proof. unfold left_room. cbv zeta. destruct (0 <? _); reflexivity. Qed.

Lemma pred_count_positive l (m : gmap Z Z) :
  (0 <? default 0 (alter Z.pred l m !! l)) = (0 <? default 0 (m !! l) - 1).
Proof.
  rewrite lookup_alter, decide_True by reflexivity.
  destruct (m !! l) as [c |]; cbn; [| reflexivity].
  unfold Z.pred. reflexivity.
Qed.

(** X22: a [change_room] that moves a player.  Once the one-shot has
    fired, when the level asked for is valid and is not the level of the
    player object the global [player] holds, and the session holds a player
    object, [change_room] returns.  It makes that object the global
    [player], takes the socket out of the room of the object and 1 off the
    count of that room, sets the level of the object, joins the socket to
    the new room and adds 1 to its count; the registry and the sessions
    stay as they are.  It sends, in this order: [gamer_exited_room] to the
    room left, when its count stays above 0; [gamer_entered_room] to the
    others in the new room; [gamers_already_in_room] to the client, with
    the lines of the registered players of the new room, in the order
    of the registry (no session id being the decimal of an array index);
    and the round event, with the last results of the level the global
    [player] had at entry. *)
Theorem change_room_moves_player array_sort (request : request) (w : world)
  l g gp k r p :
  plain_ids w ->
  reachable array_sort w ->
  timeout_pending w = None ->
  determineDifficultyLevel request w = Ret l w -> l <> -1 ->
  player_global w = Some (SRef g) -> heap w !! g = Some gp ->
  l <> diff_lvl gp ->
  session request = Some k -> sessions w !! k = Some (SRef r) ->
  heap w !! r = Some p ->
  let W := room_changed request r p l w in
  change_room request w
  = Ret tt
      (set_outbox
         (outbox W ++
          mkMsg (ToSocket (sock request)) "gamers_already_in_room"
            (PLeaders (room_entries l W))
          :: round_event (sock request) (round_in_progress w) (diff_lvl gp) w)
         W)
  /\ outbox W
     = outbox w ++
       (if 0 <? room_count (diff_lvl p) w - 1
        then [mkMsg (ToRoomExcept (room_name (diff_lvl p)) (sock request))
                "gamer_exited_room" (PTag (player_tag p))]
        else []) ++
       [mkMsg (ToRoomExcept (room_name l) (sock request)) "gamer_entered_room"
          (PEntry (player_tag p, points p))]
  /\ heap W = <[r := set_diff_lvl l p]> (heap w)
  /\ roomCount W = alter Z.succ l (alter Z.pred (diff_lvl p) (roomCount w))
  /\ joined W = {[ (sock request, l) ]} ∪ (joined w ∖ {[ (sock request, diff_lvl p) ]})
  /\ player_global W = Some (SRef r)
  /\ all_players_list W = all_players_list w
  /\ sessions W = sessions w.
Proof.
  intros _ Hr Hp Hd Hl Hg Hgp Hne Hk Hs Hh W.
  destruct (determineDifficultyLevel_level_ok request w l w Hd Hl) as [Hlvl _].
  destruct (reachable_registry_ok array_sort w Hr) as [_ Hrefs].
  pose proof (reachable_wf array_sort w Hr) as [Hwf _].
  assert (level_ok (diff_lvl gp)) as Hglvl.
  { rewrite Forall_forall in Hwf. apply (Hwf gp).
    apply list_elem_of_lookup. exists g. exact Hgp. }
  split.
  - rewrite (change_room_moves request l g gp k r p) by assumption.
    fold W. rewrite emitRoundEventAndResults_eq.
    + unfold sent, gamers_already_in_room. fields. f_equal. world_eq.
      * rewrite <- app_assoc. unfold round_event, results_of, W, room_changed.
        cbv zeta. unfold entered_room. fields. rewrite left_room_results.
        reflexivity.
    + pose proof (reachable_clock_ok array_sort w Hr) as Hc.
      unfold clock_ok in Hc. rewrite Hp in Hc.
      destruct Hc as (_ & _ & _ & _ & Hres).
      destruct (round_in_progress w) eqn:E; [left; reflexivity | right].
      unfold sent, W, room_changed. cbv zeta. unfold entered_room. fields.
      rewrite left_room_results. fields. apply Hres; [reflexivity | exact Hglvl].
  - unfold W, room_changed. cbv zeta. unfold entered_room, sent. fields.
    rewrite left_room_outbox, left_room_heap, left_room_roomCount,
      left_room_joined, left_room_global, left_room_registry,
      left_room_sessions. fields.
    rewrite pred_count_positive. unfold room_count.
    cbn [diff_lvl set_diff_lvl player_tag points entry_of].
    split; [rewrite <- app_assoc; destruct p; reflexivity |].
    split; [reflexivity |]. split; [destruct p; reflexivity |].
    split; [destruct p; reflexivity |]. split; [reflexivity |].
    split; reflexivity.
Qed.

(** Alice moves from room 0 to room 2 while the global [player] is Bob's
    object. *)
Lemma change_room_moves_player_witness :
  let request := on_socket 1 "A" (profile_data (JStr "Alice") (JStr "2")) in
  let w := two_rooms_world in
  let W := room_changed request 0%nat (mkPlayer "Alice" (JNum 0) 0 true 1) 2 w in
  change_room request w
  = Ret tt
      (set_outbox
         (outbox W ++
          mkMsg (ToSocket 1) "gamers_already_in_room"
            (PLeaders (room_entries 2 W))
          :: round_event 1%nat (round_in_progress w) 1 w)
         W)
  /\ roomCount W = alter Z.succ 2 (alter Z.pred 0 (roomCount w)).
Proof.
  intros request w W.
  destruct (change_room_moves_player keep_order request w 2 1%nat
              (mkPlayer "Bob" (JNum 0) 1 true 1) 1%nat 0%nat
              (mkPlayer "Alice" (JNum 0) 0 true 1) ltac:(reflexivity)
              two_rooms_world_reachable)
    as (H1 & _ & _ & H2 & _).
  - vm_compute. reflexivity.
  - vm_compute. reflexivity.
  - discriminate.
  - vm_compute. reflexivity.
  - vm_compute. reflexivity.
  - discriminate.
  - reflexivity.
  - vm_compute. reflexivity.
  - vm_compute. reflexivity.
  - split; [exact H1 | exact H2].
Defined.

(** * [stop] *)

Lemma tick_interval_set now : (TIMER_NOT_SET =? tick_interval now) = false.
Proof.
  pose proof (tick_interval_cases now) as H.
  rewrite !elem_of_cons in H. rewrite elem_of_nil in H.
  unfold TIMER_NOT_SET, FAST_TIMER_INTERVAL, NORMAL_TIMER_INTERVAL,
    SLOW_TIMER_INTERVAL in *. lia.
Qed.

(** X23: [stop] cancels nothing.  It sets [currentTimerInterval] to
    [TIMER_NOT_SET]; the pending one-shot and the recurring timer stay set
    and no timer call is made on them, because the handles [stop] passes
    to [clearTimeout] and [clearInterval] are module variables that are
    never assigned.  The timers go on firing: the one-shot does what it
    does without the [stop], and so does the next firing of the recurring
    timer, which throws when the sort of its Play-tick throws and
    otherwise does its work as without the [stop], except that
    [calibrateTimer] finds the interval changed, clears the recurring
    timer and sets a new one at the interval the calibration gives. *)
Theorem stop_cancels_nothing array_sort now_adjust now_calibrate (w : world) :
  reachable array_sort w ->
  let w1 := world_of (stop w) in
  stop w = Ret tt w1
  /\ w1 = set_currentTimerInterval TIMER_NOT_SET w
  /\ timeout_pending w1 = timeout_pending w
  /\ interval_active w1 = interval_active w
  /\ timer_log w1 = timer_log w
  /\ step array_sort OneShotFires w1
     = set_currentTimerInterval TIMER_NOT_SET (step array_sort OneShotFires w)
  /\ step array_sort (IntervalFires now_adjust now_calibrate) w1
     = (if interval_active w is Some _ then
          if tick_throws w
          then set_currentTimerInterval TIMER_NOT_SET
                 (step array_sort (IntervalFires now_adjust now_calibrate) w)
          else
            set_timer_log
              (timer_log w ++
               [ClearInterval (interval_active w);
                SetInterval (tick_interval now_calibrate)])
              (set_interval_active (Some (tick_interval now_calibrate))
                 (step array_sort (IntervalFires now_adjust now_calibrate) w))
        else w1).
Proof.
  intros Hr w1. pose proof (reachable_wf array_sort w Hr) as Hw.
  assert (w1 = set_currentTimerInterval TIMER_NOT_SET w) as Hw1' by reflexivity.
  assert (inv wf_player w1) as Hw1
    by (rewrite Hw1'; apply (inv_frame wf_player w);
        [reflexivity | reflexivity | exact Hw]).
  split; [reflexivity |]. split; [exact Hw1' |].
  split; [reflexivity |]. split; [reflexivity |]. split; [reflexivity |].
  clearbody w1. subst w1. split.
  - rewrite !step_one_shot by assumption. fields.
    change (first_throws (set_currentTimerInterval TIMER_NOT_SET w))
      with (first_throws w).
    destruct (timeout_pending w); [| reflexivity].
    destruct (first_throws w); reflexivity.
  - rewrite !step_interval by assumption. fields.
    change (tick_throws (set_currentTimerInterval TIMER_NOT_SET w))
      with (tick_throws w).
    destruct (interval_active w) as [i |] eqn:Ei; [| reflexivity].
    destruct (tick_throws w); [reflexivity |].
    unfold ticked, calibrate_ops. fields.
    rewrite tick_interval_set. world_eq; rewrite ?Ei; reflexivity.
Qed.

(** [stop] during the Lobby of [lobby_world], then a tick on time. *)
Lemma stop_cancels_nothing_witness :
  let w1 := world_of (stop lobby_world) in
  stop lobby_world = Ret tt w1
  /\ interval_active w1 = interval_active lobby_world.
Proof.
  intros w1.
  destruct (stop_cancels_nothing keep_order 150000 150000 lobby_world
              lobby_world_reachable) as (H1 & _ & _ & H2 & _).
  split; [exact H1 | exact H2].
Defined.
